(** * Verification of the release scripts of opencode-studio

    Two scripts are embedded here:
    - [scripts/version_sync.py], which reads and rewrites the version
      fields of the manifests, and
    - [scripts/assert_native_target.py], which compares a target triple
      with the host.

    Python strings are sequences of Unicode code points; a code point is a
    binary natural number here, so that the whitespace and line-boundary
    classes of [str.strip], [str.splitlines] and the [re] module are the
    ones CPython uses. *)

From Stdlib Require Import ZArith NArith Lia Bool DecimalString.
From Stdlib Require Import Sorting.Sorted Sorting.Permutation.
From stdpp Require Import base list strings.

Local Open Scope N_scope.
#[local] Set Warnings "-register-all".

(** * Text *)

Definition char := N.
Definition str := list char.

(** An ASCII literal as a Python string. *)
Definition lit (s : string) : str :=
  map Ascii.N_of_ascii (String.list_ascii_of_string s).

Definition LF : char := 10.
Definition CR : char := 13.
Definition DQUOTE : char := 34.
Definition DASH : char := 45.

Fixpoint str_eqb (a b : str) : bool :=
  match a, b with
  | [], [] => true
  | x :: a', y :: b' => (x =? y) && str_eqb a' b'
  | _, _ => false
  end.

(** [str.isspace] on one code point (CPython's [_PyUnicode_IsWhitespace]);
    the [\s] class of [re] on [str] patterns is the same set. *)
Definition isspace (c : char) : bool :=
  ((9 <=? c) && (c <=? 13)) || ((28 <=? c) && (c <=? 32))
  || (c =? 133) || (c =? 160) || (c =? 5760)
  || ((8192 <=? c) && (c <=? 8202))
  || (c =? 8232) || (c =? 8233) || (c =? 8239) || (c =? 8287)
  || (c =? 12288).

(** The line boundaries of [str.splitlines]
    (CPython's [_PyUnicode_IsLinebreak]). *)
Definition is_linebreak (c : char) : bool :=
  ((10 <=? c) && (c <=? 13)) || ((28 <=? c) && (c <=? 30))
  || (c =? 133) || (c =? 8232) || (c =? 8233).

Fixpoint take_while {A : Type} (p : A -> bool) (s : list A) : list A :=
  match s with
  | c :: s' => if p c then c :: take_while p s' else []
  | [] => []
  end.

Fixpoint drop_while {A : Type} (p : A -> bool) (s : list A) : list A :=
  match s with
  | c :: s' => if p c then drop_while p s' else s
  | [] => []
  end.

Definition lstrip (s : str) : str := drop_while isspace s.

Fixpoint rstrip (s : str) : str :=
  match s with
  | [] => []
  | c :: s' =>
      match rstrip s' with
      | [] => if isspace c then [] else [c]
      | r => c :: r
      end
  end.

(** [s.strip()] *)
Definition strip (s : str) : str := rstrip (lstrip s).

(** [s.startswith(p)], returning what follows the prefix. *)
Fixpoint strip_prefix (p s : str) : option str :=
  match p, s with
  | [], _ => Some s
  | x :: p', y :: s' => if x =? y then strip_prefix p' s' else None
  | _ :: _, [] => None
  end.

Definition startswith (s p : str) : bool :=
  match strip_prefix p s with Some _ => true | None => false end.

(** [s.endswith(p)] *)
Definition endswith (s p : str) : bool :=
  startswith (rev s) (rev p).

(** [sub in s] *)
Fixpoint contains (sub s : str) : bool :=
  startswith s sub ||
  match s with
  | [] => false
  | _ :: s' => contains sub s'
  end.

(** [s.splitlines(keepends)]: a line ends at a line boundary, ["\r\n"]
    counting as one; no empty last line is produced. *)
Fixpoint splitlines (keepends : bool) (s : str) : list str :=
  match s with
  | [] => []
  | c :: s' =>
      if c =? CR then
        match s' with
        | c' :: s'' =>
            if c' =? LF
            then (if keepends then [CR; LF] else []) :: splitlines keepends s''
            else (if keepends then [CR] else []) :: splitlines keepends s'
        | [] => [if keepends then [CR] else []]
        end
      else if is_linebreak c then
        (if keepends then [c] else []) :: splitlines keepends s'
      else
        match splitlines keepends s' with
        | [] => [[c]]
        | l :: ls => (c :: l) :: ls
        end
  end.

(** [sep.join(parts)] *)
Fixpoint join (sep : str) (parts : list str) : str :=
  match parts with
  | [] => []
  | [p] => p
  | p :: ps => p ++ sep ++ join sep ps
  end.

(** [split_line_ending] *)
Definition split_line_ending (line : str) : str * str :=
  if endswith line [CR; LF] then (take (length line - 2) line, [CR; LF])
  else if endswith line [LF] then (take (length line - 1) line, [LF])
  else if endswith line [CR] then (take (length line - 1) line, [CR])
  else (line, []).

(** * Regular expressions

    The fragment of Python's [re] that the scripts use, matched the way
    [re] does it: by backtracking, leftmost alternative and longest
    repetition first. Every repetition in the scripts' patterns is over
    a character class. *)

Inductive regex : Type :=
| Bol                          (* ^ *)
| Eol                          (* $ : at the end, or before a final newline *)
| Lit (l : str)                (* literal text *)
| Cls (p : char -> bool)       (* one character of a class *)
| Star (p : char -> bool)      (* greedy repetition of a class *)
| Seq (r1 r2 : regex)
| Alt (r1 r2 : regex)
| Opt (r : regex)
| Grp (n : nat) (r : regex).   (* capturing group number n *)

Definition Plus (p : char -> bool) : regex := Seq (Cls p) (Star p).

Definition captures := list (nat * str).

Fixpoint group (caps : captures) (n : nat) : option str :=
  match caps with
  | [] => None
  | (m, s) :: caps' => if Nat.eqb m n then Some s else group caps' n
  end.

Section Matcher.
Context {R : Type}.
(** Length of the whole subject: [^] holds where nothing is consumed. *)
Variable n0 : nat.

Definition kont := str -> captures -> option R.

Fixpoint star (p : char -> bool) (s : str) (caps : captures) (k : kont)
  : option R :=
  match s with
  | c :: s' =>
      if p c then
        match star p s' caps k with
        | Some x => Some x
        | None => k s caps
        end
      else k s caps
  | [] => k s caps
  end.

Fixpoint run (r : regex) (s : str) (caps : captures) (k : kont)
  : option R :=
  match r with
  | Bol => if Nat.eqb (length s) n0 then k s caps else None
  | Eol =>
      match s with
      | [] => k s caps
      | [c] => if c =? LF then k s caps else None
      | _ => None
      end
  | Lit l =>
      match strip_prefix l s with
      | Some s' => k s' caps
      | None => None
      end
  | Cls p =>
      match s with
      | c :: s' => if p c then k s' caps else None
      | [] => None
      end
  | Star p => star p s caps k
  | Seq r1 r2 => run r1 s caps (fun s' caps' => run r2 s' caps' k)
  | Alt r1 r2 =>
      match run r1 s caps k with
      | Some x => Some x
      | None => run r2 s caps k
      end
  | Opt r' =>
      match run r' s caps k with
      | Some x => Some x
      | None => k s caps
      end
  | Grp n r' =>
      run r' s caps
        (fun s' caps' => k s' ((n, take (length s - length s') s) :: caps'))
  end.
End Matcher.

(** [re.match(r, s)] *)
Definition re_match (r : regex) (s : str) : option captures :=
  run (length s) r s [] (fun _ caps => Some caps).

(** [re.fullmatch(r, s)]: the match has to end at the end of [s]. *)
Definition re_fullmatch (r : regex) (s : str) : option captures :=
  run (length s) r s []
    (fun s' caps => match s' with [] => Some caps | _ => None end).

(** Character classes of the patterns. *)
Definition digit (c : char) : bool := (48 <=? c) && (c <=? 57).
Definition digit19 (c : char) : bool := (49 <=? c) && (c <=? 57).
Definition idchar (c : char) : bool :=
  digit c || ((65 <=? c) && (c <=? 90)) || ((97 <=? c) && (c <=? 122))
  || (c =? 46) || (c =? 45).
Definition notquote (c : char) : bool := negb (c =? DQUOTE).
Definition anychar (c : char) : bool := negb (c =? LF).

(** [SEMVER_PATTERN] *)
Definition numeric (n : nat) : regex :=
  Grp n (Alt (Lit (lit "0")) (Seq (Cls digit19) (Star digit))).

Definition SEMVER_PATTERN : regex :=
  Seq (numeric 1)
   (Seq (Lit (lit "."))
     (Seq (numeric 2)
       (Seq (Lit (lit "."))
         (Seq (numeric 3)
           (Seq (Opt (Grp 4 (Seq (Lit (lit "-")) (Plus idchar))))
                (Opt (Grp 5 (Seq (Lit (lit "+")) (Plus idchar))))))))).

Definition SEMVER_RE : regex := Seq Bol (Seq SEMVER_PATTERN Eol).
Definition TAG_RE : regex := Seq Bol (Seq (Lit (lit "v")) (Seq SEMVER_PATTERN Eol)).

Definition is_semver (s : str) : bool :=
  match re_fullmatch SEMVER_RE s with Some _ => true | None => false end.

Definition is_tag (s : str) : bool :=
  match re_fullmatch TAG_RE s with Some _ => true | None => false end.

(** * version_sync.py *)

(** [VersionSyncError], one constructor per message of the script (the
    path, which every message repeats, is left out), and [AttributeError]
    for the one exception of Python itself that the JSON readers can
    raise on a document of the wrong shape. *)
Inductive error : Type :=
| InvalidVersion (raw : str)
| CannotFindPackageVersion
| CannotUpdatePackageVersion
| CannotFindJsonVersion
| CannotFindTopLevelVersion
| CannotFindRootPackageVersion
| PackageLockMismatch (top_level root_package : str)
| CannotFindPackagesObject
| MissingLockfileVersion (package_name : str)
| UnexpectedLockfileFormat (lineno : nat)
| CannotFindLockfilePackage (package_name : str)
| CannotUpdateLockfilePackage (package_name : str)
| InvalidSemver (file_path version : str)
| VersionMismatch (report : str)
| InvalidTag (tag : str)
| TagVersionMismatch (tag version expected : str)
| AttributeError.

Inductive result (A : Type) : Type :=
| Ok (a : A)
| Err (e : error).
Arguments Ok {A} a.
Arguments Err {A} e.

(** [normalize_version] *)
Definition normalize_version (raw : str) : result str :=
  let candidate := strip raw in
  let candidate :=
    match strip_prefix (lit "v") candidate with
    | Some rest => rest
    | None => candidate
    end in
  if is_semver candidate then Ok candidate else Err (InvalidVersion raw).

(** ** Files

    A file is given by the code points its bytes decode to.
    [Path.read_text] opens it in text mode with universal newlines: every
    ["\r\n"] and every lone ["\r"] is handed to the program as ["\n"].
    [Path.write_text] writes every ["\n"] as the line separator of the
    platform. *)

Inductive platform : Type := Posix | Windows.

Definition os_linesep (pf : platform) : str :=
  match pf with
  | Posix => [LF]
  | Windows => [CR; LF]
  end.

Fixpoint universal_newlines (raw : str) : str :=
  match raw with
  | [] => []
  | c :: raw' =>
      if c =? CR then
        LF :: match raw' with
              | c' :: raw'' =>
                  if c' =? LF then universal_newlines raw''
                  else universal_newlines raw'
              | [] => []
              end
      else c :: universal_newlines raw'
  end.

(** [read_file] *)
Definition read_file (raw : str) : str := universal_newlines raw.

(** [write_file]: the bytes the file holds afterwards. *)
Fixpoint write_file (pf : platform) (content : str) : str :=
  match content with
  | [] => []
  | c :: content' =>
      (if c =? LF then os_linesep pf else [c]) ++ write_file pf content'
  end.

(** ** Patterns

    In the comments below the patterns of the script are written with
    [Q] for the double-quote character. *)

Definition ws : regex := Star isspace.

(** [^\s*version\s*=\s*Q([^Q]+)Q] *)
Definition TOML_VERSION_RE : regex :=
  Seq Bol (Seq ws (Seq (Lit (lit "version")) (Seq ws (Seq (Lit (lit "="))
    (Seq ws (Seq (Lit [DQUOTE]) (Seq (Grp 1 (Plus notquote)) (Lit [DQUOTE])))))))).

(** The rewrite pattern, three groups between [^] and [$]:
    [\s*version\s*=\s*Q], then [[^Q]+], then [Q.*]. *)
Definition VERSION_LINE_RE : regex :=
  Seq Bol
   (Seq (Grp 1 (Seq ws (Seq (Lit (lit "version")) (Seq ws (Seq (Lit (lit "="))
                 (Seq ws (Lit [DQUOTE])))))))
     (Seq (Grp 2 (Plus notquote))
       (Seq (Grp 3 (Seq (Lit [DQUOTE]) (Star anychar))) Eol))).

(** [^name\s*=\s*Q([^Q]+)Q$] *)
Definition LOCK_NAME_RE : regex :=
  Seq Bol (Seq (Lit (lit "name")) (Seq ws (Seq (Lit (lit "=")) (Seq ws
    (Seq (Lit [DQUOTE]) (Seq (Grp 1 (Plus notquote)) (Seq (Lit [DQUOTE]) Eol))))))).

(** [^version\s*=\s*Q([^Q]+)Q$] *)
Definition LOCK_VERSION_RE : regex :=
  Seq Bol (Seq (Lit (lit "version")) (Seq ws (Seq (Lit (lit "=")) (Seq ws
    (Seq (Lit [DQUOTE]) (Seq (Grp 1 (Plus notquote)) (Seq (Lit [DQUOTE]) Eol))))))).

(** [^version\s*=\s*Q[^Q]+Q$] *)
Definition LOCK_VERSION_DETECT_RE : regex :=
  Seq Bol (Seq (Lit (lit "version")) (Seq ws (Seq (Lit (lit "=")) (Seq ws
    (Seq (Lit [DQUOTE]) (Seq (Plus notquote) (Seq (Lit [DQUOTE]) Eol))))))).

(** [match.group(n)] of a match whose group [n] took part in it. *)
Definition group_text (caps : captures) (n : nat) : str :=
  default [] (group caps n).

(** ** Key-value manifests *)

Definition is_section_header (stripped : str) : bool :=
  startswith stripped (lit "[") && endswith stripped (lit "]").

Fixpoint read_toml_loop (lines : list str) (in_package : bool) : result str :=
  match lines with
  | [] => Err CannotFindPackageVersion
  | line :: lines' =>
      let stripped := strip line in
      if is_section_header stripped then
        read_toml_loop lines' (str_eqb stripped (lit "[package]"))
      else if negb in_package then read_toml_loop lines' in_package
      else
        match re_match TOML_VERSION_RE line with
        | Some m => Ok (group_text m 1)
        | None => read_toml_loop lines' in_package
        end
  end.

(** [read_toml_package_version], on the contents of the file *)
Definition read_toml_package_version (raw : str) : result str :=
  read_toml_loop (splitlines false (read_file raw)) false.

(** The loop of [write_toml_package_version]: [rest] is [lines[idx:]].
    [Ok None] is the return without a write, [Ok (Some content)] is
    [write_file(path, content)]. *)
Fixpoint write_toml_loop (lines rest : list str) (idx : nat)
    (in_package : bool) (new_version : str) : result (option str) :=
  match rest with
  | [] => Err CannotUpdatePackageVersion
  | line :: rest' =>
      let stripped := strip line in
      if is_section_header stripped then
        write_toml_loop lines rest' (S idx)
          (str_eqb stripped (lit "[package]")) new_version
      else if negb in_package then
        write_toml_loop lines rest' (S idx) in_package new_version
      else
        let '(line_body, line_ending) := split_line_ending line in
        match re_match VERSION_LINE_RE line_body with
        | None => write_toml_loop lines rest' (S idx) in_package new_version
        | Some m =>
            if str_eqb (group_text m 2) new_version then Ok None
            else
              Ok (Some (concat
                (<[idx := group_text m 1 ++ new_version ++ group_text m 3
                          ++ line_ending]> lines)))
        end
  end.

(** What a writer did: whether it reported a change, and the file
    afterwards. *)
Definition written (pf : platform) (raw : str) (r : result (option str))
  : result (bool * str) :=
  match r with
  | Ok None => Ok (false, raw)
  | Ok (Some content) => Ok (true, write_file pf content)
  | Err e => Err e
  end.

Definition write_toml_content (content new_version : str)
  : result (option str) :=
  let lines := splitlines true content in
  write_toml_loop lines lines 0 false new_version.

(** [write_toml_package_version] *)
Definition write_toml_package_version (pf : platform) (raw new_version : str)
  : result (bool * str) :=
  written pf raw (write_toml_content (read_file raw) new_version).

(** ** Named-block lock files *)

Definition PACKAGE_MARKER : str := lit "[[package]]".

Definition is_marker (line : str) : bool :=
  str_eqb (strip line) PACKAGE_MARKER.

(** [matched_name == package_name], where [matched_name] may be [None]. *)
Definition name_is (matched_name : option str) (package_name : str) : bool :=
  match matched_name with
  | Some n => str_eqb n package_name
  | None => false
  end.

Definition scan_name (stripped : str) (matched_name : option str)
  : option str :=
  match re_match LOCK_NAME_RE stripped with
  | Some m => Some (group_text m 1)
  | None => matched_name
  end.

Definition scan_source (stripped : str) (has_source : bool) : bool :=
  if startswith stripped (lit "source = ") then true else has_source.

(** What [read_lock_package_version] does with a block once its inner
    loop has stopped; [continue] is the outer loop going on at [end]. *)
Definition read_lock_decide (package_name : str)
    (matched_name matched_version : option str) (has_source : bool)
    (continue : result str) : result str :=
  if name_is matched_name package_name && negb has_source then
    match matched_version with
    | None => Err (MissingLockfileVersion package_name)
    | Some v => Ok v
    end
  else continue.

(** The inner loop of [read_lock_package_version] on [lines[end:]];
    [outer] is the outer loop, entered again where the inner one stops. *)
Definition read_lock_block (package_name : str)
    (outer : list str -> result str) :=
  fix block (rest : list str) (matched_name matched_version : option str)
      (has_source : bool) {struct rest} : result str :=
    match rest with
    | [] =>
        read_lock_decide package_name matched_name matched_version has_source
          (outer rest)
    | line :: rest' =>
        if is_marker line then
          read_lock_decide package_name matched_name matched_version
            has_source (outer rest)
        else
          let stripped := strip line in
          block rest'
            (scan_name stripped matched_name)
            (match re_match LOCK_VERSION_RE stripped with
             | Some m => Some (group_text m 1)
             | None => matched_version
             end)
            (scan_source stripped has_source)
    end.

(** The outer loop of [read_lock_package_version] on [lines[idx:]]. *)
Fixpoint read_lock_loop (package_name : str) (rest : list str) {struct rest}
  : result str :=
  match rest with
  | [] => Err (CannotFindLockfilePackage package_name)
  | line :: rest' =>
      if negb (is_marker line) then read_lock_loop package_name rest'
      else
        read_lock_block package_name (read_lock_loop package_name)
          rest' None None false
  end.

Definition read_lock_content (content package_name : str) : result str :=
  read_lock_loop package_name (splitlines false content).

(** [read_lock_package_version] *)
Definition read_lock_package_version (raw package_name : str) : result str :=
  read_lock_content (read_file raw) package_name.

(** The rewrite of line [version_idx] once the block is found. *)
Definition rewrite_lock_line (lines : list str) (version_idx : nat)
    (new_version : str) : result (option str) :=
  let '(version_line_body, version_line_ending) :=
    split_line_ending (default [] (lines !! version_idx : option str)) in
  match re_match VERSION_LINE_RE version_line_body with
  | None => Err (UnexpectedLockfileFormat (S version_idx))
  | Some m =>
      if str_eqb (group_text m 2) new_version then Ok None
      else
        Ok (Some (concat
          (<[version_idx := group_text m 1 ++ new_version ++ group_text m 3
                            ++ version_line_ending]> lines)))
  end.

Definition write_lock_decide (lines : list str)
    (package_name new_version : str)
    (matched_name : option str) (version_idx : option nat) (has_source : bool)
    (continue : result (option str)) : result (option str) :=
  if name_is matched_name package_name && negb has_source then
    match version_idx with
    | None => Err (MissingLockfileVersion package_name)
    | Some i => rewrite_lock_line lines i new_version
    end
  else continue.

(** The inner loop of [write_lock_package_version]: [rest] is
    [lines[end:]]. *)
Definition write_lock_block (lines : list str) (package_name new_version : str)
    (outer : list str -> nat -> result (option str)) :=
  fix block (rest : list str) (end_ : nat) (matched_name : option str)
      (version_idx : option nat) (has_source : bool) {struct rest}
    : result (option str) :=
    match rest with
    | [] =>
        write_lock_decide lines package_name new_version matched_name
          version_idx has_source (outer rest end_)
    | line :: rest' =>
        if is_marker line then
          write_lock_decide lines package_name new_version matched_name
            version_idx has_source (outer rest end_)
        else
          let stripped := strip line in
          block rest' (S end_)
            (scan_name stripped matched_name)
            (match re_match LOCK_VERSION_DETECT_RE stripped with
             | Some _ => Some end_
             | None => version_idx
             end)
            (scan_source stripped has_source)
    end.

(** The outer loop of [write_lock_package_version]: [rest] is
    [lines[idx:]]. *)
Fixpoint write_lock_loop (lines : list str) (package_name new_version : str)
    (rest : list str) (idx : nat) {struct rest} : result (option str) :=
  match rest with
  | [] => Err (CannotUpdateLockfilePackage package_name)
  | line :: rest' =>
      if negb (is_marker line) then
        write_lock_loop lines package_name new_version rest' (S idx)
      else
        write_lock_block lines package_name new_version
          (write_lock_loop lines package_name new_version)
          rest' (S idx) None None false
  end.

Definition write_lock_content (content package_name new_version : str)
  : result (option str) :=
  let lines := splitlines true content in
  write_lock_loop lines package_name new_version lines 0.

(** [write_lock_package_version] *)
Definition write_lock_package_version (pf : platform)
    (raw package_name new_version : str) : result (bool * str) :=
  written pf raw (write_lock_content (read_file raw) package_name new_version).

(** ** JSON documents

    The JSON handlers work on the value [json.loads] returns for the
    file, and hand [json.dumps] a value to write; a document is modelled
    as that value. An object is a Python [dict]: its keys in insertion
    order. A float is kept as the text [repr] prints for it. *)

Inductive json : Type :=
| JNull
| JBool (b : bool)
| JInt (z : Z)
| JFloat (repr : str)
| JStr (s : str)
| JList (l : list json)
| JDict (items : list (str * json)).

Fixpoint dict_get {A : Type} (items : list (str * A)) (key : str) : option A :=
  match items with
  | [] => None
  | (k, v) :: items' => if str_eqb k key then Some v else dict_get items' key
  end.

(** [d[key] = v]: in place when the key exists, appended otherwise. *)
Fixpoint dict_set {A : Type} (items : list (str * A)) (key : str) (v : A)
  : list (str * A) :=
  match items with
  | [] => [(key, v)]
  | (k, x) :: items' =>
      if str_eqb k key then (k, v) :: items'
      else (k, x) :: dict_set items' key v
  end.

(** [value == text] for a string [text]. *)
Definition json_is_str (value : option json) (text : str) : bool :=
  match value with
  | Some (JStr s) => str_eqb s text
  | _ => false
  end.

Definition bind {A B : Type} (r : result A) (f : A -> result B) : result B :=
  match r with
  | Ok a => f a
  | Err e => Err e
  end.

Notation "'let*' x := e 'in' k" := (bind e (fun x => k))
  (at level 10, x name, e at level 200, k at level 200, only parsing).

(** [obj.get(key, default)]: only a [dict] has [get]. *)
Definition py_get (obj : json) (key : str) (default : json) : result json :=
  match obj with
  | JDict items =>
      Ok (match dict_get items key with Some v => v | None => default end)
  | _ => Err AttributeError
  end.

Definition decimal (z : Z) : str :=
  lit (DecimalString.NilZero.string_of_int (Z.to_int z)).

Section Json.
(** [str] of a list or of a dict is their [repr]; none of the
    properties below depends on what it prints. *)
Variable repr_container : json -> str.

(** [str(value)] *)
Definition py_str (value : json) : str :=
  match value with
  | JStr s => s
  | JNull => lit "None"
  | JBool true => lit "True"
  | JBool false => lit "False"
  | JInt z => decimal z
  | JFloat r => r
  | JList _ | JDict _ => repr_container value
  end.

(** [read_json_version], on the parsed document *)
Definition read_json_version (data : json) : result str :=
  let* v := py_get data (lit "version") (JStr []) in
  let version := strip (py_str v) in
  match version with
  | [] => Err CannotFindJsonVersion
  | _ => Ok version
  end.

(** [read_package_lock_version], on the parsed document *)
Definition read_package_lock_version (data : json) : result str :=
  let* v := py_get data (lit "version") (JStr []) in
  let top_level := strip (py_str v) in
  let* packages := py_get data (lit "packages") (JDict []) in
  let* root := py_get packages [] (JDict []) in
  let* rv := py_get root (lit "version") (JStr []) in
  let root_package := strip (py_str rv) in
  match top_level, root_package with
  | [], _ => Err CannotFindTopLevelVersion
  | _, [] => Err CannotFindRootPackageVersion
  | _, _ =>
      if negb (str_eqb top_level root_package)
      then Err (PackageLockMismatch top_level root_package)
      else Ok top_level
  end.
End Json.

(** [write_json_version]: [Ok None] is the return without a write,
    [Ok (Some data')] is the write of [json.dumps(data') + newline]. *)
Definition write_json_version (data : json) (new_version : str)
  : result (option json) :=
  match data with
  | JDict items =>
      if json_is_str (dict_get items (lit "version")) new_version then Ok None
      else Ok (Some (JDict (dict_set items (lit "version") (JStr new_version))))
  | _ => Err AttributeError
  end.

(** [write_package_lock_version]. [packages] and [packages['']] are the
    objects inside [data], so the assignment to the nested version shows
    in [data]; the updates are written back along the path here. *)
Definition write_package_lock_version (data : json) (new_version : str)
  : result (option json) :=
  match data with
  | JDict items =>
      let changed1 :=
        negb (json_is_str (dict_get items (lit "version")) new_version) in
      let items1 :=
        if changed1 then dict_set items (lit "version") (JStr new_version)
        else items in
      match dict_get items1 (lit "packages") with
      | Some (JDict packages) =>
          match dict_get packages [] with
          | Some (JDict root) =>
              let changed2 :=
                negb (json_is_str (dict_get root (lit "version")) new_version) in
              let root' :=
                if changed2
                then dict_set root (lit "version") (JStr new_version)
                else root in
              if changed1 || changed2 then
                Ok (Some (JDict (dict_set items1 (lit "packages")
                           (JDict (dict_set packages [] (JDict root'))))))
              else Ok None
          | _ => Err CannotFindPackagesObject
          end
      | _ => Err CannotFindPackagesObject
      end
  | _ => Err AttributeError
  end.

(** ** The registry and the top-level operations *)

Definition TOML_PACKAGE_VERSION_FILES : list str :=
  [ lit "server/Cargo.toml";
    lit "desktop/src-tauri/Cargo.toml";
    lit "desktop/src-tauri-cef/Cargo.toml" ].

Definition JSON_VERSION_FILES : list str :=
  [ lit "web/package.json";
    lit "desktop/src-tauri/tauri.conf.json";
    lit "desktop/src-tauri/tauri.conf.full.json";
    lit "desktop/src-tauri-cef/tauri.conf.json";
    lit "desktop/src-tauri-cef/tauri.conf.full.json" ].

Definition PACKAGE_LOCK_FILE : str := lit "web/package-lock.json".

Definition LOCK_PACKAGE_VERSION_FILES : list (str * str) :=
  [ (lit "Cargo.lock", lit "opencode-studio");
    (lit "desktop/src-tauri/Cargo.lock", lit "opencode-studio-desktop");
    (lit "desktop/src-tauri-cef/Cargo.lock", lit "opencode-studio-desktop") ].

(** The files under the repository root: the contents of a text file,
    and the document of a JSON file, by relative path. *)
Record repository : Type := {
  text_file : str -> str;
  json_file : str -> json
}.

(** A [for] loop that reads one version per registry entry into
    [versions]. *)
Fixpoint read_each {P : Type} (read : P -> result str) (key : P -> str)
    (entries : list P) (versions : list (str * str))
  : result (list (str * str)) :=
  match entries with
  | [] => Ok versions
  | e :: entries' =>
      let* version := read e in
      read_each read key entries' (dict_set versions (key e) version)
  end.

(** The last loop of [collect_versions]. *)
Fixpoint validate_each (items : list (str * str)) : result unit :=
  match items with
  | [] => Ok tt
  | (file_path, version) :: items' =>
      if negb (is_semver version) then Err (InvalidSemver file_path version)
      else validate_each items'
  end.

Section TopLevel.
Variable repr_container : json -> str.
Variable repo : repository.

(** The four reading loops of [collect_versions]. *)
Definition read_versions : result (list (str * str)) :=
  let* versions := read_each
    (fun p => read_toml_package_version (text_file repo p)) id
    TOML_PACKAGE_VERSION_FILES [] in
  let* versions := read_each
    (fun p => read_json_version repr_container (json_file repo p)) id
    JSON_VERSION_FILES versions in
  let* package_lock_version := read_package_lock_version repr_container
      (json_file repo PACKAGE_LOCK_FILE) in
  let versions := dict_set versions PACKAGE_LOCK_FILE package_lock_version in
  read_each
    (fun e => read_lock_package_version (text_file repo (fst e)) (snd e)) fst
    LOCK_PACKAGE_VERSION_FILES versions.

(** [collect_versions] *)
Definition collect_versions : result (list (str * str)) :=
  let* versions := read_versions in
  let* _ := validate_each versions in
  Ok versions.
End TopLevel.

(** Python's order on strings: by code point, a proper prefix first. *)
Fixpoint str_ltb (a b : str) : bool :=
  match a, b with
  | _, [] => false
  | [], _ :: _ => true
  | x :: a', y :: b' => (x <? y) || ((x =? y) && str_ltb a' b')
  end.

Fixpoint insert_sorted (x : str) (l : list str) : list str :=
  match l with
  | [] => [x]
  | y :: l' => if str_ltb y x then y :: insert_sorted x l' else x :: y :: l'
  end.

(** [sorted(l)] *)
Definition sorted (l : list str) : list str :=
  fold_right insert_sorted [] l.

(** [grouped.setdefault(version, []).append(file_path)] *)
Fixpoint setdefault_append (grouped : list (str * list str))
    (version file_path : str) : list (str * list str) :=
  match grouped with
  | [] => [(version, [file_path])]
  | (v, files) :: grouped' =>
      if str_eqb v version then (v, files ++ [file_path]) :: grouped'
      else (v, files) :: setdefault_append grouped' version file_path
  end.

Definition group_versions (versions : list (str * str))
  : list (str * list str) :=
  fold_left (fun grouped item => setdefault_append grouped (snd item) (fst item))
    versions [].

Definition report_lines (grouped : list (str * list str)) : list str :=
  lit "Version mismatch detected across files:" ::
  flat_map
    (fun version =>
       (lit "  " ++ version ++ lit ":") ::
       map (fun file_path => lit "    - " ++ file_path)
         (sorted (default [] (dict_get grouped version))))
    (sorted (map fst grouped)).

(** [ensure_consistent] *)
Definition ensure_consistent (versions : list (str * str)) : result str :=
  let grouped := group_versions versions in
  match grouped with
  | [(version, _)] => Ok version
  | _ => Err (VersionMismatch (join [LF] (report_lines grouped)))
  end.

(** The tag check of [run_check], for the version the files agree on. *)
Definition check_tag (version : str) (expected_tag : option str)
  : result str :=
  match expected_tag with
  | None => Ok version
  | Some expected_tag =>
      let tag := strip expected_tag in
      if negb (is_tag tag) then Err (InvalidTag tag)
      else
        let expected := lit "v" ++ version in
        if negb (str_eqb tag expected)
        then Err (TagVersionMismatch tag version expected)
        else Ok version
  end.

(** [run_check] *)
Definition run_check (repr_container : json -> str) (repo : repository)
    (expected_tag : option str) : result str :=
  let* versions := collect_versions repr_container repo in
  let* version := ensure_consistent versions in
  check_tag version expected_tag.

(** ** [run_set]

    The writers change files, and [run_set] runs them one after the
    other: the files are a store that every step reads and may change,
    and a failure stops the run with the store as it is by then. A JSON
    file holds the document that [json.loads] returns for it; after a
    write of [json.dumps(data)] it holds [data]. *)

Definition set_text (repo : repository) (path content : str) : repository :=
  {| text_file := fun p => if str_eqb p path then content else text_file repo p;
     json_file := json_file repo |}.

Definition set_json (repo : repository) (path : str) (data : json)
  : repository :=
  {| text_file := text_file repo;
     json_file := fun p => if str_eqb p path then data else json_file repo p |}.

Definition action (A : Type) : Type := repository -> repository * result A.

Definition ret {A : Type} (a : A) : action A := fun repo => (repo, Ok a).

Definition lift {A : Type} (r : result A) : action A := fun repo => (repo, r).

Definition bind_action {A B : Type} (m : action A) (f : A -> action B)
  : action B :=
  fun repo =>
    match m repo with
    | (repo', Ok a) => f a repo'
    | (repo', Err e) => (repo', Err e)
    end.

Notation "'let+' x := e 'in' k" := (bind_action e (fun x => k))
  (at level 10, x name, e at level 200, k at level 200, only parsing).

(** A writer of a text file, on the file at [path]: [write] is the
    writer on the contents, which tells whether it wrote and what the
    file holds afterwards. *)
Definition update_text (path : str) (write : str -> result (bool * str))
  : action bool :=
  fun repo =>
    match write (text_file repo path) with
    | Ok (changed, raw') =>
        (if changed then set_text repo path raw' else repo, Ok changed)
    | Err e => (repo, Err e)
    end.

(** A writer of a JSON file, on the file at [path]. *)
Definition update_json (path : str) (write : json -> result (option json))
  : action bool :=
  fun repo =>
    match write (json_file repo path) with
    | Ok (Some data') => (set_json repo path data', Ok true)
    | Ok None => (repo, Ok false)
    | Err e => (repo, Err e)
    end.

(** A [for] loop of [run_set]: one write per registry entry, the path of
    the entry appended to [changed_files] when the writer returns
    [True]. *)
Fixpoint write_each {P : Type} (write : P -> action bool) (key : P -> str)
    (entries : list P) (changed_files : list str) : action (list str) :=
  match entries with
  | [] => ret changed_files
  | e :: entries' =>
      let+ changed := write e in
      write_each write key entries'
        (if changed then changed_files ++ [key e] else changed_files)
  end.

Section RunSet.
Variable pf : platform.
Variable repr_container : json -> str.

(** The writes of [run_set], in its order. *)
Definition write_all (new_version : str) : action (list str) :=
  let+ changed_files := write_each
    (fun p => update_text p
                (fun raw => write_toml_package_version pf raw new_version))
    id TOML_PACKAGE_VERSION_FILES [] in
  let+ changed_files := write_each
    (fun p => update_json p (fun data => write_json_version data new_version))
    id JSON_VERSION_FILES changed_files in
  let+ changed := update_json PACKAGE_LOCK_FILE
    (fun data => write_package_lock_version data new_version) in
  let changed_files :=
    if changed then changed_files ++ [PACKAGE_LOCK_FILE] else changed_files in
  write_each
    (fun e => update_text (fst e)
                (fun raw => write_lock_package_version pf raw (snd e)
                              new_version))
    fst LOCK_PACKAGE_VERSION_FILES changed_files.

(** [run_set] *)
Definition run_set (version_input : str) (expected_tag : option str)
  : action (str * list str) :=
  let+ new_version := lift (normalize_version version_input) in
  let+ changed_files := write_all new_version in
  let+ verified := (fun repo =>
                      (repo, run_check repr_container repo expected_tag)) in
  ret (verified, changed_files).
End RunSet.

(** * assert_native_target.py *)

Definition ARCH_MAP : list (str * str) :=
  [ (lit "x86_64", lit "x86_64");
    (lit "amd64", lit "x86_64");
    (lit "aarch64", lit "aarch64");
    (lit "arm64", lit "aarch64");
    (lit "armv7l", lit "armv7");
    (lit "armv7", lit "armv7") ].

Definition OS_MAP : list (str * str) :=
  [ (lit "linux", lit "linux");
    (lit "darwin", lit "darwin");
    (lit "windows", lit "windows") ].

(** [table.get(key, key)] *)
Definition map_through (table : list (str * str)) (key : str) : str :=
  default key (dict_get table key).

(** [target_os] *)
Definition target_os (target : str) : str :=
  if contains (lit "windows") target then lit "windows"
  else if contains (lit "apple-darwin") target then lit "darwin"
  else if contains (lit "linux") target then lit "linux"
  else lit "unknown".

(** [s.split(sep)] for a separator of one character. *)
Fixpoint split_char (sep : char) (s : str) : list str :=
  match s with
  | [] => [[]]
  | c :: s' =>
      if c =? sep then [] :: split_char sep s'
      else
        match split_char sep s' with
        | seg :: segs => (c :: seg) :: segs
        | [] => [[c]]
        end
  end.

(** [target.split("-")[0]] *)
Definition first_segment (target : str) : str :=
  default [] (head (split_char DASH target)).

(** [target_arch] *)
Definition target_arch (target : str) : str :=
  map_through ARCH_MAP (first_segment target).

Section Host.
(** [str.lower], and what [platform.system()] and [platform.machine()]
    report on the host. *)
Variable lower : str -> str.
Variable system machine : str.

Definition host_os : str := map_through OS_MAP (lower system).
Definition host_arch : str := map_through ARCH_MAP (lower machine).

Definition validation_errors (target : str) : list str :=
  let t_os := target_os target in
  let t_arch := target_arch target in
  let h_os := host_os in
  let h_arch := host_arch in
  (if str_eqb t_os (lit "unknown")
   then [lit "unsupported target OS in triple: " ++ target] else [])
  ++ (if negb (str_eqb t_os h_os)
      then [lit "target OS " ++ t_os ++ lit " does not match runner OS "
            ++ h_os] else [])
  ++ (if negb (str_eqb t_arch h_arch)
      then [lit "target arch " ++ t_arch
            ++ lit " does not match runner arch " ++ h_arch] else []).

(** What [main] does: the exit code, and the lines printed to standard
    output and to standard error. *)
Record outcome : Type := {
  exit_code : Z;
  stdout : list str;
  stderr : list str
}.

Definition main (target : str) : outcome :=
  match validation_errors target with
  | [] =>
      {| exit_code := 0;
         stdout := [lit "OK: native target validation passed (" ++ target
                    ++ lit " on " ++ host_os ++ lit "/" ++ host_arch
                    ++ lit ")"];
         stderr := [] |}
  | errors =>
      {| exit_code := 1;
         stdout := [];
         stderr := map (fun err => lit "ERROR: " ++ err) errors |}
  end.
End Host.


(** * version_sync.py: the entry point

    [args] is what [build_parser().parse_args()] returns: the
    sub-command and its arguments. [str(err)] of a [VersionSyncError] is
    its message; an [AttributeError] is no [VersionSyncError], is not
    caught, and leaves [main]. *)

Record arguments : Type := {
  arg_command : str;
  arg_version : str;
  arg_tag : option str
}.

Definition is_version_sync_error (e : error) : bool :=
  match e with
  | AttributeError => false
  | _ => true
  end.

Section Main.
Variable pf : platform.
Variable repr_container : json -> str.
(** [str(err)], and what [parser.print_help()] prints. *)
Variable message : error -> str.
Variable help : list str.

(** [if args.tag: print(...)] *)
Definition tag_line (args : arguments) : list str :=
  match arg_tag args with
  | Some (c :: t) => [lit "Tag check OK: " ++ c :: t]
  | _ => []
  end.

(** The [except] clause. *)
Definition failed (e : error) : result outcome :=
  if is_version_sync_error e then
    Ok {| exit_code := 1;
          stdout := [];
          stderr := [lit "Version sync failed: " ++ message e] |}
  else Err e.

(** [main] of [version_sync.py] *)
Definition version_sync_main (args : arguments) : action outcome :=
  fun repo =>
    if str_eqb (arg_command args) (lit "check") then
      match run_check repr_container repo (arg_tag args) with
      | Ok version =>
          (repo,
           Ok {| exit_code := 0;
                 stdout := (lit "Version check OK: " ++ version)
                           :: tag_line args;
                 stderr := [] |})
      | Err e => (repo, failed e)
      end
    else if str_eqb (arg_command args) (lit "set") then
      match run_set pf repr_container (arg_version args) (arg_tag args) repo
      with
      | (repo', Ok (version, changed_files)) =>
          (repo',
           Ok {| exit_code := 0;
                 stdout := (lit "Version updated to: " ++ version)
                           :: match changed_files with
                              | [] => [lit "No files changed."]
                              | _ =>
                                  lit "Updated files:"
                                  :: map (fun file_path =>
                                            lit "  - " ++ file_path)
                                       changed_files
                              end
                           ++ tag_line args;
                 stderr := [] |})
      | (repo', Err e) => (repo', failed e)
      end
    else (repo, Ok {| exit_code := 2; stdout := help; stderr := [] |}).
End Main.

(** * Reading the patterns directly

    What the patterns of the script accept, written as plain functions
    on the text; the matcher is shown to agree with them below. *)

(** What follows [key\s*=\s*Q] at the start of [s]. *)
Definition after_key (key s : str) : option str :=
  match strip_prefix key s with
  | None => None
  | Some s1 =>
      match strip_prefix (lit "=") (lstrip s1) with
      | None => None
      | Some s2 => strip_prefix [DQUOTE] (lstrip s2)
      end
  end.

(** [[^Q]+Q] at the start of [s]: the value, and what follows the
    closing quote. *)
Definition quoted_value (s : str) : option (str * str) :=
  match s with
  | c :: s' =>
      if notquote c then
        match strip_prefix [DQUOTE] (drop_while notquote s') with
        | Some rest => Some (c :: take_while notquote s', rest)
        | None => None
        end
      else None
  | [] => None
  end.

(** Where [$] holds. *)
Definition at_eol (s : str) : bool :=
  match s with
  | [] => true
  | [c] => c =? LF
  | _ => false
  end.

Definition toml_version_value (line : str) : option str :=
  match after_key (lit "version") (lstrip line) with
  | Some s =>
      match quoted_value s with
      | Some (v, _) => Some v
      | None => None
      end
  | None => None
  end.

Definition lock_value (key stripped : str) : option str :=
  match after_key key stripped with
  | Some s =>
      match quoted_value s with
      | Some (v, rest) => if at_eol rest then Some v else None
      | None => None
      end
  | None => None
  end.

(** The three groups of the rewrite pattern. *)
Definition version_line_parts (body : str) : option (str * str * str) :=
  match after_key (lit "version") (lstrip body) with
  | Some s =>
      match quoted_value s with
      | Some (v, rest) =>
          if at_eol (drop_while anychar rest)
          then Some (take (length body - length s) body, v,
                     DQUOTE :: take_while anychar rest)
          else None
      | None => None
      end
  | None => None
  end.

(** A continuation that fails on every text starting in the class [p]:
    after it, a greedy [p*] has one way to match. *)
Definition rejects {R : Type} (p : char -> bool) (k : @kont R) : Prop :=
  forall c s caps, p c = true -> k (c :: s) caps = None.

(** * Lines

    A line of [splitlines(keepends=True)] is its content, which holds no
    line boundary, followed by its terminator. *)

Definition nonbreak (c : char) : bool := negb (is_linebreak c).

Definition line_content (line : str) : str := take_while nonbreak line.

Definition line_terminator (line : str) : str := drop_while nonbreak line.

Definition is_terminator (t : str) : bool :=
  match t with
  | [] => true
  | [c] => is_linebreak c
  | [c; c'] => (c =? CR) && (c' =? LF)
  | _ => false
  end.

Definition line_ok (line : str) : Prop :=
  line <> [] /\ is_terminator (line_terminator line) = true.

(** The lists of lines that [splitlines] produces: only the last line may
    lack a terminator, and a line ending in a lone carriage return is not
    followed by a line starting with a line feed. *)
Inductive wf_lines : list str -> Prop :=
| wf_lines_nil : wf_lines []
| wf_lines_last l : line_ok l -> wf_lines [l]
| wf_lines_cons l l' ls :
    line_ok l -> line_terminator l <> [] ->
    ~ (line_terminator l = [CR] /\ head l' = Some LF) ->
    wf_lines (l' :: ls) -> wf_lines (l :: l' :: ls).

Abbreviation all_space := (Forall (fun c => isspace c = true)).
Abbreviation no_space := (Forall (fun c => isspace c = false)).
Abbreviation no_quote := (Forall (fun c => notquote c = true)).
Abbreviation no_newline := (Forall (fun c => anychar c = true)).

(** A text [K] that reads as [key\s*=\s*Q] whatever follows it. *)
Definition key_prefix (key K : str) : Prop :=
  (forall x, after_key key (K ++ x) = Some x)
  /\ exists m, K = key ++ m ++ [DQUOTE].

(** The part of a terminator that [split_line_ending] leaves in the line
    body, and the part it splits off. *)
Definition term_split (term : str) : str * str :=
  if str_eqb term [CR; LF] || str_eqb term [LF] || str_eqb term [CR]
  then ([], term) else (term, []).

(** The anatomy of a line that holds a version: leading whitespace, the
    key up to the opening quote, the value, the closing quote and the
    rest of the content, then the terminator, of which [e] is the part
    [split_line_ending] splits off. *)
Definition version_line (l lead K v rest t e : str) : Prop :=
  l = lead ++ K ++ v ++ DQUOTE :: rest ++ t ++ e
  /\ all_space lead
  /\ key_prefix (lit "version") K
  /\ v <> [] /\ no_quote v
  /\ Forall (fun c => is_linebreak c = false) (lead ++ K ++ v ++ DQUOTE :: rest)
  /\ is_terminator (t ++ e) = true
  /\ all_space t /\ no_newline t /\ all_space e
  /\ term_split (t ++ e) = (t, e).

(** * The named-block format, as specified

    The file is a sequence of blocks, each beginning with a marker line,
    a line that is [[[package]]] once the white space around it is
    removed, and continuing until the next marker or the end of the
    file. *)

Definition marker_line (line : str) : bool :=
  str_eqb (strip line) (lit "[[package]]").

Definition not_marker (line : str) : bool := negb (marker_line line).

(** The lines up to the next marker, and the lines from that marker on. *)
Definition block_body (lines : list str) : list str :=
  take_while not_marker lines.

Definition after_block (lines : list str) : list str :=
  drop_while not_marker lines.

(** The blocks of the lines, the first of which has index [idx]: for each
    marker line, the index of the line after it and the lines of the
    block. *)
Fixpoint blocks (lines : list str) (idx : nat) : list (nat * list str) :=
  match lines with
  | [] => []
  | line :: lines' =>
      if marker_line line
      then (S idx, block_body lines') :: blocks lines' (S idx)
      else blocks lines' (S idx)
  end.

(** The fields of a line, exact and trimmed. *)
Definition line_name (line : str) : option str :=
  lock_value (lit "name") (strip line).

Definition line_version (line : str) : option str :=
  lock_value (lit "version") (strip line).

Definition line_is_source (line : str) : bool :=
  startswith (strip line) (lit "source = ").

(** The last line of [body] that has the field, if any, after [found]. *)
Definition scan_last {A : Type} (f : str -> option A) (body : list str)
    (found : option A) : option A :=
  fold_left
    (fun found line => match f line with Some x => Some x | None => found end)
    body found.

Definition scan_any (f : str -> bool) (body : list str) (found : bool) : bool :=
  fold_left (fun found line => if f line then true else found) body found.

(** The index of the last version line of [body], whose first line has
    index [idx]. *)
Fixpoint scan_index (body : list str) (idx : nat) (found : option nat)
  : option nat :=
  match body with
  | [] => found
  | line :: body' =>
      scan_index body' (S idx)
        (match line_version line with Some _ => Some idx | None => found end)
  end.

Definition block_name (body : list str) : option str :=
  scan_last line_name body None.

Definition block_version (body : list str) : option str :=
  scan_last line_version body None.

Definition block_has_source (body : list str) : bool :=
  scan_any line_is_source body false.

Definition block_version_idx (b : nat * list str) : option nat :=
  scan_index (snd b) (fst b) None.

(** A block is the match when its name is the requested one and it has
    no source line; the first such block is selected. *)
Definition selectable (package_name : str) (b : nat * list str) : bool :=
  match block_name (snd b) with
  | Some name => str_eqb name package_name
  | None => false
  end
  && negb (block_has_source (snd b)).

Definition select_block (package_name : str) (lines : list str)
  : option (nat * list str) :=
  List.find (selectable package_name) (blocks lines 0).

(** What the reader and the writer return for the selected block. *)
Definition read_selected (package_name : str) (b : option (nat * list str))
  : result str :=
  match b with
  | None => Err (CannotFindLockfilePackage package_name)
  | Some b =>
      match block_version (snd b) with
      | None => Err (MissingLockfileVersion package_name)
      | Some v => Ok v
      end
  end.

Definition write_selected (lines : list str) (package_name new_version : str)
    (b : option (nat * list str)) : result (option str) :=
  match b with
  | None => Err (CannotUpdateLockfilePackage package_name)
  | Some b =>
      match block_version_idx b with
      | None => Err (MissingLockfileVersion package_name)
      | Some i => rewrite_lock_line lines i new_version
      end
  end.

(** * Key-value manifests, as specified

    The first line of the form [version = Q...Q] inside the section
    named [package]: its index and its value. [lines] are the lines with
    their terminators, the first of which has index [idx]. *)
Fixpoint toml_find (lines : list str) (idx : nat) (in_package : bool)
  : option (nat * str) :=
  match lines with
  | [] => None
  | line :: lines' =>
      let stripped := strip line in
      if is_section_header stripped then
        toml_find lines' (S idx) (str_eqb stripped (lit "[package]"))
      else if negb in_package then toml_find lines' (S idx) in_package
      else
        match toml_version_value (line_content line) with
        | Some v => Some (idx, v)
        | None => toml_find lines' (S idx) in_package
        end
  end.

(** The characters a pattern can consume. *)
Fixpoint alphabet (r : regex) (c : char) : bool :=
  match r with
  | Bol | Eol => false
  | Lit l => existsb (N.eqb c) l
  | Cls p | Star p => p c
  | Seq r1 r2 | Alt r1 r2 => alphabet r1 c || alphabet r2 c
  | Opt r' | Grp _ r' => alphabet r' c
  end.

(** The characters of a semantic version. *)
Definition semver_char (c : char) : bool := idchar c || (c =? 43).

Abbreviation no_cr := (Forall (fun c : char => c <> CR)).

(** * Sample files *)

Definition quoted (s : string) : str := [DQUOTE] ++ lit s ++ [DQUOTE].

(** A manifest with the given version and line terminator. *)
Definition manifest (version : string) (terminator : str) : str :=
  concat (map (fun l => l ++ terminator)
    [ lit "[package]";
      lit "name = " ++ quoted "opencode-studio";
      lit "version = " ++ quoted version;
      [];
      lit "[dependencies]" ]).

Definition sample_manifest : str := manifest "0.1.0" [LF].

(** A lock file in which a registry package has the name of the
    project's own package. *)
Definition sample_lock : str :=
  concat (map (fun l => l ++ [LF])
    [ lit "version = 3";
      [];
      lit "[[package]]";
      lit "name = " ++ quoted "opencode-studio";
      lit "version = " ++ quoted "9.9.9";
      lit "source = " ++ quoted "registry+https://example.invalid/index";
      [];
      lit "[[package]]";
      lit "name = " ++ quoted "opencode-studio";
      lit "version = " ++ quoted "0.1.0";
      [];
      lit "[[package]]";
      lit "name = " ++ quoted "opencode-studio-desktop";
      lit "version = " ++ quoted "0.1.0" ]).

Definition sample_document : json :=
  JDict [ (lit "name", JStr (lit "web")); (lit "version", JStr (lit "0.1.0")) ].

Definition sample_package_lock : json :=
  JDict [ (lit "name", JStr (lit "web"));
          (lit "version", JStr (lit "0.1.0"));
          (lit "lockfileVersion", JInt 3);
          (lit "packages",
           JDict [ ([], JDict [ (lit "name", JStr (lit "web"));
                                (lit "version", JStr (lit "0.1.0")) ]) ]) ].

(** A document whose version is padded with blanks, and a package-lock
    document whose two versions differ. *)
Definition padded_document : json :=
  JDict [ (lit "version", JStr (lit " 0.1.0 ")) ].

Definition mismatched_package_lock : json :=
  JDict [ (lit "version", JStr (lit "1.0.0"));
          (lit "packages",
           JDict [ ([], JDict [ (lit "version", JStr (lit "1.0.1")) ]) ]) ].

(** A lock file whose first block has an indented source line. *)
Definition indented_source_lock : str :=
  concat (map (fun l => l ++ [LF])
    [ lit "[[package]]";
      lit "name = " ++ quoted "opencode-studio";
      lit "version = " ++ quoted "9.9.9";
      lit "  source = " ++ quoted "registry+https://example.invalid/index";
      [];
      lit "[[package]]";
      lit "name = " ++ quoted "opencode-studio";
      lit "version = " ++ quoted "0.1.0" ]).

(** A repository in which every registered file has version 0.1.0. *)
Definition sample_repo : repository :=
  {| text_file := fun path =>
       if endswith path (lit ".lock") then sample_lock else sample_manifest;
     json_file := fun path =>
       if str_eqb path PACKAGE_LOCK_FILE then sample_package_lock
       else sample_document |}.

Definition no_repr (value : json) : str := lit "...".

(** * The target validator, as specified *)

(** [sub] occurs in [s]. *)
Definition substring (sub s : str) : Prop :=
  exists before after, s = before ++ sub ++ after.

(** The lookup table of the architectures, by cases. *)
Definition arch_of_segment (seg : str) : str :=
  if str_eqb seg (lit "x86_64") || str_eqb seg (lit "amd64")
  then lit "x86_64"
  else if str_eqb seg (lit "aarch64") || str_eqb seg (lit "arm64")
  then lit "aarch64"
  else if str_eqb seg (lit "armv7l") || str_eqb seg (lit "armv7")
  then lit "armv7"
  else seg.

(** The lookup table of the operating systems, by cases. *)
Definition os_of_name (name : str) : str :=
  if str_eqb name (lit "linux") then lit "linux"
  else if str_eqb name (lit "darwin") then lit "darwin"
  else if str_eqb name (lit "windows") then lit "windows"
  else name.

(** [str.lower] on a string of ASCII characters. *)
Definition ascii_lower (s : str) : str :=
  map (fun c => if (65 <=? c) && (c <=? 90) then c + 32 else c) s.

(** The three error messages of the validator. *)
Definition unsupported_os_error (target : str) : str :=
  lit "unsupported target OS in triple: " ++ target.

Definition os_mismatch_error (t_os h_os : str) : str :=
  lit "target OS " ++ t_os ++ lit " does not match runner OS " ++ h_os.

Definition arch_mismatch_error (t_arch h_arch : str) : str :=
  lit "target arch " ++ t_arch ++ lit " does not match runner arch " ++ h_arch.

(** * Consistency, as specified *)

(** The file identifiers whose version is [version], in the order of the
    mapping. *)
Definition files_of (version : str) (versions : list (str * str)) : list str :=
  map fst (List.filter (fun item => str_eqb (snd item) version) versions).

(** The lines of the report for one version. *)
Definition render_group (version : str) (files : list str) : list str :=
  (lit "  " ++ version ++ lit ":")
  :: map (fun file_path => lit "    - " ++ file_path) files.

Definition str_le (a b : str) : Prop := str_ltb b a = false.

(** The order of strings by code points, spelled out: a string comes
    before another when it is a proper prefix of it, or when, at the
    first position where the two differ, its code point is the
    smaller. *)
Inductive lex_lt : str -> str -> Prop :=
| lex_lt_prefix c b : lex_lt [] (c :: b)
| lex_lt_first x y a b : x < y -> lex_lt (x :: a) (y :: b)
| lex_lt_rest x a b : lex_lt a b -> lex_lt (x :: a) (x :: b).

Definition lex_le (a b : str) : Prop := a = b \/ lex_lt a b.

(** [r] has no [^]. *)
Fixpoint no_bol (r : regex) : bool :=
  match r with
  | Bol => false
  | Eol | Lit _ | Cls _ | Star _ => true
  | Seq r1 r2 | Alt r1 r2 => no_bol r1 && no_bol r2
  | Opt r' | Grp _ r' => no_bol r'
  end.

(** * The package-lock document, as specified

    The two redundant locations of the version. *)
Definition top_version_field (data : json) : result json :=
  py_get data (lit "version") (JStr []).

Definition root_version_field (data : json) : result json :=
  let* packages := py_get data (lit "packages") (JDict []) in
  let* root := py_get packages [] (JDict []) in
  py_get root (lit "version") (JStr []).

(** * The registry, as specified

    Every registered file, in the order [collect_versions] reads them. *)
Definition registered_files : list str :=
  TOML_PACKAGE_VERSION_FILES ++ JSON_VERSION_FILES
  ++ [PACKAGE_LOCK_FILE] ++ map fst LOCK_PACKAGE_VERSION_FILES.

(** A repository in which one manifest has a version that is not a
    semantic version. *)
Definition short_version_repo : repository :=
  {| text_file := fun path =>
       if endswith path (lit ".lock") then sample_lock
       else if str_eqb path (lit "desktop/src-tauri/Cargo.toml")
       then manifest "1.0" [LF]
       else sample_manifest;
     json_file := json_file sample_repo |}.

(** The state of the grouping loop of [ensure_consistent] after the
    entries [done]. *)
Definition grouped_for (grouped : list (str * list str))
    (done : list (str * str)) : Prop :=
  List.NoDup (map fst grouped)
  /\ (forall v, In v (map fst grouped) <-> exists f, In (f, v) done)
  /\ (forall v, In v (map fst grouped) ->
        dict_get grouped v = Some (files_of v done)).

(** [g] changes no line up to [strip]. *)
Definition same_strip (g : str -> str) : list str -> Prop :=
  Forall (fun l => strip (g l) = strip l).

(** * Patterns, as languages

    [lang n0 r s1 s2]: the pattern [r] can consume [s1] when [s2] is
    what follows it, in a subject of length [n0]. *)
Fixpoint lang (n0 : nat) (r : regex) (s1 s2 : str) : Prop :=
  match r with
  | Bol => s1 = [] /\ length s2 = n0
  | Eol => s1 = [] /\ (s2 = [] \/ s2 = [LF])
  | Lit l => s1 = l
  | Cls p => exists c, s1 = [c] /\ p c = true
  | Star p => Forall (fun c => p c = true) s1
  | Seq r1 r2 =>
      exists a b, s1 = a ++ b /\ lang n0 r1 a (b ++ s2) /\ lang n0 r2 b s2
  | Alt r1 r2 => lang n0 r1 s1 s2 \/ lang n0 r2 s1 s2
  | Opt r' => s1 = [] \/ lang n0 r' s1 s2
  | Grp _ r' => lang n0 r' s1 s2
  end.

(** The grammar of a version: three numbers without leading zeros
    between dots, then an optional part after a dash and an optional
    part after a plus sign, each a non-empty run of letters, digits,
    dots and dashes. *)
Definition numeric_identifier (s : str) : Prop :=
  s = lit "0"
  \/ exists c ds,
       s = c :: ds /\ digit19 c = true /\ Forall (fun d => digit d = true) ds.

Definition identifiers (s : str) : Prop :=
  s <> [] /\ Forall (fun c => idchar c = true) s.

Definition optional_part (sep s : str) : Prop :=
  s = [] \/ exists ids, s = sep ++ ids /\ identifiers ids.

Definition semver_shape (v : str) : Prop :=
  exists major minor patch pre build,
    v = major ++ lit "." ++ minor ++ lit "." ++ patch ++ pre ++ build
    /\ numeric_identifier major /\ numeric_identifier minor
    /\ numeric_identifier patch
    /\ optional_part (lit "-") pre /\ optional_part (lit "+") build.

(** * What an assignment to a key leaves, as specified *)

(** The two dicts have the same value under every key outside [keys]. *)
Definition same_except {A : Type} (keys : list str)
    (d d' : list (str * A)) : Prop :=
  forall k, ~ In k keys -> dict_get d' k = dict_get d k.

(** The keys of [d] after [d[key] = ...], in order. *)
Definition keys_with {A : Type} (d : list (str * A)) (key : str) : list str :=
  match dict_get d key with
  | Some _ => map fst d
  | None => map fst d ++ [key]
  end.

(** * Runs of the writers, as specified *)

(** A writer that has nothing to do on [repo]: it reports no change and
    leaves the files. *)
Definition quiet (w : action bool) (repo : repository) : Prop :=
  w repo = (repo, Ok false).

(** After [w] has succeeded, [w] has nothing to do. *)
Definition settles (w : action bool) : Prop :=
  forall repo repo' c, w repo = (repo', Ok c) -> quiet w repo'.

(** A success of [w] leaves [w'] with nothing to do if it had nothing
    to do before. *)
Definition keeps (w w' : action bool) : Prop :=
  forall repo repo' c, w repo = (repo', Ok c) -> quiet w' repo -> quiet w' repo'.

(** The file at [path] is the same in both stores. *)
Definition same_file (repo repo' : repository) (path : str) : Prop :=
  text_file repo' path = text_file repo path
  /\ json_file repo' path = json_file repo path.

(** [w] changes no file but the one at [path], and that one only when
    it returns [True]. *)
Definition touches_only (w : action bool) (path : str) : Prop :=
  forall repo repo' r,
    w repo = (repo', r) ->
    (forall q, q <> path -> same_file repo repo' q)
    /\ (r <> Ok true -> repo' = repo).

(** Whether [w] has nothing to do depends on the file at [path] only. *)
Definition depends_only (w : action bool) (path : str) : Prop :=
  forall repo repo',
    same_file repo repo' path -> quiet w repo -> quiet w repo'.

(** The twelve writers of [run_set] for a version, each with the path
    of its file, in the order of [run_set]. *)
Definition registry_writers (pf : platform) (new_version : str)
  : list (str * action bool) :=
  map (fun p =>
         (p, update_text p
               (fun raw => write_toml_package_version pf raw new_version)))
    TOML_PACKAGE_VERSION_FILES
  ++ map (fun p =>
            (p, update_json p
                  (fun data => write_json_version data new_version)))
       JSON_VERSION_FILES
  ++ [(PACKAGE_LOCK_FILE,
       update_json PACKAGE_LOCK_FILE
         (fun data => write_package_lock_version data new_version))]
  ++ map (fun e =>
            (fst e,
             update_text (fst e)
               (fun raw => write_lock_package_version pf raw (snd e)
                             new_version)))
       LOCK_PACKAGE_VERSION_FILES.

(** No string occurs twice in [l]. *)
Fixpoint distinct (l : list str) : bool :=
  match l with
  | [] => true
  | x :: l' => negb (existsb (str_eqb x) l') && distinct l'
  end.

(** The errors of the four readers. *)
Definition is_read_error (e : error) : Prop :=
  match e with
  | CannotFindPackageVersion | CannotFindJsonVersion
  | CannotFindTopLevelVersion | CannotFindRootPackageVersion
  | PackageLockMismatch _ _ | CannotFindLockfilePackage _
  | MissingLockfileVersion _ | AttributeError => True
  | _ => False
  end.

(** * The package section of a manifest, as specified *)

(** Line [j] is in a package section that line [i] opens: line [i] is
    [[package]], and from there to line [j] there is no section
    header. *)
Definition in_package_section (lines : list str) (i j : nat) : Prop :=
  (i < j)%nat
  /\ (exists header,
        lines !! i = Some header /\ strip header = lit "[package]")
  /\ forall k l,
       (i < k <= j)%nat -> lines !! k = Some l ->
       is_section_header (strip l) = false.

(** The same for a scan that starts at the first of [lines] with
    [in_package] as it is. *)
Definition reaches (lines : list str) (in_package : bool) (j : nat) : Prop :=
  (in_package = true
   /\ forall k l,
        (k <= j)%nat -> lines !! k = Some l ->
        is_section_header (strip l) = false)
  \/ exists i, in_package_section lines i j.

(** [v] is the value of the first line in a package section that has
    the form of a version line. *)
Definition first_version (lines : list str) (in_package : bool) (v : str)
  : Prop :=
  exists j line m,
    reaches lines in_package j
    /\ lines !! j = Some line
    /\ re_match TOML_VERSION_RE line = Some m /\ group_text m 1 = v
    /\ forall k l,
         (k < j)%nat -> reaches lines in_package k -> lines !! k = Some l ->
         re_match TOML_VERSION_RE l = None.

(** * Properties *)

(** ** Characters and strings *)

Lemma str_eqb_eq (a b : str) : str_eqb a b = true <-> a = b.
Proof.
  revert b. induction a as [|x a IH]; intros [|y b]; simpl; try easy.
  rewrite andb_true_iff, N.eqb_eq, IH. split.
  - intros [-> ->]. reflexivity.
  - intros [= -> ->]. auto.
Qed.

Lemma str_eqb_refl (a : str) : str_eqb a a = true.
Proof. apply str_eqb_eq. reflexivity. Qed.

Lemma str_eqb_neq (a b : str) : str_eqb a b = false <-> a <> b.
Proof.
  rewrite <- str_eqb_eq. destruct (str_eqb a b); split; congruence.
Qed.

(** Boolean tests on code points, decided by linear arithmetic. *)
Ltac char_arith :=
  unfold idchar in *;
  unfold isspace, is_linebreak, digit, digit19, notquote, anychar,
    LF, CR, DQUOTE, DASH in *;
  repeat match goal with
    | H : _ = true |- _ =>
        rewrite ?orb_true_iff, ?andb_true_iff, ?negb_true_iff,
          ?N.leb_le, ?N.eqb_eq, ?N.eqb_neq in H
    | H : _ = false |- _ =>
        rewrite ?orb_false_iff, ?andb_false_iff, ?negb_false_iff,
          ?N.leb_gt, ?N.eqb_eq, ?N.eqb_neq in H
    end;
  rewrite ?orb_true_iff, ?andb_true_iff, ?negb_true_iff,
    ?orb_false_iff, ?andb_false_iff, ?negb_false_iff,
    ?N.leb_le, ?N.leb_gt, ?N.eqb_eq, ?N.eqb_neq;
  lia.

Lemma linebreak_isspace c : is_linebreak c = true -> isspace c = true.
Proof. intros H. char_arith. Qed.

Lemma take_drop_while {A : Type} (p : A -> bool) s : take_while p s ++ drop_while p s = s.
Proof.
  induction s as [|c s IH]; simpl; [reflexivity|].
  destruct (p c); simpl; congruence.
Qed.

Lemma take_while_all {A : Type} (p : A -> bool) s : Forall (fun c => p c = true) (take_while p s).
Proof.
  induction s as [|c s IH]; simpl; [constructor|].
  destruct (p c) eqn:E; auto.
Qed.

Lemma drop_while_head {A : Type} (p : A -> bool) s c s' : drop_while p s = c :: s' -> p c = false.
Proof.
  induction s as [|x s IH]; simpl; [discriminate|].
  destruct (p x) eqn:E; [assumption|]. intros [= -> ->]. assumption.
Qed.

Lemma drop_while_app {A : Type} (p : A -> bool) a b :
  Forall (fun c => p c = true) a -> drop_while p (a ++ b) = drop_while p b.
Proof.
  induction 1 as [|c a Hc _ IH]; simpl; [reflexivity|]. rewrite Hc. exact IH.
Qed.

Lemma take_while_app {A : Type} (p : A -> bool) a b :
  Forall (fun c => p c = true) a ->
  take_while p (a ++ b) = a ++ take_while p b.
Proof.
  induction 1 as [|c a Hc _ IH]; simpl; [reflexivity|]. rewrite Hc, IH.
  reflexivity.
Qed.

Lemma drop_while_stop {A : Type} (p : A -> bool) c s : p c = false -> drop_while p (c :: s) = c :: s.
Proof. intros H. simpl. rewrite H. reflexivity. Qed.

Lemma take_while_stop {A : Type} (p : A -> bool) c s : p c = false -> take_while p (c :: s) = [].
Proof. intros H. simpl. rewrite H. reflexivity. Qed.

Lemma length_drop_while {A : Type} (p : A -> bool) s : (length (drop_while p s) <= length s)%nat.
Proof.
  induction s as [|c s IH]; simpl; [lia|]. destruct (p c); simpl; lia.
Qed.

Lemma take_consumed {A : Type} (p : A -> bool) s :
  take (length s - length (drop_while p s)) s = take_while p s.
Proof.
  rewrite <- (take_drop_while p s) at 1 3.
  rewrite length_app.
  replace (length (take_while p s) + length (drop_while p s)
           - length (drop_while p s))%nat
    with (length (take_while p s)) by lia.
  apply take_app_length.
Qed.

Lemma strip_prefix_Some p s s' : strip_prefix p s = Some s' <-> s = p ++ s'.
Proof.
  revert s. induction p as [|x p IH]; intros s; simpl.
  - split; [intros [= ->]; reflexivity | intros ->; reflexivity].
  - destruct s as [|y s]; [split; discriminate|].
    destruct (N.eqb_spec x y) as [->|Hne].
    + rewrite IH. split; [intros ->; reflexivity | intros [= ->]; reflexivity].
    + split; [discriminate | intros [= -> _]; congruence].
Qed.

Lemma strip_prefix_app p s : strip_prefix p (p ++ s) = Some s.
Proof. apply strip_prefix_Some. reflexivity. Qed.

Lemma strip_prefix_length p s s' :
  strip_prefix p s = Some s' -> length s = (length p + length s')%nat.
Proof. intros H. apply strip_prefix_Some in H. subst. apply length_app. Qed.

(** ** The matcher *)

Lemma star_det {R : Type} p s caps (k : @kont R) :
  rejects p k -> star p s caps k = k (drop_while p s) caps.
Proof.
  intros Hk. induction s as [|c s IH]; simpl; [reflexivity|].
  destruct (p c) eqn:E; [|reflexivity].
  rewrite IH. destruct (k (drop_while p s) caps) eqn:Ek; [reflexivity|].
  apply Hk. assumption.
Qed.

Lemma rejects_lit {R : Type} n0 p c l (k : @kont R) :
  p c = false ->
  rejects p (fun s caps => run n0 (Lit (c :: l)) s caps k).
Proof.
  intros Hc x s caps Hx. cbn [run strip_prefix].
  destruct (N.eqb_spec c x) as [->|_]; [congruence | reflexivity].
Qed.

Lemma rejects_eol {R : Type} n0 (k : @kont R) :
  rejects anychar (fun s caps => run n0 Eol s caps k).
Proof.
  intros x s caps Hx. cbn [run]. destruct s; [|reflexivity].
  destruct (N.eqb_spec x LF) as [->|_]; [discriminate | reflexivity].
Qed.

Lemma run_ws_lit {R : Type} n0 c l s caps (k : @kont R) :
  isspace c = false ->
  star isspace s caps (fun s' caps' => run n0 (Lit (c :: l)) s' caps' k)
  = run n0 (Lit (c :: l)) (lstrip s) caps k.
Proof.
  intros Hc. rewrite star_det; [reflexivity|]. apply rejects_lit, Hc.
Qed.

Lemma run_Lit {R : Type} n0 l s caps (k : @kont R) :
  run n0 (Lit l) s caps k
  = match strip_prefix l s with Some s' => k s' caps | None => None end.
Proof. reflexivity. Qed.

(** [key\s*=\s*Q], then whatever [k] stands for. *)
Lemma run_after_key {R : Type} n0 key s caps (k : @kont R) :
  run n0 (Lit key) s caps (fun s1 c1 =>
    star isspace s1 c1 (fun s2 c2 =>
      run n0 (Lit (lit "=")) s2 c2 (fun s3 c3 =>
        star isspace s3 c3 (fun s4 c4 =>
          run n0 (Lit [DQUOTE]) s4 c4 k))))
  = match after_key key s with
    | Some s' => k s' caps
    | None => None
    end.
Proof.
  unfold after_key. change (lit "=") with [61]. rewrite run_Lit.
  destruct (strip_prefix key s) as [s1|]; [|reflexivity].
  rewrite (run_ws_lit n0 61 []) by reflexivity. rewrite run_Lit.
  destruct (strip_prefix _ (lstrip s1)) as [s2|]; [|reflexivity].
  rewrite (run_ws_lit n0 DQUOTE []) by reflexivity. rewrite run_Lit.
  reflexivity.
Qed.

(** [([^Q]+)Q] with the value captured as group [n]. *)
Lemma run_quoted_value {R : Type} n0 n s caps (k : @kont R) :
  run n0 (Grp n (Plus notquote)) s caps (fun s1 c1 =>
    run n0 (Lit [DQUOTE]) s1 c1 k)
  = match quoted_value s with
    | Some (v, rest) => k rest ((n, v) :: caps)
    | None => None
    end.
Proof.
  unfold quoted_value, Plus. cbn [run].
  destruct s as [|c s']; [reflexivity|].
  destruct (notquote c); [|reflexivity].
  rewrite star_det.
  2:{ intros x t cp Hx. cbn [run strip_prefix].
      destruct (N.eqb_spec DQUOTE x) as [<-|_]; [discriminate|reflexivity]. }
  destruct (strip_prefix [DQUOTE] (drop_while notquote s')) as [rest|] eqn:E;
    [|reflexivity].
  f_equal. f_equal. f_equal.
  apply strip_prefix_length in E. simpl in E.
  change (length (c :: s')) with (S (length s')).
  replace (S (length s') - length (drop_while notquote s'))%nat
    with (S (length s' - length (drop_while notquote s'))).
  - simpl. f_equal. apply take_consumed.
  - pose proof (length_drop_while notquote s'). lia.
Qed.

Lemma run_Bol {R : Type} r s caps (k : @kont R) :
  run (length s) (Seq Bol r) s caps k = run (length s) r s caps k.
Proof. cbn [run]. rewrite Nat.eqb_refl. reflexivity. Qed.

Lemma run_ws_key {R : Type} n0 c l r s caps (k : @kont R) :
  isspace c = false ->
  run n0 (Seq ws (Seq (Lit (c :: l)) r)) s caps k
  = run n0 (Seq (Lit (c :: l)) r) (lstrip s) caps k.
Proof.
  intros Hc. unfold ws. cbn [run]. rewrite star_det; [reflexivity|].
  intros x t cp Hx. cbn [strip_prefix].
  destruct (N.eqb_spec c x) as [->|_]; [congruence | reflexivity].
Qed.

Lemma run_key_prefix {R : Type} n0 key s caps (k : @kont R) :
  run n0 (Seq (Lit key) (Seq ws (Seq (Lit (lit "="))
            (Seq ws (Lit [DQUOTE]))))) s caps k
  = match after_key key s with
    | Some s' => k s' caps
    | None => None
    end.
Proof. exact (run_after_key n0 key s caps k). Qed.

Lemma run_key_then {R : Type} n0 key tail s caps (k : @kont R) :
  run n0 (Seq (Lit key) (Seq ws (Seq (Lit (lit "="))
            (Seq ws (Seq (Lit [DQUOTE]) tail))))) s caps k
  = match after_key key s with
    | Some s' => run n0 tail s' caps k
    | None => None
    end.
Proof.
  exact (run_after_key n0 key s caps (fun s' c' => run n0 tail s' c' k)).
Qed.

Lemma run_value_then {R : Type} n0 n tail s caps (k : @kont R) :
  run n0 (Seq (Grp n (Plus notquote)) (Seq (Lit [DQUOTE]) tail)) s caps k
  = match quoted_value s with
    | Some (v, rest) => run n0 tail rest ((n, v) :: caps) k
    | None => None
    end.
Proof.
  exact (run_quoted_value n0 n s caps (fun s' c' => run n0 tail s' c' k)).
Qed.

Lemma run_value_end {R : Type} n0 n s caps (k : @kont R) :
  run n0 (Seq (Grp n (Plus notquote)) (Lit [DQUOTE])) s caps k
  = match quoted_value s with
    | Some (v, rest) => k rest ((n, v) :: caps)
    | None => None
    end.
Proof. exact (run_quoted_value n0 n s caps k). Qed.

Lemma run_Eol {R : Type} n0 s caps (k : @kont R) :
  run n0 Eol s caps k = if at_eol s then k s caps else None.
Proof.
  cbn [run]. destruct s as [|c [|c' s]]; try reflexivity.
Qed.

(** The pattern of [read_toml_package_version]. *)
Lemma re_match_toml_version line :
  re_match TOML_VERSION_RE line
  = option_map (fun v => [(1%nat, v)]) (toml_version_value line).
Proof.
  unfold re_match, TOML_VERSION_RE, toml_version_value.
  rewrite run_Bol.
  change (lit "version") with (118 :: lit "ersion").
  rewrite run_ws_key by reflexivity.
  rewrite run_key_then.
  destruct (after_key _ (lstrip line)) as [s|]; [|reflexivity].
  rewrite run_value_end.
  destruct (quoted_value s) as [[v rest]|]; reflexivity.
Qed.

(** The patterns of the lock-file scans. *)
Lemma run_lock_value {R : Type} key n s (k : @kont R) :
  run (length s) (Seq Bol (Seq (Lit key) (Seq ws (Seq (Lit (lit "="))
    (Seq ws (Seq (Lit [DQUOTE]) (Seq (Grp n (Plus notquote))
      (Seq (Lit [DQUOTE]) Eol)))))))) s [] k
  = match after_key key s with
    | Some s' =>
        match quoted_value s' with
        | Some (v, rest) => if at_eol rest then k rest [(n, v)] else None
        | None => None
        end
    | None => None
    end.
Proof.
  rewrite run_Bol, run_key_then.
  destruct (after_key key s) as [s'|]; [|reflexivity].
  rewrite run_value_then.
  destruct (quoted_value s') as [[v rest]|]; [|reflexivity].
  apply run_Eol.
Qed.

Lemma re_match_lock_name s :
  re_match LOCK_NAME_RE s
  = option_map (fun v => [(1%nat, v)]) (lock_value (lit "name") s).
Proof.
  unfold re_match, LOCK_NAME_RE, lock_value. rewrite run_lock_value.
  destruct (after_key _ s) as [s'|]; [|reflexivity].
  destruct (quoted_value s') as [[v rest]|]; [|reflexivity].
  destruct (at_eol rest); reflexivity.
Qed.

Lemma re_match_lock_version s :
  re_match LOCK_VERSION_RE s
  = option_map (fun v => [(1%nat, v)]) (lock_value (lit "version") s).
Proof.
  unfold re_match, LOCK_VERSION_RE, lock_value. rewrite run_lock_value.
  destruct (after_key _ s) as [s'|]; [|reflexivity].
  destruct (quoted_value s') as [[v rest]|]; [|reflexivity].
  destruct (at_eol rest); reflexivity.
Qed.

Lemma run_plus_group {R : Type} n0 n s caps (k : @kont R) :
  rejects notquote k ->
  run n0 (Grp n (Plus notquote)) s caps k
  = match s with
    | c :: s' =>
        if notquote c
        then k (drop_while notquote s') ((n, c :: take_while notquote s') :: caps)
        else None
    | [] => None
    end.
Proof.
  intros Hk. unfold Plus. cbn [run].
  destruct s as [|c s']; [reflexivity|].
  destruct (notquote c); [|reflexivity].
  rewrite star_det.
  2:{ intros x t cp Hx. apply Hk, Hx. }
  f_equal. f_equal. f_equal.
  change (length (c :: s')) with (S (length s')).
  replace (S (length s') - length (drop_while notquote s'))%nat
    with (S (length s' - length (drop_while notquote s'))).
  - simpl. f_equal. apply take_consumed.
  - pose proof (length_drop_while notquote s'). lia.
Qed.

Lemma run_plus_plain {R : Type} n0 s caps (k : @kont R) :
  rejects notquote k ->
  run n0 (Plus notquote) s caps k
  = match s with
    | c :: s' =>
        if notquote c then k (drop_while notquote s') caps else None
    | [] => None
    end.
Proof.
  intros Hk. unfold Plus. cbn [run].
  destruct s as [|c s']; [reflexivity|].
  destruct (notquote c); [|reflexivity].
  apply star_det. intros x t cp Hx. apply Hk, Hx.
Qed.

Lemma rejects_quote_first {R : Type} n0 r (k : @kont R) :
  rejects notquote (fun s caps => run n0 (Seq (Lit [DQUOTE]) r) s caps k).
Proof.
  intros x t cp Hx. cbn [run strip_prefix].
  destruct (N.eqb_spec DQUOTE x) as [<-|_]; [discriminate | reflexivity].
Qed.

Lemma re_match_lock_version_detect s :
  re_match LOCK_VERSION_DETECT_RE s
  = option_map (fun _ => []) (lock_value (lit "version") s).
Proof.
  unfold re_match, LOCK_VERSION_DETECT_RE, lock_value.
  rewrite run_Bol, run_key_then.
  destruct (after_key _ s) as [s'|]; [|reflexivity].
  change (run (length s) (Seq (Plus notquote) (Seq (Lit [DQUOTE]) Eol)) s' []
            (fun _ caps => Some caps))
    with (run (length s) (Plus notquote) s' []
            (fun s1 c1 => run (length s) (Seq (Lit [DQUOTE]) Eol) s1 c1
                            (fun _ caps => Some caps))).
  rewrite run_plus_plain by apply rejects_quote_first.
  unfold quoted_value. destruct s' as [|c s']; [reflexivity|].
  destruct (notquote c); [|reflexivity].
  cbn [run].
  destruct (strip_prefix [DQUOTE] (drop_while notquote s')) as [rest|];
    [|reflexivity].
  change (run (length s) Eol rest [] (fun _ caps => Some caps) =
          option_map (fun _ => []) (if at_eol rest then Some (c :: take_while notquote s') else None)).
  rewrite run_Eol. destruct (at_eol rest); reflexivity.
Qed.

Lemma run_group_tail {R : Type} n0 m d caps (k : @kont R) :
  run n0 (Seq (Grp m (Seq (Lit [DQUOTE]) (Star anychar))) Eol) d caps k
  = match strip_prefix [DQUOTE] d with
    | Some rest =>
        if at_eol (drop_while anychar rest)
        then k (drop_while anychar rest)
               ((m, DQUOTE :: take_while anychar rest) :: caps)
        else None
    | None => None
    end.
Proof.
  cbn [run].
  destruct (strip_prefix [DQUOTE] d) as [rest|] eqn:E; [|reflexivity].
  rewrite star_det.
  2:{ intros x t cp Hx. destruct t; [|reflexivity].
      destruct (N.eqb_spec x LF) as [->|_]; [discriminate | reflexivity]. }
  apply strip_prefix_Some in E. subst d.
  change (match drop_while anychar rest with
          | [] => k (drop_while anychar rest)
                    ((m, take (length ([DQUOTE] ++ rest)
                               - length (drop_while anychar rest))
                           ([DQUOTE] ++ rest)) :: caps)
          | [c] => if c =? LF
                   then k (drop_while anychar rest)
                          ((m, take (length ([DQUOTE] ++ rest)
                                     - length (drop_while anychar rest))
                                 ([DQUOTE] ++ rest)) :: caps)
                   else None
          | _ => None
          end = if at_eol (drop_while anychar rest)
                then k (drop_while anychar rest)
                       ((m, DQUOTE :: take_while anychar rest) :: caps)
                else None).
  assert (Hcap : take (length ([DQUOTE] ++ rest)
                       - length (drop_while anychar rest)) ([DQUOTE] ++ rest)
                 = DQUOTE :: take_while anychar rest).
  { change (length ([DQUOTE] ++ rest)) with (S (length rest)).
    replace (S (length rest) - length (drop_while anychar rest))%nat
      with (S (length rest - length (drop_while anychar rest)))
      by (pose proof (length_drop_while anychar rest); lia).
    simpl. f_equal. apply take_consumed. }
  rewrite Hcap. unfold at_eol.
  destruct (drop_while anychar rest) as [|c [|c' t]]; reflexivity.
Qed.

(** The rewrite pattern of the two writers. *)
Lemma re_match_version_line body :
  re_match VERSION_LINE_RE body
  = option_map (fun parts : str * str * str =>
                  let '(g1, g2, g3) := parts in
                  [(3%nat, g3); (2%nat, g2); (1%nat, g1)])
      (version_line_parts body).
Proof.
  unfold re_match, VERSION_LINE_RE, version_line_parts.
  rewrite run_Bol.
  match goal with
  | |- run ?n (Seq (Grp 1 ?g) ?x) ?s ?c ?k = _ =>
      change (run n (Seq (Grp 1 g) x) s c k)
        with (run n g s c (fun s' caps' =>
                run n x s' ((1%nat, take (length s - length s') s) :: caps') k))
  end.
  change (lit "version") with (118 :: lit "ersion").
  rewrite run_ws_key by reflexivity.
  rewrite run_key_prefix.
  destruct (after_key _ (lstrip body)) as [s|]; [|reflexivity].
  match goal with
  | |- run ?n (Seq (Grp 2 ?g) ?x) ?s ?c ?k = _ =>
      change (run n (Seq (Grp 2 g) x) s c k)
        with (run n (Grp 2 g) s c (fun s' caps' => run n x s' caps' k))
  end.
  rewrite run_plus_group.
  2:{ intros x t cp Hx. cbn [run strip_prefix].
      destruct (N.eqb_spec DQUOTE x) as [<-|_]; [discriminate|reflexivity]. }
  unfold quoted_value.
  destruct s as [|c s']; [reflexivity|].
  destruct (notquote c); [|reflexivity].
  rewrite run_group_tail.
  destruct (strip_prefix [DQUOTE] (drop_while notquote s')) as [rest|];
    [|reflexivity].
  destruct (at_eol (drop_while anychar rest)); reflexivity.
Qed.

(** ** Stripping *)

Lemma lstrip_app_space s t :
  all_space t ->
  lstrip (s ++ t) = match lstrip s with [] => [] | _ => lstrip s ++ t end.
Proof.
  intros Ht. unfold lstrip. induction s as [|c s IH]; simpl.
  - rewrite <- (app_nil_r t) at 1. rewrite drop_while_app by assumption.
    reflexivity.
  - destruct (isspace c); [exact IH | reflexivity].
Qed.

Lemma lstrip_space_app lead s : all_space lead -> lstrip (lead ++ s) = lstrip s.
Proof. apply drop_while_app. Qed.

Lemma lstrip_nonspace c s : isspace c = false -> lstrip (c :: s) = c :: s.
Proof. apply drop_while_stop. Qed.

Lemma lstrip_decomp s : exists lead, s = lead ++ lstrip s /\ all_space lead.
Proof.
  exists (take_while isspace s). split.
  - symmetry. apply take_drop_while.
  - apply take_while_all.
Qed.

Lemma rstrip_nil_iff s : rstrip s = [] <-> all_space s.
Proof.
  induction s as [|c s IH]; simpl.
  - split; [constructor | reflexivity].
  - destruct (rstrip s) as [|x r] eqn:E.
    + destruct (isspace c) eqn:Ec.
      * split; [intros _; constructor; [assumption | apply IH; reflexivity]
               | reflexivity].
      * split; [discriminate | intros H; inversion H; congruence].
    + split; [discriminate|]. intros H. inversion H as [|? ? _ Hs]; subst.
      apply IH in Hs. discriminate.
Qed.

Lemma rstrip_app_space s t : all_space t -> rstrip (s ++ t) = rstrip s.
Proof.
  intros Ht. induction s as [|c s IH]; simpl.
  - apply rstrip_nil_iff. assumption.
  - rewrite IH. reflexivity.
Qed.

Lemma rstrip_decomp s : exists trail, s = rstrip s ++ trail /\ all_space trail.
Proof.
  induction s as [|c s (trail & Hs & Ht)]; simpl.
  - exists []. split; [reflexivity | constructor].
  - destruct (rstrip s) as [|x r] eqn:E.
    + destruct (isspace c) eqn:Ec.
      * exists (c :: s). split; [reflexivity|]. constructor; [assumption|].
        apply rstrip_nil_iff. assumption.
      * exists s. split; [reflexivity|]. apply rstrip_nil_iff. assumption.
    + exists trail. split; [|assumption]. simpl in *. f_equal. exact Hs.
Qed.

Lemma rstrip_last s a c : rstrip s = a ++ [c] -> isspace c = false.
Proof.
  revert a. induction s as [|x s IH]; intros a; simpl.
  - destruct a; discriminate.
  - destruct (rstrip s) as [|y r] eqn:E.
    + destruct (isspace x) eqn:Ex; [destruct a; discriminate|].
      destruct a as [|? [|? ?]]; intros [= <-] || discriminate. assumption.
    + destruct a as [|z a]; [discriminate|].
      intros [= <- H]. apply (IH a). assumption.
Qed.

Lemma rstrip_head c s : isspace c = false -> rstrip (c :: s) = c :: rstrip s.
Proof. intros H. simpl. rewrite H. destruct (rstrip s); reflexivity. Qed.

Lemma rstrip_keeps s c : isspace c = false -> rstrip (s ++ [c]) = s ++ [c].
Proof.
  intros Hc. induction s as [|x s IH]; simpl.
  - rewrite Hc. reflexivity.
  - rewrite IH. destruct s; reflexivity.
Qed.

Lemma strip_app_space s t : all_space t -> strip (s ++ t) = strip s.
Proof.
  intros Ht. unfold strip. rewrite lstrip_app_space by assumption.
  destruct (lstrip s) as [|c r] eqn:E; [reflexivity|].
  apply rstrip_app_space. assumption.
Qed.

Lemma strip_space_app lead s : all_space lead -> strip (lead ++ s) = strip s.
Proof. intros H. unfold strip. rewrite lstrip_space_app; auto. Qed.

Lemma strip_decomp s :
  exists lead trail,
    s = lead ++ strip s ++ trail /\ all_space lead /\ all_space trail
    /\ lstrip s = strip s ++ trail.
Proof.
  destruct (lstrip_decomp s) as (lead & Hs & Hlead).
  destruct (rstrip_decomp (lstrip s)) as (trail & Hl & Htrail).
  exists lead, trail. unfold strip. repeat split; try assumption.
  rewrite <- Hl. assumption.
Qed.

Lemma strip_first c s t : strip s = c :: t -> isspace c = false.
Proof.
  unfold strip. intros H.
  destruct (lstrip s) as [|x r] eqn:E; [discriminate|].
  pose proof (drop_while_head _ _ _ _ E) as Hx.
  rewrite rstrip_head in H by assumption. congruence.
Qed.

Lemma strip_last s a c : strip s = a ++ [c] -> isspace c = false.
Proof. apply rstrip_last. Qed.

Lemma strip_core c m d :
  isspace c = false -> isspace d = false -> strip (c :: m ++ [d]) = c :: m ++ [d].
Proof.
  intros Hc Hd. unfold strip. rewrite lstrip_nonspace by assumption.
  change (c :: m ++ [d]) with ((c :: m) ++ [d]). apply rstrip_keeps, Hd.
Qed.

(** ** Key-value lines *)

Lemma space_notquote t : all_space t -> no_quote t.
Proof.
  intros Ht. eapply Forall_impl; [exact Ht|]. intros c H. char_arith.
Qed.

Lemma strip_prefix_app_space key b t :
  no_space key -> all_space t ->
  strip_prefix key (b ++ t) = option_map (fun r => r ++ t) (strip_prefix key b).
Proof.
  intros Hkey Ht. revert b. induction Hkey as [|x key Hx _ IH]; intros b.
  - reflexivity.
  - destruct b as [|y b]; simpl.
    + destruct Ht as [|c t Hc _]; [reflexivity|].
      destruct (N.eqb_spec x c) as [->|_]; [congruence | reflexivity].
    + destruct (x =? y); [apply IH | reflexivity].
Qed.

Lemma after_key_app_space key b t :
  no_space key -> all_space t ->
  after_key key (b ++ t) = option_map (fun r => r ++ t) (after_key key b).
Proof.
  intros Hkey Ht. unfold after_key.
  rewrite strip_prefix_app_space by assumption.
  destruct (strip_prefix key b) as [s1|]; [|reflexivity]. cbn [option_map].
  rewrite lstrip_app_space by assumption.
  destruct (lstrip s1) as [|c1 r1] eqn:E1; [reflexivity|].
  change (c1 :: r1 ++ t) with ((c1 :: r1) ++ t).
  rewrite (strip_prefix_app_space (lit "=")); [|repeat constructor|assumption].
  destruct (strip_prefix (lit "=") (c1 :: r1)) as [s2|]; [|reflexivity]. cbn [option_map].
  rewrite lstrip_app_space by assumption.
  destruct (lstrip s2) as [|c2 r2] eqn:E2; [reflexivity|].
  change (c2 :: r2 ++ t) with ((c2 :: r2) ++ t).
  apply strip_prefix_app_space; [repeat constructor | assumption].
Qed.

Lemma drop_while_app_all {A : Type} (p : A -> bool) s t :
  Forall (fun c => p c = true) t ->
  drop_while p (s ++ t)
  = match drop_while p s with [] => [] | d => d ++ t end.
Proof.
  intros Ht. induction s as [|c s IH]; simpl.
  - rewrite <- (app_nil_r t) at 1. rewrite drop_while_app by assumption.
    reflexivity.
  - destruct (p c); [exact IH | reflexivity].
Qed.

Lemma take_while_app_stop {A : Type} (p : A -> bool) s t :
  drop_while p s <> [] -> take_while p (s ++ t) = take_while p s.
Proof.
  induction s as [|c s IH]; simpl; [congruence|].
  destruct (p c); [|reflexivity]. intros H. f_equal. apply IH, H.
Qed.

Lemma quoted_value_app_space s t :
  all_space t ->
  quoted_value (s ++ t)
  = option_map (fun vr : str * str => (fst vr, snd vr ++ t)) (quoted_value s).
Proof.
  intros Ht. pose proof (space_notquote t Ht) as Hq. unfold quoted_value.
  destruct s as [|c s].
  - cbn [app option_map]. destruct Hq as [|x t Hx Hq]; [reflexivity|].
    rewrite Hx.
    rewrite <- (app_nil_r t) at 1. rewrite drop_while_app by assumption.
    reflexivity.
  - change ((c :: s) ++ t) with (c :: s ++ t). cbn beta iota.
    destruct (notquote c); [|reflexivity].
    rewrite drop_while_app_all by assumption.
    destruct (drop_while notquote s) as [|d r] eqn:E; [reflexivity|].
    change ((d :: r) ++ t) with (d :: r ++ t). cbn [strip_prefix].
    destruct (DQUOTE =? d); [|reflexivity]. cbn [option_map fst snd].
    rewrite take_while_app_stop by congruence. reflexivity.
Qed.

Lemma quoted_value_Some s v rest :
  quoted_value s = Some (v, rest) ->
  s = v ++ DQUOTE :: rest /\ v <> [] /\ no_quote v.
Proof.
  unfold quoted_value. destruct s as [|c s]; [discriminate|].
  destruct (notquote c) eqn:Ec; [|discriminate].
  destruct (strip_prefix [DQUOTE] (drop_while notquote s)) as [r|] eqn:E;
    [|discriminate].
  intros [= <- <-]. apply strip_prefix_Some in E. repeat split.
  - simpl. f_equal. rewrite <- (take_drop_while notquote s) at 1.
    rewrite E. reflexivity.
  - discriminate.
  - constructor; [assumption | apply take_while_all].
Qed.

Lemma quoted_value_build v rest :
  v <> [] -> no_quote v -> quoted_value (v ++ DQUOTE :: rest) = Some (v, rest).
Proof.
  intros Hv Hq. destruct v as [|c v]; [congruence|].
  inversion Hq as [|? ? Hc Hq']; subst. simpl. rewrite Hc.
  rewrite drop_while_app by assumption.
  rewrite take_while_app by assumption. simpl.
  rewrite app_nil_r. reflexivity.
Qed.

Lemma after_key_decomp key s s' :
  after_key key s = Some s' -> exists K, s = K ++ s' /\ key_prefix key K.
Proof.
  unfold after_key.
  destruct (strip_prefix key s) as [s1|] eqn:E1; [|discriminate].
  destruct (strip_prefix (lit "=") (lstrip s1)) as [s2|] eqn:E2; [|discriminate].
  intros E3.
  apply strip_prefix_Some in E1, E2, E3.
  destruct (lstrip_decomp s1) as (w1 & Hs1 & Hw1).
  destruct (lstrip_decomp s2) as (w2 & Hs2 & Hw2).
  exists (key ++ w1 ++ lit "=" ++ w2 ++ [DQUOTE]). repeat split.
  - rewrite E1, Hs1, E2, Hs2, E3. rewrite <- !app_assoc. reflexivity.
  - intros x. unfold after_key. rewrite <- !app_assoc.
    rewrite strip_prefix_app.
    rewrite lstrip_space_app by assumption.
    change (lstrip (lit "=" ++ w2 ++ [DQUOTE] ++ x))
      with (lit "=" ++ w2 ++ [DQUOTE] ++ x).
    rewrite strip_prefix_app.
    rewrite lstrip_space_app by assumption. reflexivity.
  - exists (w1 ++ lit "=" ++ w2). rewrite <- !app_assoc. reflexivity.
Qed.

(** ** Lines *)

Lemma splitlines_ind (P : str -> Prop) :
  P [] ->
  (forall s, P s -> P (CR :: LF :: s)) ->
  (forall s, head s <> Some LF -> P s -> P (CR :: s)) ->
  (forall c s, c <> CR -> is_linebreak c = true -> P s -> P (c :: s)) ->
  (forall c s, is_linebreak c = false -> P s -> P (c :: s)) ->
  forall s, P s.
Proof.
  intros Hnil Hcrlf Hcr Hbrk Hord s.
  assert (H : forall n s, (length s <= n)%nat -> P s).
  { clear s. induction n as [|n IH]; intros s Hlen.
    - destruct s; [exact Hnil | simpl in Hlen; lia].
    - destruct s as [|c s]; [exact Hnil|]. simpl in Hlen.
      destruct (is_linebreak c) eqn:Eb.
      + destruct (N.eq_dec c CR) as [->|Hne].
        * destruct s as [|c' s].
          -- apply Hcr; [discriminate | exact Hnil].
          -- destruct (N.eq_dec c' LF) as [->|Hne'].
             ++ apply Hcrlf. apply IH. simpl in Hlen. lia.
             ++ apply Hcr; [simpl; congruence | apply IH; lia].
        * apply Hbrk; [assumption | assumption | apply IH; lia].
      + apply Hord; [assumption | apply IH; lia]. }
  apply (H (length s)). lia.
Qed.

Lemma splitlines_crlf k s :
  splitlines k (CR :: LF :: s)
  = (if k then [CR; LF] else []) :: splitlines k s.
Proof. reflexivity. Qed.

Lemma splitlines_cr k s :
  head s <> Some LF ->
  splitlines k (CR :: s) = (if k then [CR] else []) :: splitlines k s.
Proof.
  intros H. cbn [splitlines]. rewrite N.eqb_refl.
  destruct s as [|c s]; [reflexivity|].
  destruct (N.eqb_spec c LF) as [->|_]; [simpl in H; congruence | reflexivity].
Qed.

Lemma splitlines_break k c s :
  c <> CR -> is_linebreak c = true ->
  splitlines k (c :: s) = (if k then [c] else []) :: splitlines k s.
Proof.
  intros Hc Hb. cbn [splitlines].
  destruct (N.eqb_spec c CR) as [->|_]; [congruence|]. rewrite Hb. reflexivity.
Qed.

Lemma splitlines_ord k c s :
  is_linebreak c = false ->
  splitlines k (c :: s)
  = match splitlines k s with
    | [] => [[c]]
    | l :: ls => (c :: l) :: ls
    end.
Proof.
  intros Hb. cbn [splitlines].
  destruct (N.eqb_spec c CR) as [->|_]; [discriminate|]. rewrite Hb.
  reflexivity.
Qed.

Lemma splitlines_nil_iff k s : splitlines k s = [] <-> s = [].
Proof.
  split; [|intros ->; reflexivity].
  induction s using splitlines_ind; try reflexivity.
  - rewrite splitlines_crlf. discriminate.
  - rewrite splitlines_cr by assumption. discriminate.
  - rewrite splitlines_break by assumption. discriminate.
  - rewrite splitlines_ord by assumption.
    destruct (splitlines k s); discriminate.
Qed.

(** Joining the lines gives the text back. *)
Lemma concat_splitlines s : concat (splitlines true s) = s.
Proof.
  induction s using splitlines_ind.
  - reflexivity.
  - rewrite splitlines_crlf. simpl. congruence.
  - rewrite splitlines_cr by assumption. simpl. congruence.
  - rewrite splitlines_break by assumption. simpl. congruence.
  - rewrite splitlines_ord by assumption.
    destruct (splitlines true s) as [|l ls] eqn:E.
    + apply splitlines_nil_iff in E. subst. reflexivity.
    + simpl in *. congruence.
Qed.

Lemma line_content_ord c l :
  is_linebreak c = false -> line_content (c :: l) = c :: line_content l.
Proof. intros H. unfold line_content, nonbreak. simpl. rewrite H. reflexivity. Qed.

Lemma line_terminator_ord c l :
  is_linebreak c = false -> line_terminator (c :: l) = line_terminator l.
Proof.
  intros H. unfold line_terminator, nonbreak. simpl. rewrite H. reflexivity.
Qed.

Lemma line_content_break c l :
  is_linebreak c = true -> line_content (c :: l) = [].
Proof. intros H. unfold line_content, nonbreak. simpl. rewrite H. reflexivity. Qed.

Lemma line_terminator_break c l :
  is_linebreak c = true -> line_terminator (c :: l) = c :: l.
Proof.
  intros H. unfold line_terminator, nonbreak. simpl. rewrite H. reflexivity.
Qed.

(** Without [keepends] the lines are the contents. *)
Lemma splitlines_contents s :
  splitlines false s = map line_content (splitlines true s).
Proof.
  induction s using splitlines_ind.
  - reflexivity.
  - rewrite !splitlines_crlf. cbn [map].
    rewrite line_content_break by reflexivity. rewrite IHs; reflexivity.
  - rewrite !splitlines_cr by assumption. cbn [map].
    rewrite line_content_break by reflexivity. rewrite IHs; reflexivity.
  - rewrite !splitlines_break by assumption. cbn [map].
    rewrite line_content_break by assumption. rewrite IHs; reflexivity.
  - rewrite !splitlines_ord by assumption. rewrite IHs.
    destruct (splitlines true s) as [|l ls]; cbn [map].
    + rewrite line_content_ord by assumption. reflexivity.
    + rewrite line_content_ord by assumption. reflexivity.
Qed.

Lemma line_ok_ord c l : is_linebreak c = false -> line_ok l -> line_ok (c :: l).
Proof.
  intros Hc [_ Ht]. split; [discriminate|].
  rewrite line_terminator_ord by assumption. exact Ht.
Qed.

Lemma wf_lines_splitlines s : wf_lines (splitlines true s).
Proof.
  induction s using splitlines_ind.
  - constructor.
  - rewrite splitlines_crlf.
    destruct (splitlines true s) as [|l' ls] eqn:E.
    + apply wf_lines_last. split; [discriminate | reflexivity].
    + apply wf_lines_cons; try assumption.
      * split; [discriminate | reflexivity].
      * discriminate.
      * intros [? _]. discriminate.
  - rewrite splitlines_cr by assumption.
    destruct (splitlines true s) as [|l' ls] eqn:E.
    + apply wf_lines_last. split; [discriminate | reflexivity].
    + apply wf_lines_cons; try assumption.
      * split; [discriminate | reflexivity].
      * discriminate.
      * intros [_ Hh]. apply H.
        rewrite <- (concat_splitlines s), E. simpl.
        destruct l' as [|x l']; [discriminate | exact Hh].
  - rewrite splitlines_break by assumption.
    assert (Hok : line_ok [c]).
    { split; [discriminate|]. rewrite line_terminator_break by assumption.
      simpl. assumption. }
    destruct (splitlines true s) as [|l' ls] eqn:E.
    + apply wf_lines_last, Hok.
    + apply wf_lines_cons; try assumption.
      * rewrite line_terminator_break by assumption. discriminate.
      * rewrite line_terminator_break by assumption. intros [[= ->] _].
        congruence.
  - rewrite splitlines_ord by assumption.
    destruct (splitlines true s) as [|l ls] eqn:E.
    + apply wf_lines_last. split; [discriminate|].
      rewrite line_terminator_ord by assumption. reflexivity.
    + inversion IHs as [| l0 Hok | l0 l' ls0 Hok Ht Hadj Hwf]; subst.
      * apply wf_lines_last. apply line_ok_ord; assumption.
      * apply wf_lines_cons; try assumption.
        -- apply line_ok_ord; assumption.
        -- rewrite line_terminator_ord by assumption. assumption.
        -- rewrite line_terminator_ord by assumption. assumption.
Qed.

Lemma line_parts l : l = line_content l ++ line_terminator l.
Proof. symmetry. apply take_drop_while. Qed.

Lemma line_content_nonbreak l :
  Forall (fun c => is_linebreak c = false) (line_content l).
Proof.
  eapply Forall_impl; [apply take_while_all|].
  intros c H. unfold nonbreak in H. apply negb_true_iff in H. exact H.
Qed.

Lemma terminator_cases t :
  is_terminator t = true ->
  t = [] \/ t = [CR; LF] \/ exists c, t = [c] /\ is_linebreak c = true.
Proof.
  destruct t as [|c [|c' [|? ?]]]; simpl; try discriminate; auto.
  - intros H. right. right. eauto.
  - rewrite andb_true_iff, !N.eqb_eq. intros [-> ->]. auto.
Qed.

Lemma terminator_space t : is_terminator t = true -> all_space t.
Proof.
  intros H. destruct (terminator_cases t H) as [->|[->|(c & -> & Hc)]].
  - constructor.
  - repeat constructor.
  - constructor; [apply linebreak_isspace, Hc | constructor].
Qed.

Lemma splitlines_line l rest :
  line_ok l ->
  rest = [] \/
    (line_terminator l <> []
     /\ ~ (line_terminator l = [CR] /\ head rest = Some LF)) ->
  splitlines true (l ++ rest) = l :: splitlines true rest.
Proof.
  induction l as [|c l IH]; intros [Hne Ht] Hrest; [congruence|].
  destruct (is_linebreak c) eqn:Eb.
  - rewrite line_terminator_break in * by assumption.
    destruct (terminator_cases _ Ht) as [E|[E|(x & E & Hx)]];
      [discriminate | |]; injection E as -> ->.
    + apply splitlines_crlf.
    + destruct (N.eq_dec x CR) as [->|Hcr].
      * apply splitlines_cr. destruct Hrest as [->|[_ Hadj]]; [discriminate|].
        intros Hh. apply Hadj. auto.
      * apply splitlines_break; assumption.
  - rewrite line_terminator_ord in * by assumption.
    change ((c :: l) ++ rest) with (c :: l ++ rest).
    rewrite splitlines_ord by assumption.
    destruct l as [|c' l].
    + destruct Hrest as [->|[Hn _]]; [reflexivity|].
      exfalso. apply Hn. reflexivity.
    + rewrite IH; [reflexivity | split; [discriminate | assumption]
                  | assumption].
Qed.

(** Lines of that shape are the lines of their concatenation. *)
Lemma splitlines_concat ls : wf_lines ls -> splitlines true (concat ls) = ls.
Proof.
  induction 1 as [| l Hok | l l' ls Hok Ht Hadj Hwf IH].
  - reflexivity.
  - simpl. rewrite app_nil_r. rewrite <- (app_nil_r l) at 1.
    rewrite splitlines_line; auto.
  - change (concat (l :: l' :: ls)) with (l ++ concat (l' :: ls)).
    rewrite splitlines_line; [rewrite IH; reflexivity | assumption |].
    right. split; [assumption|]. intros [E Hh]. apply Hadj. split; [exact E|].
    inversion Hwf as [| ? [Hne _] | ? ? ? [Hne _] _ _ _]; subst;
      destruct l' as [|x l'']; try congruence; exact Hh.
Qed.

(** Replacing a line by one with the same first character and the same
    terminator keeps the shape. *)
Lemma wf_lines_insert ls i l l' :
  wf_lines ls -> ls !! i = Some l ->
  l' <> [] -> head l' = head l -> line_terminator l' = line_terminator l ->
  wf_lines (<[i := l']> ls).
Proof.
  intros Hwf. revert i.
  induction Hwf as [| l0 Hok | l0 l1 ls Hok Ht Hadj Hwf IH];
    intros i Hi Hne Hh Hterm.
  - discriminate.
  - destruct i as [|i]; [|discriminate]. injection Hi as ->. simpl.
    apply wf_lines_last. split; [assumption|]. rewrite Hterm. apply Hok.
  - destruct i as [|i]; simpl in *.
    + injection Hi as ->. apply wf_lines_cons; try assumption.
      * split; [assumption|]. rewrite Hterm. apply Hok.
      * rewrite Hterm. assumption.
      * rewrite Hterm. assumption.
    + specialize (IH i Hi Hne Hh Hterm).
      destruct i as [|i]; simpl in *.
      * injection Hi as ->. apply wf_lines_cons; try assumption.
        rewrite Hh. assumption.
      * apply wf_lines_cons; assumption.
Qed.

Lemma endswith_snoc1 a x y : endswith (a ++ [x]) [y] = (y =? x).
Proof.
  unfold endswith, startswith. rewrite rev_app_distr. simpl.
  destruct (y =? x); reflexivity.
Qed.

Lemma endswith_snoc2 a x y z :
  endswith (a ++ [x]) [y; z] = (z =? x) && endswith a [y].
Proof.
  unfold endswith, startswith. rewrite rev_app_distr. simpl.
  destruct (z =? x); reflexivity.
Qed.

Lemma endswith_nil y p : endswith [] (y :: p) = false.
Proof.
  unfold endswith, startswith. simpl. destruct (rev p); reflexivity.
Qed.

Lemma endswith_content_cr body :
  Forall (fun c => is_linebreak c = false) body -> endswith body [CR] = false.
Proof.
  intros H. destruct body as [|c b] using rev_ind; [apply endswith_nil|].
  rewrite endswith_snoc1. apply Forall_app in H as [_ H].
  inversion H; subst. char_arith.
Qed.

Lemma endswith_content_lf body :
  Forall (fun c => is_linebreak c = false) body -> endswith body [LF] = false.
Proof.
  intros H. destruct body as [|c b] using rev_ind; [apply endswith_nil|].
  rewrite endswith_snoc1. apply Forall_app in H as [_ H].
  inversion H; subst. char_arith.
Qed.

Lemma endswith_content_crlf body :
  Forall (fun c => is_linebreak c = false) body ->
  endswith body [CR; LF] = false.
Proof.
  intros H. destruct body as [|c b] using rev_ind; [apply endswith_nil|].
  rewrite endswith_snoc2. apply Forall_app in H as [_ H].
  inversion H; subst. apply andb_false_iff. left. char_arith.
Qed.

Lemma split_line_ending_parts body term :
  Forall (fun c => is_linebreak c = false) body ->
  is_terminator term = true ->
  split_line_ending (body ++ term)
  = (body ++ fst (term_split term), snd (term_split term))
  /\ term = fst (term_split term) ++ snd (term_split term)
  /\ all_space (fst (term_split term))
  /\ no_newline (fst (term_split term))
  /\ all_space (snd (term_split term)).
Proof.
  intros Hb Ht.
  destruct (terminator_cases _ Ht) as [->|[->|(c & -> & Hc)]];
    unfold split_line_ending.
  - rewrite app_nil_r.
    rewrite endswith_content_crlf, endswith_content_lf, endswith_content_cr
      by assumption.
    cbn. rewrite app_nil_r. repeat split; constructor.
  - assert (H1 : endswith (body ++ [CR; LF]) [CR; LF] = true).
    { replace (body ++ [CR; LF]) with ((body ++ [CR]) ++ [LF])
        by (rewrite <- app_assoc; reflexivity).
      rewrite endswith_snoc2, endswith_snoc1. reflexivity. }
    rewrite H1, length_app. cbn [length].
    replace (length body + 2 - 2)%nat with (length body) by lia.
    rewrite take_app_length. cbn. rewrite app_nil_r.
    repeat split; repeat constructor.
  - rewrite endswith_snoc2, !endswith_snoc1.
    rewrite endswith_content_cr by assumption. rewrite andb_false_r.
    rewrite length_app. cbn [length].
    replace (length body + 1 - 1)%nat with (length body) by lia.
    rewrite take_app_length. unfold term_split. cbn [str_eqb].
    rewrite !andb_false_r, !andb_true_r. cbn [orb].
    rewrite (N.eqb_sym c LF), (N.eqb_sym c CR).
    destruct (N.eqb_spec LF c) as [<-|Hlf].
    + cbn. rewrite app_nil_r. repeat split; repeat constructor.
    + destruct (N.eqb_spec CR c) as [<-|Hcr].
      * cbn. rewrite app_nil_r. repeat split; repeat constructor.
      * cbn. repeat split; repeat constructor.
        -- apply linebreak_isspace, Hc.
        -- char_arith.
Qed.

(** [split_line_ending] on a line of [splitlines]: the body is the
    content, followed by the terminator when that is none of the three the
    function knows. *)
Lemma split_line_ending_spec l :
  line_ok l ->
  exists t e,
    split_line_ending l = (line_content l ++ t, e)
    /\ line_terminator l = t ++ e
    /\ all_space t /\ no_newline t /\ all_space e
    /\ term_split (t ++ e) = (t, e).
Proof.
  intros [_ Ht].
  destruct (split_line_ending_parts (line_content l) (line_terminator l))
    as (H1 & H2 & H3 & H4 & H5); [apply line_content_nonbreak | exact Ht |].
  exists (fst (term_split (line_terminator l))),
         (snd (term_split (line_terminator l))).
  rewrite <- line_parts in H1. rewrite <- H2.
  repeat split; try assumption. apply surjective_pairing.
Qed.

Lemma nonbreak_no_newline s :
  Forall (fun c => is_linebreak c = false) s -> no_newline s.
Proof. intros H. eapply Forall_impl; [exact H|]. intros c Hc. char_arith. Qed.

Lemma drop_while_all {A : Type} (p : A -> bool) s : Forall (fun c => p c = true) s -> drop_while p s = [].
Proof.
  intros H. rewrite <- (app_nil_r s). rewrite drop_while_app by assumption.
  reflexivity.
Qed.

Lemma take_while_id {A : Type} (p : A -> bool) s : Forall (fun c => p c = true) s -> take_while p s = s.
Proof.
  intros H. rewrite <- (take_drop_while p s) at 2.
  rewrite drop_while_all by assumption. rewrite app_nil_r. reflexivity.
Qed.

Lemma after_key_length key s s' :
  after_key key s = Some s' -> (length s' <= length s)%nat.
Proof.
  intros H. apply after_key_decomp in H as (K & -> & _).
  rewrite length_app. lia.
Qed.

(** The rewrite pattern on a body that ends in whitespace [t]. *)
Lemma version_line_parts_app body t :
  all_space t ->
  version_line_parts (body ++ t)
  = match after_key (lit "version") (lstrip body) with
    | Some s =>
        match quoted_value s with
        | Some (v, rest) =>
            if at_eol (drop_while anychar (rest ++ t))
            then Some (take (length body - length s) body, v,
                       DQUOTE :: take_while anychar (rest ++ t))
            else None
        | None => None
        end
    | None => None
    end.
Proof.
  intros Ht. unfold version_line_parts.
  rewrite lstrip_app_space by assumption.
  destruct (lstrip body) as [|c r] eqn:E; [reflexivity|].
  rewrite after_key_app_space; [|repeat constructor|assumption].
  destruct (after_key (lit "version") (c :: r)) as [s|] eqn:Ek; [|reflexivity].
  cbn [option_map]. rewrite quoted_value_app_space by assumption.
  destruct (quoted_value s) as [[v rest]|]; [|reflexivity].
  cbn [option_map fst snd].
  destruct (at_eol (drop_while anychar (rest ++ t))); [|reflexivity].
  f_equal. f_equal. f_equal.
  apply after_key_length in Ek. rewrite <- E in Ek.
  pose proof (length_drop_while isspace body). unfold lstrip in Ek.
  rewrite !length_app.
  replace (length body + length t - (length s + length t))%nat
    with (length body - length s)%nat by lia.
  apply take_app_le. lia.
Qed.

Lemma key_prefix_head K :
  key_prefix (lit "version") K -> exists r, K = 118 :: r ++ [DQUOTE].
Proof.
  intros [_ (m & ->)]. exists (lit "ersion" ++ m).
  rewrite <- app_assoc. reflexivity.
Qed.

Lemma lstrip_version_line lead K x :
  all_space lead -> key_prefix (lit "version") K ->
  lstrip (lead ++ K ++ x) = K ++ x.
Proof.
  intros Hlead HK. rewrite lstrip_space_app by assumption.
  destruct (key_prefix_head K HK) as (r & ->). apply lstrip_nonspace.
  reflexivity.
Qed.

(** On a version line the rewrite pattern finds the three parts. *)
Lemma version_line_rewrite l lead K v rest t e :
  version_line l lead K v rest t e ->
  split_line_ending l = (lead ++ K ++ v ++ DQUOTE :: rest ++ t, e)
  /\ version_line_parts (lead ++ K ++ v ++ DQUOTE :: rest ++ t)
     = Some (lead ++ K, v, DQUOTE :: rest ++ t).
Proof.
  intros (Hl & Hlead & HK & Hv & Hq & Hb & Hterm & Ht & Hnl & He & Hsplit).
  split.
  { destruct (split_line_ending_parts _ _ Hb Hterm) as (Hsp & _).
    rewrite Hsplit in Hsp. cbn [fst snd] in Hsp. rewrite Hl.
    rewrite <- !app_assoc, <- !app_comm_cons in Hsp. exact Hsp. }
  replace (lead ++ K ++ v ++ DQUOTE :: rest ++ t)
    with ((lead ++ K ++ v ++ DQUOTE :: rest) ++ t)
    by (rewrite <- !app_assoc; reflexivity).
  rewrite version_line_parts_app by assumption.
  rewrite lstrip_version_line by assumption.
  destruct HK as [HK _]. rewrite HK.
  rewrite quoted_value_build by assumption.
  assert (Hrest : no_newline (rest ++ t)).
  { apply Forall_app. split; [|assumption].
    apply nonbreak_no_newline.
    rewrite !Forall_app in Hb. destruct Hb as (_ & _ & _ & Hb).
    inversion Hb; assumption. }
  rewrite drop_while_all, take_while_id by assumption. cbn [at_eol].
  f_equal. f_equal. f_equal.
  rewrite !length_app.
  replace (length lead + (length K + (length v + length (DQUOTE :: rest)))
           - (length v + length (DQUOTE :: rest)))%nat
    with (length (lead ++ K)) by (rewrite length_app; lia).
  rewrite (app_assoc lead K). apply take_app_length.
Qed.

(** A line on which the manifest reader finds a version has that
    anatomy. *)
Lemma toml_version_line l v :
  line_ok l -> toml_version_value (line_content l) = Some v ->
  exists lead K rest t e, version_line l lead K v rest t e.
Proof.
  intros Hok Hv. unfold toml_version_value in Hv.
  destruct (after_key _ (lstrip (line_content l))) as [s|] eqn:Ek;
    [|discriminate].
  destruct (quoted_value s) as [[v' rest]|] eqn:Eq; [|discriminate].
  injection Hv as ->.
  destruct (lstrip_decomp (line_content l)) as (lead & Hc & Hlead).
  apply after_key_decomp in Ek as (K & Hk & HK).
  apply quoted_value_Some in Eq as (Hs & Hne & Hq).
  destruct (split_line_ending_spec l Hok)
    as (t & e & Hsp & Hterm & Ht & Hnl & He & Hts).
  assert (Hcontent : line_content l = lead ++ K ++ v ++ DQUOTE :: rest).
  { rewrite Hc at 1. rewrite Hk, Hs. reflexivity. }
  exists lead, K, rest, t, e. unfold version_line. repeat split; try assumption.
  - rewrite (line_parts l) at 1. rewrite Hcontent, Hterm.
    rewrite <- !app_assoc. reflexivity.
  - apply HK.
  - apply HK.
  - rewrite <- Hcontent. apply line_content_nonbreak.
  - rewrite <- Hterm. apply Hok.
Qed.

(** A line on which the manifest reader finds no version is none for the
    writer either. *)
Lemma toml_no_version_line l :
  line_ok l -> toml_version_value (line_content l) = None ->
  re_match VERSION_LINE_RE (fst (split_line_ending l)) = None.
Proof.
  intros Hok Hv.
  destruct (split_line_ending_spec l Hok)
    as (t & e & Hsp & Hterm & Ht & Hnl & He & _).
  rewrite Hsp. cbn [fst]. rewrite re_match_version_line.
  rewrite version_line_parts_app by assumption.
  unfold toml_version_value in Hv.
  destruct (after_key _ (lstrip (line_content l))) as [s|]; [|reflexivity].
  destruct (quoted_value s) as [[v rest]|]; [discriminate | reflexivity].
Qed.

(** ** The named-block scans *)

Lemma scan_name_spec line found :
  scan_name (strip line) found
  = match line_name line with Some x => Some x | None => found end.
Proof.
  unfold scan_name, line_name. rewrite re_match_lock_name.
  destruct (lock_value _ _); reflexivity.
Qed.

Lemma scan_version_spec line found :
  match re_match LOCK_VERSION_RE (strip line) with
  | Some m => Some (group_text m 1)
  | None => found
  end
  = match line_version line with Some x => Some x | None => found end.
Proof.
  unfold line_version. rewrite re_match_lock_version.
  destruct (lock_value _ _); reflexivity.
Qed.

Lemma scan_detect_spec line (idx : nat) (found : option nat) :
  match re_match LOCK_VERSION_DETECT_RE (strip line) with
  | Some _ => Some idx
  | None => found
  end
  = match line_version line with Some _ => Some idx | None => found end.
Proof.
  unfold line_version. rewrite re_match_lock_version_detect.
  destruct (lock_value _ _); reflexivity.
Qed.

Lemma read_lock_block_spec package_name outer rest name version source :
  read_lock_block package_name outer rest name version source
  = read_lock_decide package_name
      (scan_last line_name (block_body rest) name)
      (scan_last line_version (block_body rest) version)
      (scan_any line_is_source (block_body rest) source)
      (outer (after_block rest)).
Proof.
  revert name version source.
  induction rest as [|line rest IH]; intros name version source.
  - reflexivity.
  - unfold block_body, after_block, not_marker.
    change marker_line with is_marker.
    cbn [read_lock_block take_while drop_while].
    destruct (is_marker line) eqn:Em; cbn [negb].
    + reflexivity.
    + rewrite scan_name_spec, scan_version_spec.
      fold (read_lock_block package_name outer). rewrite IH. reflexivity.
Qed.

Lemma read_lock_loop_skip package_name lines :
  read_lock_loop package_name lines
  = read_lock_loop package_name (after_block lines).
Proof.
  induction lines as [|line lines IH]; [reflexivity|].
  unfold after_block, not_marker in *. change marker_line with is_marker in *.
  cbn [drop_while].
  destruct (is_marker line) eqn:Em; cbn [negb]; [reflexivity|].
  cbn [read_lock_loop]. rewrite Em. exact IH.
Qed.

Lemma read_lock_loop_spec package_name lines idx :
  read_lock_loop package_name lines
  = read_selected package_name
      (List.find (selectable package_name) (blocks lines idx)).
Proof.
  revert idx. induction lines as [|line lines IH]; intros idx; [reflexivity|].
  cbn [read_lock_loop blocks]. change marker_line with is_marker.
  destruct (is_marker line); cbn [negb].
  - rewrite read_lock_block_spec. rewrite <- read_lock_loop_skip.
    rewrite (IH (S idx)). cbn [List.find].
    unfold read_lock_decide, selectable, name_is.
    cbn [snd]. fold (block_name (block_body lines)).
    fold (block_has_source (block_body lines)).
    fold (block_version (block_body lines)).
    destruct (_ && negb _); reflexivity.
  - apply IH.
Qed.

Lemma write_lock_block_spec lines package_name new_version outer rest end_
    name version_idx source :
  write_lock_block lines package_name new_version outer rest end_
    name version_idx source
  = write_lock_decide lines package_name new_version
      (scan_last line_name (block_body rest) name)
      (scan_index (block_body rest) end_ version_idx)
      (scan_any line_is_source (block_body rest) source)
      (outer (after_block rest) (end_ + length (block_body rest))%nat).
Proof.
  revert end_ name version_idx source.
  induction rest as [|line rest IH]; intros end_ name version_idx source.
  - cbn. rewrite Nat.add_0_r. reflexivity.
  - unfold block_body, after_block, not_marker.
    change marker_line with is_marker.
    cbn [write_lock_block take_while drop_while].
    destruct (is_marker line) eqn:Em; cbn [negb].
    + cbn. rewrite Nat.add_0_r. reflexivity.
    + rewrite scan_name_spec, scan_detect_spec.
      fold (write_lock_block lines package_name new_version outer).
      rewrite IH. cbn [length scan_index]. rewrite Nat.add_succ_r.
      reflexivity.
Qed.

Lemma write_lock_loop_skip lines package_name new_version rest idx :
  write_lock_loop lines package_name new_version rest idx
  = write_lock_loop lines package_name new_version (after_block rest)
      (idx + length (block_body rest))%nat.
Proof.
  revert idx. induction rest as [|line rest IH]; intros idx.
  - cbn. reflexivity.
  - unfold after_block, block_body, not_marker in *.
    change marker_line with is_marker in *.
    cbn [drop_while take_while].
    destruct (is_marker line) eqn:Em; cbn [negb].
    + cbn [length]. rewrite Nat.add_0_r. reflexivity.
    + cbn [write_lock_loop length]. rewrite Em. cbn [negb].
      rewrite IH. rewrite Nat.add_succ_r. reflexivity.
Qed.

Lemma write_lock_loop_spec lines package_name new_version rest idx :
  write_lock_loop lines package_name new_version rest idx
  = write_selected lines package_name new_version
      (List.find (selectable package_name) (blocks rest idx)).
Proof.
  revert idx. induction rest as [|line rest IH]; intros idx; [reflexivity|].
  cbn [write_lock_loop blocks]. change marker_line with is_marker.
  destruct (is_marker line); cbn [negb].
  - rewrite write_lock_block_spec. rewrite <- write_lock_loop_skip.
    rewrite (IH (S idx)). cbn [List.find].
    unfold write_lock_decide, selectable, write_selected, block_version_idx,
      name_is.
    cbn [snd fst]. fold (block_name (block_body rest)).
    fold (block_has_source (block_body rest)).
    destruct (_ && negb _); reflexivity.
  - apply IH.
Qed.

Lemma find_first {A : Type} (f : A -> bool) l x :
  List.find f l = Some x ->
  f x = true
  /\ exists before after,
       l = before ++ x :: after /\ Forall (fun y => f y = false) before.
Proof.
  induction l as [|y l IH]; [discriminate|]. cbn [List.find].
  destruct (f y) eqn:E.
  - intros [= ->]. split; [assumption|]. exists [], l. split; [reflexivity|].
    constructor.
  - intros H. destruct (IH H) as (Hx & before & after & -> & Hb).
    split; [assumption|]. exists (y :: before), after.
    split; [reflexivity|]. constructor; assumption.
Qed.

Lemma find_none {A : Type} (f : A -> bool) l :
  List.find f l = None -> Forall (fun y => f y = false) l.
Proof.
  induction l as [|y l IH]; [constructor|]. cbn [List.find].
  destruct (f y) eqn:E; [discriminate|]. intros H. constructor; auto.
Qed.

Lemma block_has_source_false body :
  block_has_source body = false <->
  Forall (fun l => startswith (strip l) (lit "source = ") = false) body.
Proof.
  unfold block_has_source, scan_any, line_is_source.
  assert (H : forall found,
            fold_left
              (fun found line =>
                 if startswith (strip line) (lit "source = ") then true
                 else found) body found = false
            <-> found = false
                /\ Forall (fun l => startswith (strip l) (lit "source = ")
                                    = false) body).
  { induction body as [|l body IH]; intros found; cbn [fold_left].
    - split; [intros ->; split; [reflexivity | constructor] | intros [H _]; exact H].
    - rewrite IH. destruct (startswith (strip l) (lit "source = ")) eqn:E.
      + split; [intros [H _]; discriminate|].
        intros [_ H]. inversion H; congruence.
      + split.
        * intros [H1 H2]. split; [exact H1|]. constructor; assumption.
        * intros [H1 H2]. split; [exact H1|]. inversion H2; assumption. }
  rewrite H. split; [intros [_ H']; exact H' | auto].
Qed.

Lemma block_has_source_true body :
  block_has_source body = true <->
  Exists (fun l => startswith (strip l) (lit "source = ") = true) body.
Proof.
  split.
  - intros H. apply List.Exists_exists.
    destruct (List.existsb_exists
                (fun l => startswith (strip l) (lit "source = ")) body)
      as [Hex _].
    apply Hex. destruct (existsb _ body) eqn:E; [reflexivity|].
    assert (Hf : block_has_source body = false).
    { apply block_has_source_false. apply List.Forall_forall. intros l Hl.
      destruct (startswith (strip l) (lit "source = ")) eqn:El; [|reflexivity].
      assert (Ht : existsb (fun l => startswith (strip l) (lit "source = "))
                     body = true)
        by (apply List.existsb_exists; eauto).
      congruence. }
    congruence.
  - intros H. destruct (block_has_source body) eqn:E; [reflexivity|].
    apply block_has_source_false in E. apply List.Exists_exists in H
      as (l & Hl & Hs). rewrite List.Forall_forall in E.
    rewrite (E l Hl) in Hs. discriminate.
Qed.

Lemma selectable_true package_name b :
  selectable package_name b = true <->
  block_name (snd b) = Some package_name
  /\ Forall (fun l => startswith (strip l) (lit "source = ") = false) (snd b).
Proof.
  unfold selectable. rewrite andb_true_iff, negb_true_iff.
  rewrite block_has_source_false. split; intros [Hn Hs]; (split; [|exact Hs]).
  - destruct (block_name (snd b)) as [n|]; [|discriminate].
    apply str_eqb_eq in Hn. congruence.
  - rewrite Hn. apply str_eqb_refl.
Qed.

Lemma selectable_false package_name b :
  selectable package_name b = false <->
  block_name (snd b) <> Some package_name
  \/ Exists (fun l => startswith (strip l) (lit "source = ") = true) (snd b).
Proof.
  unfold selectable. rewrite andb_false_iff, negb_false_iff.
  rewrite block_has_source_true. split; (intros [H|H]; [left | right; exact H]).
  - destruct (block_name (snd b)) as [n|]; [|discriminate].
    apply str_eqb_neq in H. congruence.
  - destruct (block_name (snd b)) as [n|]; [|reflexivity].
    apply str_eqb_neq. congruence.
Qed.

(** C1, as the code has it. Both scans of the named-block format take
    the first block, in the order of the file, whose name is the
    requested one and which has no source line, a source line being a
    line that starts with [source = ] once the white space around it is
    removed: the reader returns the version of that block and the writer
    rewrites the version line of that block. The name of the block taken
    is the requested name; none of its lines, stripped, starts with
    [source = ]; every block before it has another name or no name, or
    has a source line; and when no block is taken, every block of the
    file is of that kind. *)
Theorem lock_block_selection
    (pf : platform) (raw package_name new_version : str) :
  read_lock_package_version raw package_name
  = read_selected package_name
      (select_block package_name (splitlines false (read_file raw)))
  /\ write_lock_package_version pf raw package_name new_version
     = written pf raw
         (write_selected (splitlines true (read_file raw)) package_name
            new_version
            (select_block package_name (splitlines true (read_file raw))))
  /\ forall lines,
       (forall b,
          select_block package_name lines = Some b ->
          block_name (snd b) = Some package_name
          /\ Forall (fun l => startswith (strip l) (lit "source = ") = false)
               (snd b)
          /\ exists before after,
               blocks lines 0 = before ++ b :: after
               /\ Forall (fun b' =>
                    block_name (snd b') <> Some package_name
                    \/ Exists (fun l => startswith (strip l) (lit "source = ")
                                        = true) (snd b')) before)
       /\ (select_block package_name lines = None ->
           Forall (fun b' =>
             block_name (snd b') <> Some package_name
             \/ Exists (fun l => startswith (strip l) (lit "source = ")
                                 = true) (snd b')) (blocks lines 0)).
Proof.
  split; [|split].
  - apply read_lock_loop_spec.
  - unfold write_lock_package_version. f_equal. apply write_lock_loop_spec.
  - intros lines. split.
    + intros b Hb. unfold select_block in Hb.
      apply find_first in Hb as (Hsel & before & after & Hbl & Hbefore).
      apply selectable_true in Hsel as [Hn Hs].
      split; [exact Hn|]. split; [exact Hs|].
      exists before, after. split; [assumption|].
      eapply Forall_impl; [exact Hbefore|]. intros b' Hb'.
      apply selectable_false, Hb'.
    + intros Hnone. unfold select_block in Hnone.
      eapply Forall_impl; [apply find_none, Hnone|]. intros b' Hb'.
      apply selectable_false, Hb'.
Qed.

(** In the sample lockfile the block taken is named as requested and has
    no source line, and the block before it, of the same name, has
    one. *)
Lemma lock_block_selection_witness :
  exists b,
    select_block (lit "opencode-studio") (splitlines true sample_lock)
    = Some b
    /\ block_name (snd b) = Some (lit "opencode-studio")
    /\ Forall (fun l => startswith (strip l) (lit "source = ") = false)
         (snd b).
Proof.
  pose proof (proj1 (proj2 (proj2 (lock_block_selection Posix sample_lock
                                     (lit "opencode-studio") (lit "0.2.0")))
                       (splitlines true sample_lock))) as H.
  destruct (select_block (lit "opencode-studio")
              (splitlines true sample_lock)) as [b|] eqn:E;
    [|vm_compute in E; discriminate].
  exists b. split; [reflexivity|].
  destruct (H b eq_refl) as (H1 & H2 & _). split; assumption.
Defined.

(** The specification's sentence speaks of a line that starts with
    [source = ]. In this file the first block has the requested name
    and no line of it starts with [source = ]: its source line is
    indented. The reader does not take it all the same, and returns the
    version of the second block. *)
Lemma indented_source_line_counts :
  exists b rest,
    blocks (splitlines false (read_file indented_source_lock)) 0 = b :: rest
    /\ block_name (snd b) = Some (lit "opencode-studio")
    /\ Forall (fun l => startswith l (lit "source = ") = false) (snd b)
    /\ block_version (snd b) = Some (lit "9.9.9")
    /\ read_lock_package_version indented_source_lock (lit "opencode-studio")
       = Ok (lit "0.1.0").
Proof.
  eexists. eexists. split; [vm_compute; reflexivity|].
  split; [vm_compute; reflexivity|].
  split; [repeat constructor|].
  split; vm_compute; reflexivity.
Qed.

Lemma wf_lines_ok ls : wf_lines ls -> Forall line_ok ls.
Proof.
  induction 1 as [| l Hok | l l' ls Hok Ht Hadj Hwf IH].
  - apply Forall_nil_2.
  - apply Forall_cons_2; [exact Hok | apply Forall_nil_2].
  - apply Forall_cons_2; [exact Hok | exact IH].
Qed.

Lemma splitlines_ok s l i : splitlines true s !! i = Some l -> line_ok l.
Proof.
  intros H. pose proof (wf_lines_ok _ (wf_lines_splitlines s)) as Hall.
  rewrite Forall_lookup in Hall. eapply Hall, H.
Qed.

(** The lines of a block are lines of the file, from the start of the
    block on. *)
Lemma blocks_lookup lines idx b :
  In b (blocks lines idx) ->
  exists k, fst b = (idx + k)%nat
    /\ forall j l, snd b !! j = Some l -> lines !! (k + j)%nat = Some l.
Proof.
  revert idx. induction lines as [|line lines IH]; intros idx; [intros []|].
  cbn [blocks]. change marker_line with is_marker. intros Hin.
  assert (Hrec : In b (blocks lines (S idx)) ->
          exists k, fst b = (idx + k)%nat
            /\ forall j l, snd b !! j = Some l ->
                 (line :: lines) !! (k + j)%nat = Some l).
  { intros H. destruct (IH _ H) as (k & Hk & Hl). exists (S k).
    split; [lia|]. intros j l Hj. cbn. apply Hl, Hj. }
  destruct (is_marker line); [|auto].
  destruct Hin as [<-|Hin]; [|auto].
  exists 1%nat. cbn [fst snd]. split; [lia|]. intros j l Hj. cbn.
  unfold block_body in Hj.
  rewrite <- (take_drop_while not_marker lines).
  apply lookup_app_l_Some. exact Hj.
Qed.

(** The two things a scan remembers of the version lines of a block
    belong to the same line, the last one. *)
Lemma scan_version_spec_joint body start found_idx found :
  (scan_index body start found_idx = found_idx
   /\ scan_last line_version body found = found
   /\ Forall (fun l => line_version l = None) body)
  \/ exists j l v,
       body !! j = Some l /\ line_version l = Some v
       /\ Forall (fun l' => line_version l' = None) (drop (S j) body)
       /\ scan_index body start found_idx = Some (start + j)%nat
       /\ scan_last line_version body found = Some v.
Proof.
  revert start found_idx found.
  induction body as [|line body IH]; intros start found_idx found.
  - left. repeat split. constructor.
  - cbn [scan_index scan_last fold_left].
    destruct (line_version line) as [v|] eqn:Ev.
    + destruct (IH (S start) (Some start) (Some v))
        as [(Hi & Hl & Hall)|(j & l & v' & Hj & Hv & Hall & Hi & Hl)].
      * right. exists 0%nat, line, v. rewrite Nat.add_0_r.
        repeat split; assumption.
      * right. exists (S j), l, v'.
        replace (start + S j)%nat with (S start + j)%nat by lia.
        repeat split; assumption.
    + destruct (IH (S start) found_idx found)
        as [(Hi & Hl & Hall)|(j & l & v' & Hj & Hv & Hall & Hi & Hl)].
      * left. repeat split; try assumption. constructor; assumption.
      * right. exists (S j), l, v'.
        replace (start + S j)%nat with (S start + j)%nat by lia.
        repeat split; assumption.
Qed.

(** The version line a selected block points the writer to. *)
Lemma block_version_line lines b i :
  In b (blocks lines 0) -> block_version_idx b = Some i ->
  exists l v,
    lines !! i = Some l /\ line_version l = Some v
    /\ block_version (snd b) = Some v.
Proof.
  intros Hin Hi. unfold block_version_idx in Hi.
  destruct (blocks_lookup _ _ _ Hin) as (k & Hk & Hl). cbn in Hk.
  destruct (scan_version_spec_joint (snd b) (fst b) None None)
    as [(Hi' & _)|(j & l & v & Hj & Hv & _ & Hi' & Hlast)].
  - congruence.
  - exists l, v. repeat split; try assumption.
    rewrite Hi' in Hi. injection Hi as <-. rewrite Hk. apply Hl, Hj.
Qed.

Lemma block_version_none lines b :
  In b (blocks lines 0) -> block_version_idx b = None ->
  block_version (snd b) = None.
Proof.
  intros Hin Hi. unfold block_version_idx in Hi.
  destruct (scan_version_spec_joint (snd b) (fst b) None None)
    as [(_ & Hl & _)|(j & l & v & _ & _ & _ & Hi' & _)].
  - exact Hl.
  - congruence.
Qed.

Lemma select_block_in package_name lines b :
  select_block package_name lines = Some b -> In b (blocks lines 0).
Proof.
  intros H. unfold select_block in H.
  apply find_first in H as (_ & before & after & -> & _).
  apply in_or_app. right. left. reflexivity.
Qed.

(** A line on which the lock scans find a version has the anatomy of a
    version line, and nothing but whitespace after the closing quote. *)
Lemma lock_version_line l v :
  line_ok l -> line_version l = Some v ->
  exists lead K rest t e,
    version_line l lead K v rest t e /\ all_space rest
    /\ strip l = K ++ v ++ [DQUOTE].
Proof.
  intros Hok Hv. unfold line_version, lock_value in Hv.
  destruct (after_key _ (strip l)) as [s|] eqn:Ek; [|discriminate].
  destruct (quoted_value s) as [[v' rest]|] eqn:Eq; [|discriminate].
  destruct (at_eol rest) eqn:Ee; [|discriminate]. injection Hv as ->.
  apply after_key_decomp in Ek as (K & Hk & HK).
  apply quoted_value_Some in Eq as (Hs & Hne & Hq).
  assert (Hstrip : strip l = strip (line_content l)).
  { rewrite (line_parts l) at 1. apply strip_app_space.
    apply terminator_space, Hok. }
  assert (Hrest : rest = []).
  { destruct rest as [|c [|? ?]]; [reflexivity | | discriminate].
    cbn in Ee. apply N.eqb_eq in Ee. subst c.
    assert (isspace LF = false); [|discriminate].
    apply (strip_last l (K ++ v ++ [DQUOTE])).
    rewrite Hk, Hs. rewrite <- !app_assoc. reflexivity. }
  subst rest.
  destruct (strip_decomp (line_content l))
    as (lead & trail & Hc & Hlead & Htrail & _).
  destruct (split_line_ending_spec l Hok)
    as (t & e & Hsp & Hterm & Ht & Hnl & He & Hts).
  assert (Hcontent : line_content l = lead ++ K ++ v ++ DQUOTE :: trail).
  { rewrite Hc at 1. rewrite <- Hstrip, Hk, Hs. rewrite <- !app_assoc.
    reflexivity. }
  exists lead, K, trail, t, e. split; [|split; [assumption|]].
  - unfold version_line. repeat split; try assumption.
    + rewrite (line_parts l) at 1. rewrite Hcontent, Hterm.
      rewrite <- !app_assoc. reflexivity.
    + apply HK.
    + apply HK.
    + rewrite <- Hcontent. apply line_content_nonbreak.
    + rewrite <- Hterm. apply Hok.
  - rewrite Hk, Hs. reflexivity.
Qed.

(** Where the detection pattern matches a line, the rewrite pattern
    matches its body. *)
Lemma detected_line_rewrites l :
  line_ok l ->
  re_match LOCK_VERSION_DETECT_RE (strip l) <> None ->
  re_match VERSION_LINE_RE (fst (split_line_ending l)) <> None.
Proof.
  intros Hok Hd. rewrite re_match_lock_version_detect in Hd.
  destruct (lock_value (lit "version") (strip l)) as [v|] eqn:Ev;
    [|contradiction].
  destruct (lock_version_line l v Hok Ev)
    as (lead & K & rest & t & e & Hvl & _).
  apply version_line_rewrite in Hvl as [Hsp Hparts].
  rewrite Hsp. cbn [fst]. rewrite re_match_version_line, Hparts. discriminate.
Qed.

(** The line a writer puts in the place of a version line. *)
Lemma rewritten_line l lead K v rest t e new_version :
  version_line l lead K v rest t e ->
  exists m,
    split_line_ending l = (lead ++ K ++ v ++ DQUOTE :: rest ++ t, e)
    /\ re_match VERSION_LINE_RE (lead ++ K ++ v ++ DQUOTE :: rest ++ t)
       = Some m
    /\ group_text m 2 = v
    /\ group_text m 1 ++ new_version ++ group_text m 3 ++ e
       = lead ++ K ++ new_version ++ DQUOTE :: rest ++ t ++ e.
Proof.
  intros Hvl. apply version_line_rewrite in Hvl as [Hsp Hparts].
  eexists. split; [exact Hsp|]. rewrite re_match_version_line, Hparts.
  cbn [option_map]. split; [reflexivity|]. split; [reflexivity|].
  cbn. rewrite <- !app_assoc. reflexivity.
Qed.

Lemma rewrite_lock_line_spec (lines : list str) i (l : str)
    lead K v rest t e new_version :
  lines !! i = Some l -> version_line l lead K v rest t e ->
  rewrite_lock_line lines i new_version
  = if str_eqb v new_version then Ok None
    else Ok (Some (concat
           (<[i := lead ++ K ++ new_version ++ DQUOTE :: rest ++ t ++ e]>
              lines))).
Proof.
  intros Hi Hvl.
  destruct (rewritten_line _ _ _ _ _ _ _ new_version Hvl)
    as (m & Hsp & Hm & H2 & Hline).
  unfold rewrite_lock_line. rewrite Hi. cbn [default from_option id].
  rewrite Hsp, Hm, H2.
  rewrite Hline. reflexivity.
Qed.

(** C10. The [Unexpected lockfile version format] error of
    [write_lock_package_version] cannot be raised: on every line of the
    file on which the detection pattern matches the stripped line, the
    rewrite pattern matches the line body that [split_line_ending]
    returns, and so the writer never returns that error, whatever the
    file, the package name and the version. *)
Theorem unexpected_format_unreachable
    (pf : platform) (raw package_name new_version : str) :
  (forall i line,
     splitlines true (read_file raw) !! i = Some line ->
     re_match LOCK_VERSION_DETECT_RE (strip line) <> None ->
     re_match VERSION_LINE_RE (fst (split_line_ending line)) <> None)
  /\ (forall lineno,
        write_lock_package_version pf raw package_name new_version
        <> Err (UnexpectedLockfileFormat lineno)).
Proof.
  split.
  - intros i line Hi. apply detected_line_rewrites.
    eapply splitlines_ok, Hi.
  - intros lineno. unfold write_lock_package_version, write_lock_content.
    rewrite (write_lock_loop_spec _ _ _ _ 0).
    fold (select_block package_name (splitlines true (read_file raw))).
    destruct (select_block _ _) as [b|] eqn:Eb; [|discriminate].
    cbn [write_selected].
    destruct (block_version_idx b) as [i|] eqn:Ei; [|discriminate].
    apply select_block_in in Eb.
    destruct (block_version_line _ _ _ Eb Ei) as (l & v & Hl & Hv & _).
    destruct (lock_version_line l v (splitlines_ok _ _ _ Hl) Hv)
      as (lead & K & rest & t & e & Hvl & _).
    rewrite (rewrite_lock_line_spec _ _ _ _ _ _ _ _ _ _ Hl Hvl).
    destruct (str_eqb v new_version); discriminate.
Qed.

(** The writer on the sample lockfile does not fail in that way. *)
Lemma unexpected_format_unreachable_witness :
  write_lock_package_version Posix sample_lock (lit "opencode-studio")
    (lit "0.2.0")
  <> Err (UnexpectedLockfileFormat 0).
Proof.
  exact (proj2 (unexpected_format_unreachable Posix sample_lock
                  (lit "opencode-studio") (lit "0.2.0")) 0%nat).
Defined.

(** ** Key-value manifests *)

Lemma strip_line_content l : line_ok l -> strip (line_content l) = strip l.
Proof.
  intros [_ Ht]. rewrite (line_parts l) at 2. symmetry.
  apply strip_app_space, terminator_space, Ht.
Qed.

Lemma read_toml_loop_spec lines idx in_package :
  Forall line_ok lines ->
  read_toml_loop (map line_content lines) in_package
  = match toml_find lines idx in_package with
    | Some (_, v) => Ok v
    | None => Err CannotFindPackageVersion
    end.
Proof.
  intros Hok. revert idx in_package.
  induction Hok as [|line lines Hl _ IH]; intros idx in_package;
    [reflexivity|].
  cbn [map read_toml_loop toml_find].
  rewrite strip_line_content by assumption.
  destruct (is_section_header (strip line)); [apply IH|].
  destruct in_package; cbn [negb]; [|apply IH].
  rewrite re_match_toml_version.
  destruct (toml_version_value (line_content line)) as [v|];
    [reflexivity | apply IH].
Qed.

Lemma toml_find_lookup lines idx in_package i v :
  toml_find lines idx in_package = Some (i, v) ->
  exists j l,
    i = (idx + j)%nat /\ lines !! j = Some l
    /\ toml_version_value (line_content l) = Some v.
Proof.
  revert idx in_package. induction lines as [|line lines IH];
    intros idx in_package; [discriminate|].
  cbn [toml_find].
  assert (Hrec : forall b, toml_find lines (S idx) b = Some (i, v) ->
          exists j l, i = (idx + j)%nat /\ (line :: lines) !! j = Some l
            /\ toml_version_value (line_content l) = Some v).
  { intros b H. destruct (IH _ _ H) as (j & l & -> & Hj & Hv).
    exists (S j), l. split; [lia | split; assumption]. }
  destruct (is_section_header (strip line)); [apply Hrec|].
  destruct in_package; cbn [negb]; [|apply Hrec].
  destruct (toml_version_value (line_content line)) as [v'|] eqn:Ev;
    [|apply Hrec].
  intros [= <- <-]. exists 0%nat, line. split; [lia | split; auto].
Qed.

Lemma write_toml_loop_spec all lines idx in_package new_version :
  Forall line_ok lines ->
  (forall j l, lines !! j = Some l -> all !! (idx + j)%nat = Some l) ->
  write_toml_loop all lines idx in_package new_version
  = match toml_find lines idx in_package with
    | Some (i, _) => rewrite_lock_line all i new_version
    | None => Err CannotUpdatePackageVersion
    end.
Proof.
  intros Hok. revert idx in_package.
  induction Hok as [|line lines Hl _ IH]; intros idx in_package Hall;
    [reflexivity|].
  assert (Hall' : forall j l, lines !! j = Some l ->
            all !! (S idx + j)%nat = Some l).
  { intros j l Hj. replace (S idx + j)%nat with (idx + S j)%nat by lia.
    apply Hall. exact Hj. }
  cbn [write_toml_loop toml_find].
  destruct (is_section_header (strip line)); [apply IH, Hall'|].
  destruct in_package; cbn [negb]; [|apply IH, Hall'].
  destruct (toml_version_value (line_content line)) as [v|] eqn:Ev.
  - destruct (toml_version_line line v Hl Ev) as (lead & K & rest & t & e & Hvl).
    assert (Hi : all !! idx = Some line).
    { rewrite <- (Nat.add_0_r idx). apply Hall. reflexivity. }
    rewrite (rewrite_lock_line_spec _ _ _ _ _ _ _ _ _ _ Hi Hvl).
    destruct (rewritten_line _ _ _ _ _ _ _ new_version Hvl)
      as (m & Hsp & Hm & H2 & Hline).
    rewrite Hsp, Hm, H2, Hline. reflexivity.
  - pose proof (toml_no_version_line line Hl Ev) as Hnone.
    destruct (split_line_ending line) as [body ending]. cbn [fst] in Hnone.
    rewrite Hnone. apply IH, Hall'.
Qed.

(** ** What a match consumes *)

Lemma star_alphabet {R : Type} p s caps (k : @kont R) x :
  star p s caps k = Some x ->
  exists pre rest,
    s = pre ++ rest /\ Forall (fun c => p c = true) pre
    /\ k rest caps = Some x.
Proof.
  induction s as [|c s IH]; cbn [star].
  - intros H. exists [], []. repeat split; [constructor | exact H].
  - destruct (p c) eqn:Ec.
    + destruct (star p s caps k) as [y|] eqn:Es.
      * intros [= ->]. destruct (IH eq_refl) as (pre & rest & -> & Hp & Hk).
        exists (c :: pre), rest. repeat split; [constructor|]; assumption.
      * intros H. exists [], (c :: s). repeat split; [constructor | exact H].
    + intros H. exists [], (c :: s). repeat split; [constructor | exact H].
Qed.

Lemma run_alphabet {R : Type} n0 r s caps (k : @kont R) x :
  run n0 r s caps k = Some x ->
  exists pre rest caps',
    s = pre ++ rest /\ Forall (fun c => alphabet r c = true) pre
    /\ k rest caps' = Some x.
Proof.
  revert s caps k.
  induction r as [| | l | p | p | r1 IH1 r2 IH2 | r1 IH1 r2 IH2 | r IH | n r IH];
    intros s caps k; cbn [run alphabet].
  - destruct (Nat.eqb (length s) n0); [|discriminate].
    intros H. exists [], s, caps. repeat split; [constructor | exact H].
  - intros H. exists [], s, caps. repeat split; [constructor|].
    destruct s as [|c [|c' s]]; [exact H | | discriminate].
    destruct (c =? LF); [exact H | discriminate].
  - destruct (strip_prefix l s) as [s'|] eqn:E; [|discriminate].
    intros H. apply strip_prefix_Some in E. exists l, s', caps.
    repeat split; [assumption | | exact H].
    apply Forall_forall. intros c Hc. apply existsb_exists. exists c.
    split; [apply list_elem_of_In, Hc | apply N.eqb_refl].
  - destruct s as [|c s]; [discriminate|].
    destruct (p c) eqn:Ec; [|discriminate].
    intros H. exists [c], s, caps.
    repeat split; [repeat constructor; assumption | exact H].
  - intros H. apply star_alphabet in H as (pre & rest & -> & Hp & Hk).
    exists pre, rest, caps. repeat split; assumption.
  - intros H. apply IH1 in H as (pre1 & rest1 & caps1 & -> & Hp1 & H).
    apply IH2 in H as (pre2 & rest2 & caps2 & -> & Hp2 & H).
    exists (pre1 ++ pre2), rest2, caps2. rewrite <- app_assoc.
    repeat split; [|exact H]. apply Forall_app. split.
    + eapply Forall_impl; [exact Hp1|]. intros c Hc. cbn beta. rewrite Hc.
      reflexivity.
    + eapply Forall_impl; [exact Hp2|]. intros c Hc. cbn beta. rewrite Hc.
      apply orb_true_r.
  - destruct (run n0 r1 s caps k) as [y|] eqn:E1.
    + intros [= ->]. apply IH1 in E1 as (pre & rest & caps' & -> & Hp & H).
      exists pre, rest, caps'. repeat split; [|exact H].
      eapply Forall_impl; [exact Hp|]. intros c Hc. cbn beta. rewrite Hc.
      reflexivity.
    + intros H. apply IH2 in H as (pre & rest & caps' & -> & Hp & H).
      exists pre, rest, caps'. repeat split; [|exact H].
      eapply Forall_impl; [exact Hp|]. intros c Hc. cbn beta. rewrite Hc.
      apply orb_true_r.
  - destruct (run n0 r s caps k) as [y|] eqn:E1.
    + intros [= ->]. apply IH in E1. exact E1.
    + intros H. exists [], s, caps. repeat split; [constructor | exact H].
  - intros H. apply IH in H as (pre & rest & caps' & -> & Hp & H).
    eexists pre, rest, _. repeat split; [assumption | exact H].
Qed.

Lemma fullmatch_alphabet r s :
  re_fullmatch r s <> None -> Forall (fun c => alphabet r c = true) s.
Proof.
  unfold re_fullmatch. intros H.
  destruct (run _ r s [] _) as [x|] eqn:E; [|contradiction].
  apply run_alphabet in E as (pre & rest & caps' & -> & Hp & Hk).
  destruct rest; [|discriminate]. rewrite app_nil_r. exact Hp.
Qed.

Lemma semver_alphabet c : alphabet SEMVER_RE c = true -> semver_char c = true.
Proof.
  unfold SEMVER_RE, SEMVER_PATTERN, numeric, Plus.
  change (lit "0") with [48]. change (lit ".") with [46].
  change (lit "-") with [45]. change (lit "+") with [43].
  cbn [alphabet existsb].
  unfold semver_char. intros H. rewrite ?orb_false_r in H. cbn [orb] in H.
  char_arith.
Qed.

(** A semantic version is not empty and made of letters, digits, dots,
    dashes and plus signs. *)
Lemma semver_chars v :
  is_semver v = true -> v <> [] /\ Forall (fun c => semver_char c = true) v.
Proof.
  unfold is_semver. intros H. split.
  - intros ->. discriminate.
  - eapply Forall_impl.
    + apply (fullmatch_alphabet SEMVER_RE).
      destruct (re_fullmatch SEMVER_RE v); [discriminate | discriminate].
    + apply semver_alphabet.
Qed.

Lemma semver_char_notquote c : semver_char c = true -> notquote c = true.
Proof. unfold semver_char. intros H. char_arith. Qed.

Lemma semver_char_nonbreak c : semver_char c = true -> is_linebreak c = false.
Proof. unfold semver_char. intros H. char_arith. Qed.

Lemma semver_char_nonspace c : semver_char c = true -> isspace c = false.
Proof. unfold semver_char. intros H. char_arith. Qed.

Lemma semver_char_no_cr c : semver_char c = true -> c <> CR.
Proof. unfold semver_char. intros H. char_arith. Qed.

(** ** Reading and writing files *)

Lemma read_file_no_cr raw : no_cr (read_file raw).
Proof.
  unfold read_file.
  induction raw as [| s IH | s H IH | c s Hc Hb IH | c s Hb IH]
    using splitlines_ind.
  - constructor.
  - cbn. constructor; [discriminate | assumption].
  - cbn [universal_newlines]. rewrite N.eqb_refl.
    constructor; [discriminate|].
    destruct s as [|c s]; [constructor|].
    destruct (N.eqb_spec c LF) as [->|_]; [cbn in H; congruence | assumption].
  - cbn [universal_newlines].
    destruct (N.eqb_spec c CR) as [->|_]; [congruence|].
    constructor; assumption.
  - cbn [universal_newlines].
    destruct (N.eqb_spec c CR) as [->|Hne]; [discriminate|].
    constructor; assumption.
Qed.

(** What [write_file] wrote is what [read_file] reads back, on either
    platform, as long as the text holds no carriage return. *)
Lemma read_write_file pf s : no_cr s -> read_file (write_file pf s) = s.
Proof.
  unfold read_file. induction 1 as [|c s Hc _ IH]; [reflexivity|].
  cbn [write_file]. destruct (N.eqb_spec c LF) as [->|Hlf].
  - destruct pf; cbn; rewrite IH; reflexivity.
  - cbn [app universal_newlines].
    destruct (N.eqb_spec c CR) as [->|_]; [congruence|]. rewrite IH.
    reflexivity.
Qed.

Lemma no_cr_concat (ls : list str) : no_cr (concat ls) <-> Forall no_cr ls.
Proof.
  induction ls as [|l ls IH]; cbn [concat].
  - split; constructor.
  - rewrite Forall_app, Forall_cons, IH. reflexivity.
Qed.

(** ** Version lines and their replacement *)

Lemma line_split_unique content term :
  Forall (fun c => is_linebreak c = false) content ->
  is_terminator term = true ->
  line_content (content ++ term) = content
  /\ line_terminator (content ++ term) = term.
Proof.
  intros Hc Ht.
  assert (Hc' : Forall (fun c => nonbreak c = true) content).
  { eapply Forall_impl; [exact Hc|]. intros c H. unfold nonbreak.
    rewrite H. reflexivity. }
  unfold line_content, line_terminator.
  rewrite take_while_app, drop_while_app by assumption.
  destruct (terminator_cases _ Ht) as [->|[->|(c & -> & Hb)]].
  - rewrite app_nil_r. split; reflexivity.
  - cbn. rewrite app_nil_r. split; reflexivity.
  - cbn. unfold nonbreak. rewrite Hb. cbn. rewrite app_nil_r.
    split; reflexivity.
Qed.

Lemma version_line_content l lead K v rest t e :
  version_line l lead K v rest t e ->
  line_content l = lead ++ K ++ v ++ DQUOTE :: rest
  /\ line_terminator l = t ++ e
  /\ line_ok l.
Proof.
  intros (Hl & Hlead & HK & Hv & Hq & Hb & Hterm & Ht & Hnl & He & Hsplit).
  destruct (line_split_unique _ _ Hb Hterm) as [Hc Htm].
  assert (Hl' : l = (lead ++ K ++ v ++ DQUOTE :: rest) ++ t ++ e).
  { rewrite Hl. rewrite <- !app_assoc, <- !app_comm_cons. reflexivity. }
  rewrite <- Hl' in Hc, Htm. repeat split; try assumption.
  - rewrite Hl. destruct (key_prefix_head K HK) as (r & ->).
    destruct lead; discriminate.
  - rewrite Htm. exact Hterm.
Qed.

(** The line with another value is a version line of the same anatomy. *)
Lemma version_line_replace l lead K v rest t e V :
  version_line l lead K v rest t e ->
  V <> [] -> Forall (fun c => semver_char c = true) V ->
  version_line (lead ++ K ++ V ++ DQUOTE :: rest ++ t ++ e) lead K V rest t e.
Proof.
  intros (Hl & Hlead & HK & Hv & Hq & Hb & Hterm & Ht & Hnl & He & Hsplit)
    HV HVc.
  unfold version_line. repeat split; try assumption.
  - apply HK.
  - apply HK.
  - eapply Forall_impl; [exact HVc|]. apply semver_char_notquote.
  - rewrite !Forall_app in *. destruct Hb as (H1 & H2 & _ & H4).
    repeat split; try assumption.
    eapply Forall_impl; [exact HVc|]. apply semver_char_nonbreak.
Qed.

Lemma version_line_head l lead K v rest t e :
  version_line l lead K v rest t e -> head l = head (lead ++ K).
Proof.
  intros (Hl & _ & HK & _). rewrite Hl.
  destruct (key_prefix_head K HK) as (r & ->).
  destruct lead; reflexivity.
Qed.

Lemma version_line_value l lead K v rest t e :
  version_line l lead K v rest t e ->
  toml_version_value (line_content l) = Some v.
Proof.
  intros Hvl. destruct (version_line_content _ _ _ _ _ _ _ Hvl) as (Hc & _).
  destruct Hvl as (Hl & Hlead & HK & Hv & Hq & _).
  rewrite Hc. unfold toml_version_value.
  rewrite lstrip_version_line by assumption.
  destruct HK as [HK _]. rewrite HK.
  rewrite quoted_value_build by assumption. reflexivity.
Qed.

Lemma version_line_strip_head l lead K v rest t e :
  version_line l lead K v rest t e -> exists r, strip l = 118 :: r.
Proof.
  intros (Hl & Hlead & HK & _). rewrite Hl.
  rewrite strip_space_app by assumption.
  destruct (key_prefix_head K HK) as (r & ->).
  unfold strip. rewrite <- app_comm_cons.
  rewrite lstrip_nonspace by reflexivity.
  rewrite rstrip_head by reflexivity. eexists. reflexivity.
Qed.

Lemma version_line_not_header l lead K v rest t e :
  version_line l lead K v rest t e -> is_section_header (strip l) = false.
Proof.
  intros Hvl. destruct (version_line_strip_head _ _ _ _ _ _ _ Hvl) as (r & ->).
  reflexivity.
Qed.

Lemma version_line_not_marker l lead K v rest t e :
  version_line l lead K v rest t e -> is_marker l = false.
Proof.
  intros Hvl. unfold is_marker.
  destruct (version_line_strip_head _ _ _ _ _ _ _ Hvl) as (r & ->).
  reflexivity.
Qed.

Lemma version_line_no_name l lead K v rest t e :
  version_line l lead K v rest t e ->
  line_name l = None /\ line_is_source l = false.
Proof.
  intros Hvl. unfold line_name, line_is_source.
  destruct (version_line_strip_head _ _ _ _ _ _ _ Hvl) as (r & ->).
  split; reflexivity.
Qed.

Lemma version_line_lock_value l lead K v rest t e :
  version_line l lead K v rest t e -> all_space rest ->
  line_version l = Some v.
Proof.
  intros (Hl & Hlead & HK & Hv & Hq & Hb & Hterm & Ht & Hnl & He & _) Hrest.
  unfold line_version. rewrite Hl.
  rewrite strip_space_app by assumption.
  replace (K ++ v ++ DQUOTE :: rest ++ t ++ e)
    with ((K ++ v ++ [DQUOTE]) ++ rest ++ t ++ e)
    by (rewrite <- !app_assoc; reflexivity).
  rewrite strip_app_space by (rewrite !Forall_app; auto).
  destruct (key_prefix_head K HK) as (r & HKr).
  assert (Hs : strip (K ++ v ++ [DQUOTE]) = K ++ v ++ [DQUOTE]).
  { rewrite HKr.
    cbn [app]. rewrite !app_assoc. apply strip_core; reflexivity. }
  rewrite Hs. unfold lock_value. destruct HK as [HK _]. rewrite HK.
  rewrite quoted_value_build by assumption. reflexivity.
Qed.

(** The file after a surgical write, read again: the same lines, but for
    the one that was replaced. *)
Lemma reread_lines pf raw i (l : str) lead K v rest t e V :
  splitlines true (read_file raw) !! i = Some l ->
  version_line l lead K v rest t e ->
  V <> [] -> Forall (fun c => semver_char c = true) V ->
  let l' := lead ++ K ++ V ++ DQUOTE :: rest ++ t ++ e in
  let lines' := <[i := l']> (splitlines true (read_file raw)) in
  version_line l' lead K V rest t e
  /\ read_file (write_file pf (concat lines')) = concat lines'
  /\ splitlines true (concat lines') = lines'
  /\ Forall line_ok lines'.
Proof.
  intros Hi Hvl HV HVc l' lines'.
  pose proof (version_line_replace _ _ _ _ _ _ _ V Hvl HV HVc) as Hvl'.
  fold l' in Hvl'.
  assert (Hwf : wf_lines lines').
  { eapply wf_lines_insert; [apply wf_lines_splitlines | exact Hi | | |].
    - destruct (version_line_content _ _ _ _ _ _ _ Hvl') as (_ & _ & [H _]).
      exact H.
    - rewrite (version_line_head _ _ _ _ _ _ _ Hvl').
      rewrite (version_line_head _ _ _ _ _ _ _ Hvl). reflexivity.
    - destruct (version_line_content _ _ _ _ _ _ _ Hvl') as (_ & -> & _).
      destruct (version_line_content _ _ _ _ _ _ _ Hvl) as (_ & -> & _).
      reflexivity. }
  split; [exact Hvl'|]. split; [|split].
  - apply read_write_file. apply no_cr_concat.
    pose proof (read_file_no_cr raw) as Hraw.
    rewrite <- (concat_splitlines (read_file raw)) in Hraw.
    apply no_cr_concat in Hraw.
    apply Forall_insert; [exact Hraw|].
    rewrite Forall_lookup in Hraw. specialize (Hraw _ _ Hi).
    destruct Hvl as (Hl & _). rewrite Hl in Hraw. unfold l'.
    rewrite !Forall_app, !Forall_cons, !Forall_app in *.
    destruct Hraw as (H1 & H2 & _ & H4 & H5 & H6 & H7).
    repeat split; try assumption.
    eapply Forall_impl; [exact HVc|]. apply semver_char_no_cr.
  - apply splitlines_concat, Hwf.
  - apply wf_lines_ok, Hwf.
Qed.

Lemma toml_find_bound lines idx in_package i v :
  toml_find lines idx in_package = Some (i, v) -> (idx <= i)%nat.
Proof.
  intros H. apply toml_find_lookup in H as (j & l & -> & _). lia.
Qed.

Lemma toml_find_insert lines idx in_package i v l' v' :
  toml_find lines idx in_package = Some (i, v) ->
  is_section_header (strip l') = false ->
  toml_version_value (line_content l') = Some v' ->
  toml_find (<[(i - idx)%nat := l']> lines) idx in_package = Some (i, v').
Proof.
  intros Hf Hh Hv'. revert idx in_package Hf.
  induction lines as [|line lines IH]; intros idx in_package; [discriminate|].
  cbn [toml_find].
  destruct (is_section_header (strip line)) eqn:Eh.
  - intros H. pose proof (toml_find_bound _ _ _ _ _ H) as Hb.
    replace (i - idx)%nat with (S (i - S idx)) by lia.
    cbn [list_insert insert toml_find]. rewrite Eh. apply IH, H.
  - destruct in_package; cbn [negb].
    + destruct (toml_version_value (line_content line)) as [v0|] eqn:Ev.
      * intros [= <- <-]. rewrite Nat.sub_diag.
        cbn [list_insert insert toml_find]. rewrite Hh, Hv'. reflexivity.
      * intros H. pose proof (toml_find_bound _ _ _ _ _ H) as Hb.
        replace (i - idx)%nat with (S (i - S idx)) by lia.
        cbn [list_insert insert toml_find]. rewrite Eh, Ev. apply IH, H.
    + intros H. pose proof (toml_find_bound _ _ _ _ _ H) as Hb.
      replace (i - idx)%nat with (S (i - S idx)) by lia.
      cbn [list_insert insert toml_find]. rewrite Eh. apply IH, H.
Qed.

(** What the manifest handlers do, by the first version line of the
    package section. *)
Lemma read_toml_spec raw :
  read_toml_package_version raw
  = match toml_find (splitlines true (read_file raw)) 0 false with
    | Some (_, v) => Ok v
    | None => Err CannotFindPackageVersion
    end.
Proof.
  unfold read_toml_package_version. rewrite splitlines_contents.
  apply read_toml_loop_spec, wf_lines_ok, wf_lines_splitlines.
Qed.

Lemma write_toml_spec raw new_version :
  write_toml_content (read_file raw) new_version
  = match toml_find (splitlines true (read_file raw)) 0 false with
    | Some (i, _) =>
        rewrite_lock_line (splitlines true (read_file raw)) i new_version
    | None => Err CannotUpdatePackageVersion
    end.
Proof.
  unfold write_toml_content. apply write_toml_loop_spec.
  - apply wf_lines_ok, wf_lines_splitlines.
  - intros j l Hj. exact Hj.
Qed.

(** ** The reader and the writer see the same blocks

    The reader scans the lines without their terminators, the writer the
    lines with them; marker, name, version and source are read off the
    stripped line, which is the same in both. *)

Section SameStrip.
Variable g : str -> str.

Lemma block_body_map lines :
  same_strip g lines -> block_body (map g lines) = map g (block_body lines).
Proof.
  unfold block_body, not_marker, marker_line.
  induction 1 as [|l lines Hl _ IH]; [reflexivity|].
  cbn [map take_while]. rewrite Hl.
  destruct (negb _); [|reflexivity]. cbn [map]. rewrite IH. reflexivity.
Qed.

Lemma block_body_same lines :
  same_strip g lines -> same_strip g (block_body lines).
Proof.
  unfold block_body. induction 1 as [|l lines Hl _ IH]; [constructor|].
  cbn [take_while]. destruct (not_marker l); constructor; assumption.
Qed.

Lemma scan_last_map {A : Type} (f : str -> option A) body found :
  (forall l, strip (g l) = strip l -> f (g l) = f l) ->
  same_strip g body -> scan_last f (map g body) found = scan_last f body found.
Proof.
  intros Hf Hb. revert found. unfold scan_last.
  induction Hb as [|l body Hl _ IH]; intros found; [reflexivity|].
  cbn [map fold_left]. rewrite (Hf l Hl). apply IH.
Qed.

Lemma scan_any_map (f : str -> bool) body found :
  (forall l, strip (g l) = strip l -> f (g l) = f l) ->
  same_strip g body -> scan_any f (map g body) found = scan_any f body found.
Proof.
  intros Hf Hb. revert found. unfold scan_any.
  induction Hb as [|l body Hl _ IH]; intros found; [reflexivity|].
  cbn [map fold_left]. rewrite (Hf l Hl). apply IH.
Qed.

Lemma line_name_same l : strip (g l) = strip l -> line_name (g l) = line_name l.
Proof. unfold line_name. intros ->. reflexivity. Qed.

Lemma line_version_same l :
  strip (g l) = strip l -> line_version (g l) = line_version l.
Proof. unfold line_version. intros ->. reflexivity. Qed.

Lemma line_is_source_same l :
  strip (g l) = strip l -> line_is_source (g l) = line_is_source l.
Proof. unfold line_is_source. intros ->. reflexivity. Qed.

Lemma read_selected_map package_name lines idx :
  same_strip g lines ->
  read_selected package_name
    (List.find (selectable package_name) (blocks (map g lines) idx))
  = read_selected package_name
      (List.find (selectable package_name) (blocks lines idx)).
Proof.
  intros Hs. revert idx.
  induction Hs as [|l lines Hl Hs IH]; intros idx; [reflexivity|].
  cbn [map blocks]. unfold marker_line at 1. rewrite Hl.
  fold (marker_line l). destruct (marker_line l); [|apply IH].
  cbn [List.find]. unfold selectable at 1 3. cbn [snd].
  unfold block_name, block_has_source. rewrite block_body_map by assumption.
  pose proof (block_body_same _ Hs) as Hb.
  rewrite (scan_last_map line_name) by (auto using line_name_same).
  rewrite (scan_any_map line_is_source) by (auto using line_is_source_same).
  destruct (_ && negb _); [|apply IH].
  cbn [read_selected snd]. unfold block_version.
  rewrite (scan_last_map line_version) by (auto using line_version_same).
  reflexivity.
Qed.
End SameStrip.

(** What the reader returns, by the blocks the writer sees. *)
Lemma read_lock_spec raw package_name :
  read_lock_package_version raw package_name
  = read_selected package_name
      (select_block package_name (splitlines true (read_file raw))).
Proof.
  unfold read_lock_package_version, read_lock_content.
  rewrite splitlines_contents. rewrite (read_lock_loop_spec _ _ 0).
  apply read_selected_map.
  eapply Forall_impl; [apply wf_lines_ok, wf_lines_splitlines|].
  intros l Hl. apply strip_line_content, Hl.
Qed.

Lemma write_lock_spec raw package_name new_version :
  write_lock_content (read_file raw) package_name new_version
  = write_selected (splitlines true (read_file raw)) package_name new_version
      (select_block package_name (splitlines true (read_file raw))).
Proof. apply write_lock_loop_spec. Qed.

(** ** Replacing the version line of a block *)

Lemma take_while_lookup {A : Type} (p : A -> bool) (s : list A) j x :
  take_while p s !! j = Some x -> s !! j = Some x.
Proof.
  intros H. rewrite <- (take_drop_while p s). apply lookup_app_l_Some, H.
Qed.

Lemma block_body_insert (lines : list str) j (l l' : str) :
  lines !! j = Some l -> is_marker l' = is_marker l ->
  block_body (<[j := l']> lines) = <[j := l']> (block_body lines).
Proof.
  unfold block_body, not_marker. change marker_line with is_marker. revert j.
  induction lines as [|x lines IH]; intros j Hj Hm; [discriminate|].
  destruct j as [|j]; cbn [list_insert insert take_while].
  - injection Hj as ->. rewrite Hm. destruct (negb (is_marker l)); reflexivity.
  - destruct (negb (is_marker x)); [|reflexivity].
    cbn [list_insert insert]. f_equal. apply IH; assumption.
Qed.

Lemma scan_last_insert {A : Type} (f : str -> option A) (body : list str)
    j (l' : str) found :
  (forall l, body !! j = Some l -> f l' = f l) ->
  scan_last f (<[j := l']> body) found = scan_last f body found.
Proof.
  unfold scan_last. revert j found.
  induction body as [|x body IH]; intros j found Hf; [reflexivity|].
  destruct j as [|j]; cbn [list_insert insert fold_left].
  - rewrite (Hf x eq_refl). reflexivity.
  - apply IH. intros l Hl. apply Hf. exact Hl.
Qed.

Lemma scan_any_insert (f : str -> bool) (body : list str) j (l' : str) found :
  (forall l, body !! j = Some l -> f l' = f l) ->
  scan_any f (<[j := l']> body) found = scan_any f body found.
Proof.
  unfold scan_any. revert j found.
  induction body as [|x body IH]; intros j found Hf; [reflexivity|].
  destruct j as [|j]; cbn [list_insert insert fold_left].
  - rewrite (Hf x eq_refl). reflexivity.
  - apply IH. intros l Hl. apply Hf. exact Hl.
Qed.

Lemma scan_last_none {A : Type} (f : str -> option A) body found :
  Forall (fun l => f l = None) body -> scan_last f body found = found.
Proof.
  unfold scan_last. intros H. revert found.
  induction H as [|x body Hx _ IH]; intros found; [reflexivity|].
  cbn [fold_left]. rewrite Hx. apply IH.
Qed.

Lemma scan_last_app {A : Type} (f : str -> option A) a b found :
  scan_last f (a ++ b) found = scan_last f b (scan_last f a found).
Proof. unfold scan_last. apply fold_left_app. Qed.

(** After the last version line of a block is replaced by a line with
    version [V], the version of the block is [V]. *)
Lemma block_version_insert (body : list str) start j (l' : str) V :
  scan_index body start None = Some (start + j)%nat ->
  line_version l' = Some V ->
  scan_last line_version (<[j := l']> body) None = Some V.
Proof.
  intros Hi HV.
  destruct (scan_version_spec_joint body start None None)
    as [(Hi' & _)|(j0 & l & v & Hj & Hv & Hall & Hi' & _)]; [congruence|].
  assert (j0 = j) as -> by (rewrite Hi' in Hi; injection Hi; lia).
  rewrite (insert_take_drop body j l') by (eapply lookup_lt_Some, Hj).
  rewrite scan_last_app.
  change (l' :: drop (S j) body) with ([l'] ++ drop (S j) body).
  rewrite scan_last_app. rewrite scan_last_none by assumption.
  unfold scan_last. cbn [fold_left]. rewrite HV. reflexivity.
Qed.

Lemma blocks_start lines idx b :
  In b (blocks lines idx) -> (S idx <= fst b)%nat.
Proof.
  revert idx. induction lines as [|line lines IH]; intros idx; [intros []|].
  cbn [blocks]. change marker_line with is_marker. destruct (is_marker line).
  - intros [<-|H]; [cbn; lia|]. apply IH in H. lia.
  - intros H. apply IH in H. lia.
Qed.

Lemma block_version_idx_bound b i :
  block_version_idx b = Some i -> (fst b <= i)%nat.
Proof.
  unfold block_version_idx. intros Hi.
  destruct (scan_version_spec_joint (snd b) (fst b) None None)
    as [(Hi' & _)|(j0 & l & v & _ & _ & _ & Hi' & _)]; [congruence|].
  rewrite Hi' in Hi. injection Hi. lia.
Qed.

Lemma find_in {A : Type} (f : A -> bool) l x :
  List.find f l = Some x -> In x l.
Proof.
  intros H. apply find_first in H as (_ & before & after & -> & _).
  apply in_or_app. right. left. reflexivity.
Qed.

(** Reading again after the version line of the selected block has been
    replaced by a line with version [V] gives [V]. *)
Lemma lock_reread package_name (lines : list str) idx b i (l l' : str) V :
  List.find (selectable package_name) (blocks lines idx) = Some b ->
  block_version_idx b = Some i ->
  lines !! (i - idx)%nat = Some l ->
  is_marker l = false -> is_marker l' = false ->
  line_name l' = line_name l ->
  line_is_source l' = line_is_source l ->
  line_version l' = Some V ->
  read_selected package_name
    (List.find (selectable package_name)
       (blocks (<[(i - idx)%nat := l']> lines) idx))
  = Ok V.
Proof.
  intros Hfind Hidx Hl Hm Hm' Hname Hsrc HV. revert idx Hfind Hl.
  induction lines as [|line lines IH]; intros idx Hfind Hl; [discriminate|].
  pose proof (blocks_start _ _ _ (find_in _ _ _ Hfind)) as Hstart.
  pose proof (block_version_idx_bound _ _ Hidx) as Hbound.
  replace (i - idx)%nat with (S (i - S idx)) in * by lia.
  cbn [list_insert insert blocks] in *. change marker_line with is_marker in *.
  change ((line :: lines) !! S (i - S idx)) with (lines !! (i - S idx)%nat) in Hl.
  destruct (is_marker line); [|apply IH; assumption].
  rewrite (block_body_insert _ _ l l') by (assumption || congruence).
  cbn [List.find] in *. unfold selectable at 1. unfold selectable at 1 in Hfind.
  cbn [snd] in *. unfold block_name, block_has_source in *.
  assert (Hsame : forall x, block_body lines !! (i - S idx)%nat = Some x ->
            x = l).
  { intros x Hx. apply take_while_lookup in Hx. congruence. }
  rewrite (scan_last_insert line_name)
    by (intros x Hx; rewrite (Hsame x Hx); exact Hname).
  rewrite (scan_any_insert line_is_source)
    by (intros x Hx; rewrite (Hsame x Hx); exact Hsrc).
  destruct (_ && negb _); [|apply IH; assumption].
  injection Hfind as <-. cbn [read_selected snd]. unfold block_version.
  unfold block_version_idx in Hidx. cbn [fst snd] in Hidx.
  rewrite (block_version_insert _ (S idx) _ _ V); [reflexivity | | exact HV].
  rewrite Hidx. f_equal. cbn [fst] in Hbound. lia.
Qed.

(** ** Dictionaries and JSON documents *)

Lemma dict_get_set {A : Type} (items : list (str * A)) key v :
  dict_get (dict_set items key v) key = Some v.
Proof.
  induction items as [|[k x] items IH]; cbn [dict_set dict_get].
  - rewrite str_eqb_refl. reflexivity.
  - destruct (str_eqb k key) eqn:E; cbn [dict_get]; rewrite E;
      [reflexivity | exact IH].
Qed.

Lemma dict_get_set_other {A : Type} (items : list (str * A)) key key' v :
  key <> key' -> dict_get (dict_set items key v) key' = dict_get items key'.
Proof.
  intros Hne. induction items as [|[k x] items IH]; cbn [dict_set dict_get].
  - apply str_eqb_neq in Hne. rewrite Hne. reflexivity.
  - destruct (str_eqb k key) eqn:E; cbn [dict_get].
    + apply str_eqb_eq in E. subst k.
      apply str_eqb_neq in Hne. rewrite Hne. reflexivity.
    + rewrite IH. reflexivity.
Qed.

Lemma json_is_str_true value text :
  json_is_str value text = true <-> value = Some (JStr text).
Proof.
  unfold json_is_str. destruct value as [[| | | | s | |]|]; try (split; discriminate).
  rewrite str_eqb_eq. split; [intros ->; reflexivity | intros [= ->]; reflexivity].
Qed.

Lemma rstrip_no_space s : no_space s -> rstrip s = s.
Proof.
  induction 1 as [|c s Hc _ IH]; [reflexivity|].
  rewrite rstrip_head by assumption. rewrite IH. reflexivity.
Qed.

Lemma strip_no_space s : no_space s -> strip s = s.
Proof.
  intros H. unfold strip, lstrip.
  destruct H as [|c s Hc Hs]; [reflexivity|].
  rewrite drop_while_stop by assumption.
  apply rstrip_no_space. constructor; assumption.
Qed.

Lemma semver_strip v : is_semver v = true -> strip v = v /\ v <> [].
Proof.
  intros H. apply semver_chars in H as [Hne Hc]. split; [|exact Hne].
  apply strip_no_space. eapply Forall_impl; [exact Hc|].
  apply semver_char_nonspace.
Qed.

Section JsonFacts.
Variable repr_container : json -> str.

(** Reading a version that is stored as a plain string. *)
Lemma read_json_version_str items s :
  dict_get items (lit "version") = Some (JStr s) ->
  strip s = s -> s <> [] ->
  read_json_version repr_container (JDict items) = Ok s.
Proof.
  intros Hget Hs Hne. unfold read_json_version. cbn [py_get bind].
  rewrite Hget. cbn [py_str]. rewrite Hs.
  destruct s; [congruence | reflexivity].
Qed.

Lemma read_package_lock_version_str items packages root s :
  dict_get items (lit "version") = Some (JStr s) ->
  dict_get items (lit "packages") = Some (JDict packages) ->
  dict_get packages [] = Some (JDict root) ->
  dict_get root (lit "version") = Some (JStr s) ->
  strip s = s -> s <> [] ->
  read_package_lock_version repr_container (JDict items) = Ok s.
Proof.
  intros Hv Hp Hr Hrv Hs Hne. unfold read_package_lock_version.
  cbn [py_get bind]. rewrite Hv, Hp. cbn [py_get bind]. rewrite Hr.
  cbn [py_get bind]. rewrite Hrv. cbn [py_str]. rewrite Hs.
  destruct s as [|c s]; [congruence|]. rewrite str_eqb_refl. reflexivity.
Qed.
End JsonFacts.

(** ** Writing, then reading *)

Lemma write_toml_then_read pf raw V r :
  is_semver V = true ->
  write_toml_package_version pf raw V = Ok r ->
  read_toml_package_version (snd r) = Ok V.
Proof.
  intros HV. destruct (semver_chars V HV) as [Hne Hc].
  unfold write_toml_package_version. rewrite write_toml_spec.
  destruct (toml_find _ 0 false) as [[i v]|] eqn:Ef; [|discriminate].
  destruct (toml_find_lookup _ _ _ _ _ Ef) as (j & l & Hij & Hl & Hv).
  cbn in Hij. subst j.
  destruct (toml_version_line l v (splitlines_ok _ _ _ Hl) Hv)
    as (lead & K & rest & t & e & Hvl).
  rewrite (rewrite_lock_line_spec _ _ _ _ _ _ _ _ _ _ Hl Hvl).
  destruct (str_eqb v V) eqn:E; cbn [written]; intros [= <-]; cbn [snd].
  - rewrite read_toml_spec, Ef. apply str_eqb_eq in E. congruence.
  - destruct (reread_lines pf raw i l lead K v rest t e V Hl Hvl Hne Hc)
      as (Hvl' & Hread & Hsplit & _).
    rewrite read_toml_spec, Hread, Hsplit.
    rewrite <- (Nat.sub_0_r i) at 1.
    rewrite (toml_find_insert _ _ _ _ _ _ V Ef); [reflexivity | |].
    + eapply version_line_not_header, Hvl'.
    + eapply version_line_value, Hvl'.
Qed.

Lemma write_lock_then_read pf raw package_name V r :
  is_semver V = true ->
  write_lock_package_version pf raw package_name V = Ok r ->
  read_lock_package_version (snd r) package_name = Ok V.
Proof.
  intros HV. destruct (semver_chars V HV) as [Hne Hc].
  unfold write_lock_package_version. rewrite write_lock_spec.
  destruct (select_block _ _) as [b|] eqn:Eb; [|discriminate].
  cbn [write_selected].
  destruct (block_version_idx b) as [i|] eqn:Ei; [|discriminate].
  destruct (block_version_line _ _ _ (select_block_in _ _ _ Eb) Ei)
    as (l & v & Hl & Hv & Hbv).
  destruct (lock_version_line l v (splitlines_ok _ _ _ Hl) Hv)
    as (lead & K & rest & t & e & Hvl & Hrest & _).
  rewrite (rewrite_lock_line_spec _ _ _ _ _ _ _ _ _ _ Hl Hvl).
  destruct (str_eqb v V) eqn:E; cbn [written]; intros [= <-]; cbn [snd].
  - rewrite read_lock_spec, Eb. cbn [read_selected]. rewrite Hbv.
    apply str_eqb_eq in E. congruence.
  - destruct (reread_lines pf raw i l lead K v rest t e V Hl Hvl Hne Hc)
      as (Hvl' & Hread & Hsplit & _).
    rewrite read_lock_spec, Hread, Hsplit. unfold select_block in *.
    rewrite <- (Nat.sub_0_r i) at 1. rewrite <- (Nat.sub_0_r i) in Hl.
    apply (lock_reread _ _ _ b i l); try assumption.
    + eapply version_line_not_marker, Hvl.
    + eapply version_line_not_marker, Hvl'.
    + destruct (version_line_no_name _ _ _ _ _ _ _ Hvl) as [-> _].
      destruct (version_line_no_name _ _ _ _ _ _ _ Hvl') as [-> _].
      reflexivity.
    + destruct (version_line_no_name _ _ _ _ _ _ _ Hvl) as [_ ->].
      destruct (version_line_no_name _ _ _ _ _ _ _ Hvl') as [_ ->].
      reflexivity.
    + eapply version_line_lock_value; [exact Hvl' | exact Hrest].
Qed.

Lemma write_json_then_read repr_container data V r :
  is_semver V = true ->
  write_json_version data V = Ok r ->
  read_json_version repr_container (default data r) = Ok V.
Proof.
  intros HV. destruct (semver_strip V HV) as [Hs Hne].
  unfold write_json_version. destruct data as [| | | | | |items]; try discriminate.
  destruct (json_is_str _ V) eqn:E; intros [= <-]; cbn [default from_option id].
  - apply json_is_str_true in E. apply read_json_version_str; assumption.
  - apply read_json_version_str; [apply dict_get_set | assumption..].
Qed.

Lemma write_package_lock_then_read repr_container data V r :
  is_semver V = true ->
  write_package_lock_version data V = Ok r ->
  read_package_lock_version repr_container (default data r) = Ok V.
Proof.
  intros HV. destruct (semver_strip V HV) as [Hs Hne].
  unfold write_package_lock_version.
  destruct data as [| | | | | |items]; try discriminate.
  set (items1 := if negb (json_is_str (dict_get items (lit "version")) V)
                 then dict_set items (lit "version") (JStr V) else items).
  assert (H1 : dict_get items1 (lit "version") = Some (JStr V)).
  { unfold items1. destruct (json_is_str _ V) eqn:E; cbn [negb].
    - apply json_is_str_true, E.
    - apply dict_get_set. }
  destruct (dict_get items1 (lit "packages")) as [[| | | | | |packages]|] eqn:Ep;
    try discriminate.
  destruct (dict_get packages []) as [[| | | | | |root]|] eqn:Er;
    try discriminate.
  set (root' := if negb (json_is_str (dict_get root (lit "version")) V)
                then dict_set root (lit "version") (JStr V) else root).
  assert (H2 : dict_get root' (lit "version") = Some (JStr V)).
  { unfold root'. destruct (json_is_str (dict_get root _) V) eqn:E; cbn [negb].
    - apply json_is_str_true, E.
    - apply dict_get_set. }
  destruct (negb (json_is_str (dict_get items _) V)
            || negb (json_is_str (dict_get root _) V)) eqn:Ech;
    intros [= <-]; cbn [default from_option id].
  - apply (read_package_lock_version_str _ _
             (dict_set packages [] (JDict root')) root'); try assumption.
    + rewrite dict_get_set_other by discriminate. exact H1.
    + apply dict_get_set.
    + apply dict_get_set.
  - apply orb_false_iff in Ech as [E1 E2].
    unfold items1 in *. rewrite E1 in *. unfold root' in *. rewrite E2 in *.
    apply (read_package_lock_version_str _ _ packages root); assumption.
Qed.

(** C3. For each of the four format handlers and every semantic version
    [V]: when the writer succeeds on a file, whether it reports a change
    or none, the reader on the file as it is afterwards returns [V]. For
    the two JSON handlers the file afterwards is the document handed to
    [json.dumps], or the document as it was when nothing is written. *)
Theorem write_then_read
    (pf : platform) (repr_container : json -> str) (V : str) :
  is_semver V = true ->
  (forall raw r,
     write_toml_package_version pf raw V = Ok r ->
     read_toml_package_version (snd r) = Ok V)
  /\ (forall raw package_name r,
        write_lock_package_version pf raw package_name V = Ok r ->
        read_lock_package_version (snd r) package_name = Ok V)
  /\ (forall data r,
        write_json_version data V = Ok r ->
        read_json_version repr_container (default data r) = Ok V)
  /\ (forall data r,
        write_package_lock_version data V = Ok r ->
        read_package_lock_version repr_container (default data r) = Ok V).
Proof.
  intros HV. repeat split.
  - intros raw r. apply write_toml_then_read, HV.
  - intros raw package_name r. apply write_lock_then_read, HV.
  - intros data r. apply write_json_then_read, HV.
  - intros data r. apply write_package_lock_then_read, HV.
Qed.

(** Version 0.2.0 written to the sample manifest is read back. *)
Lemma write_then_read_witness :
  is_semver (lit "0.2.0") = true
  /\ exists r,
       write_toml_package_version Posix sample_manifest (lit "0.2.0") = Ok r
       /\ read_toml_package_version (snd r) = Ok (lit "0.2.0").
Proof.
  split; [vm_compute; reflexivity|].
  eexists. split; [vm_compute; reflexivity|].
  apply (proj1 (write_then_read Posix no_repr (lit "0.2.0")
                  ltac:(vm_compute; reflexivity)) sample_manifest).
  vm_compute. reflexivity.
Defined.

(** ** Reading, then writing the value read *)

Lemma read_toml_then_write pf raw v :
  read_toml_package_version raw = Ok v ->
  write_toml_package_version pf raw v = Ok (false, raw).
Proof.
  rewrite read_toml_spec. unfold write_toml_package_version.
  rewrite write_toml_spec.
  destruct (toml_find _ 0 false) as [[i v']|] eqn:Ef; [|discriminate].
  intros [= ->].
  destruct (toml_find_lookup _ _ _ _ _ Ef) as (j & l & Hij & Hl & Hv).
  cbn in Hij. subst j.
  destruct (toml_version_line l v (splitlines_ok _ _ _ Hl) Hv)
    as (lead & K & rest & t & e & Hvl).
  rewrite (rewrite_lock_line_spec _ _ _ _ _ _ _ _ _ _ Hl Hvl).
  rewrite str_eqb_refl. reflexivity.
Qed.

Lemma read_lock_then_write pf raw package_name v :
  read_lock_package_version raw package_name = Ok v ->
  write_lock_package_version pf raw package_name v = Ok (false, raw).
Proof.
  rewrite read_lock_spec. unfold write_lock_package_version.
  rewrite write_lock_spec.
  destruct (select_block _ _) as [b|] eqn:Eb; [|discriminate].
  cbn [read_selected write_selected].
  destruct (block_version_idx b) as [i|] eqn:Ei.
  - destruct (block_version_line _ _ _ (select_block_in _ _ _ Eb) Ei)
      as (l & v' & Hl & Hv & Hbv).
    rewrite Hbv. intros [= ->].
    destruct (lock_version_line l v (splitlines_ok _ _ _ Hl) Hv)
      as (lead & K & rest & t & e & Hvl & _).
    rewrite (rewrite_lock_line_spec _ _ _ _ _ _ _ _ _ _ Hl Hvl).
    rewrite str_eqb_refl. reflexivity.
  - rewrite (block_version_none _ _ (select_block_in _ _ _ Eb) Ei).
    discriminate.
Qed.

(** C4, as the code has it. Writing back the value just read reports no
    change, writes nothing and leaves the file as it is: always for the
    key-value manifests and the named-block lock files; for a JSON
    document and a package-lock document when the stored version (for
    the package-lock document both stored versions) is the very string
    that was read, that is a JSON string without blanks around it. *)
Theorem read_then_write_no_change
    (pf : platform) (repr_container : json -> str) :
  (forall raw v,
     read_toml_package_version raw = Ok v ->
     write_toml_package_version pf raw v = Ok (false, raw))
  /\ (forall raw package_name v,
        read_lock_package_version raw package_name = Ok v ->
        write_lock_package_version pf raw package_name v = Ok (false, raw))
  /\ (forall items v,
        read_json_version repr_container (JDict items) = Ok v ->
        dict_get items (lit "version") = Some (JStr v) ->
        write_json_version (JDict items) v = Ok None)
  /\ (forall items packages root v,
        read_package_lock_version repr_container (JDict items) = Ok v ->
        dict_get items (lit "version") = Some (JStr v) ->
        dict_get items (lit "packages") = Some (JDict packages) ->
        dict_get packages [] = Some (JDict root) ->
        dict_get root (lit "version") = Some (JStr v) ->
        write_package_lock_version (JDict items) v = Ok None).
Proof.
  repeat split.
  - intros raw v. apply read_toml_then_write.
  - intros raw package_name v. apply read_lock_then_write.
  - intros items v _ Hv. unfold write_json_version.
    rewrite Hv. cbn [json_is_str]. rewrite str_eqb_refl. reflexivity.
  - intros items packages root v _ Hv Hp Hr Hrv.
    unfold write_package_lock_version.
    rewrite Hv. cbn [json_is_str]. rewrite str_eqb_refl. cbn [negb].
    rewrite Hp, Hr, Hrv. cbn [json_is_str]. rewrite str_eqb_refl.
    reflexivity.
Qed.

(** A use of the above on the sample files. *)
Lemma read_then_write_no_change_witness :
  write_toml_package_version Posix sample_manifest (lit "0.1.0")
  = Ok (false, sample_manifest)
  /\ write_json_version sample_document (lit "0.1.0") = Ok None.
Proof.
  split.
  - apply (proj1 (read_then_write_no_change Posix no_repr)).
    vm_compute. reflexivity.
  - apply (proj1 (proj2 (proj2 (read_then_write_no_change Posix no_repr)))
             [ (lit "name", JStr (lit "web"));
               (lit "version", JStr (lit "0.1.0")) ]).
    + vm_compute. reflexivity.
    + vm_compute. reflexivity.
Defined.

(** The specification's sentence fails on a JSON document whose version has
    blanks around it: the reader trims, the writer compares the stored
    string, finds it different and writes. *)
Lemma padded_version_is_rewritten :
  read_json_version no_repr padded_document = Ok (lit "0.1.0")
  /\ write_json_version padded_document (lit "0.1.0") <> Ok None.
Proof.
  split.
  - vm_compute. reflexivity.
  - vm_compute. discriminate.
Qed.

(** ** What a surgical write changes *)

Lemma concat_insert (lines : list str) i (l l' : str) :
  lines !! i = Some l ->
  concat lines = concat (take i lines) ++ l ++ concat (drop (S i) lines)
  /\ concat (<[i := l']> lines)
     = concat (take i lines) ++ l' ++ concat (drop (S i) lines).
Proof.
  intros Hi. split.
  - rewrite <- (take_drop_middle lines i l Hi) at 1.
    rewrite concat_app. reflexivity.
  - rewrite (insert_take_drop lines i l') by (eapply lookup_lt_Some, Hi).
    rewrite concat_app. reflexivity.
Qed.

(** On the text as the program has read it, a write replaces the value
    between the quotes of one line and nothing else. *)
Lemma rewrite_frame (lines : list str) i new_version content' :
  Forall line_ok lines ->
  rewrite_lock_line lines i new_version = Ok (Some content') ->
  exists before lead_key old after,
    concat lines = before ++ lead_key ++ old ++ DQUOTE :: after
    /\ content' = before ++ lead_key ++ new_version ++ DQUOTE :: after
    /\ last lead_key = Some DQUOTE /\ no_quote old.
Proof.
  intros Hok. unfold rewrite_lock_line.
  destruct (lines !! i) as [l|] eqn:Hi; cbn [default from_option id].
  - assert (Hl : line_ok l) by (rewrite Forall_lookup in Hok; eapply Hok, Hi).
    destruct (split_line_ending_spec l Hl)
      as (t & e & Hsp & Hterm & Ht & Hnl & He & Hts).
    rewrite Hsp. rewrite re_match_version_line.
    destruct (version_line_parts (line_content l ++ t))
      as [[[g1 g2] g3]|] eqn:Ep; [|discriminate].
    cbn [option_map]. change (group_text _ 2) with g2.
    change (group_text _ 1) with g1. change (group_text _ 3) with g3.
    destruct (str_eqb g2 new_version); [discriminate|]. intros [= <-].
    rewrite version_line_parts_app in Ep by assumption.
    destruct (after_key _ (lstrip (line_content l))) as [s|] eqn:Ek;
      [|discriminate].
    destruct (quoted_value s) as [[v rest]|] eqn:Eq; [|discriminate].
    destruct (at_eol _); [|discriminate]. injection Ep as <- <- <-.
    pose proof (after_key_length _ _ _ Ek) as Hlen.
    apply after_key_decomp in Ek as (K & Hk & HK).
    apply quoted_value_Some in Eq as (Hs & Hne & Hq).
    destruct (lstrip_decomp (line_content l)) as (lead & Hc & Hlead).
    assert (Hlc : line_content l = lead ++ K ++ v ++ DQUOTE :: rest).
    { etransitivity; [exact Hc|]. rewrite Hk, Hs. reflexivity. }
    assert (Hline : l = lead ++ K ++ v ++ DQUOTE :: rest ++ t ++ e).
    { etransitivity; [apply line_parts|]. rewrite Hlc, Hterm.
      rewrite <- !app_assoc, <- !app_comm_cons. reflexivity. }
    assert (Hrest : take_while anychar (rest ++ t) = rest ++ t).
    { apply take_while_id. apply Forall_app. split; [|assumption].
      apply nonbreak_no_newline.
      pose proof (line_content_nonbreak l) as Hb.
      rewrite Hlc in Hb. rewrite !Forall_app in Hb.
      destruct Hb as (_ & _ & _ & Hb). inversion Hb; assumption. }
    assert (Hg1 : take (length (line_content l) - length s) (line_content l)
                  = lead ++ K).
    { rewrite Hlc, Hs. rewrite (app_assoc lead K).
      replace (length ((lead ++ K) ++ v ++ DQUOTE :: rest)
               - length (v ++ DQUOTE :: rest))%nat
        with (length (lead ++ K)) by (rewrite !length_app; lia).
      apply take_app_length. }
    rewrite Hg1, Hrest.
    exists (concat (take i lines)), (lead ++ K), v,
           (rest ++ t ++ e ++ concat (drop (S i) lines)).
    split; [|split; [|split]].
    + rewrite (proj1 (concat_insert lines i l [] Hi)). f_equal.
      rewrite Hline at 1.
      rewrite <- ?app_assoc, <- ?app_comm_cons, <- ?app_assoc. reflexivity.
    + rewrite (proj2 (concat_insert lines i l _ Hi)). f_equal.
      rewrite <- ?app_assoc, <- ?app_comm_cons, <- ?app_assoc. reflexivity.
    + destruct HK as [_ (m & ->)]. rewrite !app_assoc. apply last_snoc.
    + exact Hq.
  - assert (E : re_match VERSION_LINE_RE (fst (split_line_ending [])) = None)
      by reflexivity.
    destruct (split_line_ending []) as [body ending]. cbn [fst] in E.
    rewrite E. discriminate.
Qed.

(** C2, on a failing input. The writers are meant to keep every line
    terminator, and [split_line_ending] knows the three of them, but
    [read_file] hands the program every terminator as a line feed and
    [write_file] writes the separator of the platform: on a POSIX
    platform a manifest whose lines end in carriage return and line feed
    comes back with line feeds on every line, the untouched ones
    included, and on Windows a manifest with line feeds comes back with
    carriage return and line feed on every line. *)
Theorem line_terminators_not_preserved :
  write_toml_package_version Posix (manifest "0.1.0" [CR; LF]) (lit "0.2.0")
  = Ok (true, manifest "0.2.0" [LF])
  /\ write_toml_package_version Windows (manifest "0.1.0" [LF]) (lit "0.2.0")
     = Ok (true, manifest "0.2.0" [CR; LF])
  /\ manifest "0.2.0" [LF] <> manifest "0.2.0" [CR; LF].
Proof.
  split; [|split].
  - vm_compute. reflexivity.
  - vm_compute. reflexivity.
  - vm_compute. discriminate.
Qed.

(** What does hold, on the text as the program has it after [read_file]:
    a write of either surgical writer replaces the value between the
    quotes of one line and leaves the rest of the text as it is. *)
Lemma surgical_write_text raw package_name new_version content' :
  write_toml_content (read_file raw) new_version = Ok (Some content')
  \/ write_lock_content (read_file raw) package_name new_version
     = Ok (Some content') ->
  exists before lead_key old after,
    read_file raw = before ++ lead_key ++ old ++ DQUOTE :: after
    /\ content' = before ++ lead_key ++ new_version ++ DQUOTE :: after
    /\ last lead_key = Some DQUOTE /\ no_quote old.
Proof.
  pose proof (wf_lines_ok _ (wf_lines_splitlines (read_file raw))) as Hok.
  assert (Hframe : forall i,
            rewrite_lock_line (splitlines true (read_file raw)) i new_version
            = Ok (Some content') ->
            exists before lead_key old after,
              read_file raw = before ++ lead_key ++ old ++ DQUOTE :: after
              /\ content' = before ++ lead_key ++ new_version ++ DQUOTE :: after
              /\ last lead_key = Some DQUOTE /\ no_quote old).
  { intros i H.
    destruct (rewrite_frame _ _ _ _ Hok H)
      as (before & lead_key & old & after & H1 & H2 & H3 & H4).
    rewrite concat_splitlines in H1.
    exists before, lead_key, old, after. auto. }
  intros [H|H].
  - rewrite write_toml_spec in H.
    destruct (toml_find _ 0 false) as [[i v]|]; [|discriminate].
    eapply Hframe, H.
  - rewrite write_lock_spec in H.
    destruct (select_block _ _) as [b|]; [|discriminate].
    cbn [write_selected] in H.
    destruct (block_version_idx b) as [i|]; [|discriminate].
    eapply Hframe, H.
Qed.

(** ** The target validator *)

Lemma contains_substring sub s : contains sub s = true <-> substring sub s.
Proof.
  unfold substring. split.
  - induction s as [|c s IH]; cbn [contains]; rewrite orb_true_iff.
    + intros [H|H]; [|discriminate]. unfold startswith in H.
      destruct (strip_prefix sub []) as [r|] eqn:E; [|discriminate].
      apply strip_prefix_Some in E. exists [], r. exact E.
    + intros [H|H].
      * unfold startswith in H.
        destruct (strip_prefix sub (c :: s)) as [r|] eqn:E; [|discriminate].
        apply strip_prefix_Some in E. exists [], r. exact E.
      * destruct (IH H) as (before & after & ->).
        exists (c :: before), after. reflexivity.
  - intros (before & after & ->).
    induction before as [|c before IH].
    + cbn [app]. destruct (sub ++ after) as [|c s] eqn:E; cbn [contains];
        rewrite <- E; unfold startswith; rewrite strip_prefix_app;
        reflexivity.
    + cbn [app contains]. rewrite IH. apply orb_true_r.
Qed.

Lemma contains_not_substring sub s :
  contains sub s = false <-> ~ substring sub s.
Proof.
  rewrite <- contains_substring. destruct (contains sub s); split; congruence.
Qed.

Lemma head_split_char sep s :
  head (split_char sep s) = Some (take_while (fun c => negb (c =? sep)) s).
Proof.
  induction s as [|c s IH]; [reflexivity|]. cbn [split_char take_while].
  destruct (c =? sep); cbn [negb]; [reflexivity|].
  destruct (split_char sep s) as [|seg segs]; [discriminate|].
  cbn in *. injection IH as ->. reflexivity.
Qed.

Lemma first_segment_spec target :
  exists rest,
    target = first_segment target ++ rest
    /\ ~ In DASH (first_segment target)
    /\ (rest = [] \/ head rest = Some DASH).
Proof.
  unfold first_segment. rewrite head_split_char. cbn [default from_option id].
  exists (drop_while (fun c => negb (c =? DASH)) target). split; [|split].
  - symmetry. apply take_drop_while.
  - intros Hin.
    pose proof (take_while_all (fun c => negb (c =? DASH)) target) as H.
    rewrite Forall_forall in H. apply list_elem_of_In in Hin.
    specialize (H _ Hin). rewrite N.eqb_refl in H. discriminate.
  - destruct (drop_while (fun c => negb (c =? DASH)) target) as [|c r] eqn:E;
      [left; reflexivity|].
    right. apply drop_while_head in E. apply negb_false_iff, N.eqb_eq in E.
    subst c. reflexivity.
Qed.

Lemma str_eqb_sym a b : str_eqb a b = str_eqb b a.
Proof.
  destruct (str_eqb a b) eqn:E.
  - apply str_eqb_eq in E. subst. symmetry. apply str_eqb_refl.
  - apply str_eqb_neq in E. symmetry. apply str_eqb_neq. congruence.
Qed.

Lemma arch_map_table seg : map_through ARCH_MAP seg = arch_of_segment seg.
Proof.
  unfold map_through, ARCH_MAP, arch_of_segment. cbn [dict_get].
  rewrite !(str_eqb_sym seg).
  repeat match goal with
         | |- context [str_eqb ?a seg] =>
             destruct (str_eqb a seg) eqn:?; cbn [orb default from_option id]
         end; reflexivity.
Qed.

Lemma os_map_table name : map_through OS_MAP name = os_of_name name.
Proof.
  unfold map_through, OS_MAP, os_of_name. cbn [dict_get].
  rewrite !(str_eqb_sym name).
  repeat match goal with
         | |- context [str_eqb ?a name] =>
             destruct (str_eqb a name) eqn:?; cbn [default from_option id]
         end; reflexivity.
Qed.

Lemma target_os_cases target :
  (substring (lit "windows") target -> target_os target = lit "windows")
  /\ (~ substring (lit "windows") target ->
      substring (lit "apple-darwin") target ->
      target_os target = lit "darwin")
  /\ (~ substring (lit "windows") target ->
      ~ substring (lit "apple-darwin") target ->
      substring (lit "linux") target ->
      target_os target = lit "linux")
  /\ (~ substring (lit "windows") target ->
      ~ substring (lit "apple-darwin") target ->
      ~ substring (lit "linux") target ->
      target_os target = lit "unknown").
Proof.
  pose proof (contains_substring (lit "windows") target) as Hw.
  pose proof (contains_substring (lit "apple-darwin") target) as Hd.
  pose proof (contains_substring (lit "linux") target) as Hl.
  unfold target_os.
  destruct (contains (lit "windows") target);
    destruct (contains (lit "apple-darwin") target);
    destruct (contains (lit "linux") target);
    repeat split; intros; try reflexivity; exfalso;
    intuition discriminate.
Qed.

Lemma error_kinds_differ target a b c d :
  unsupported_os_error target <> os_mismatch_error a b
  /\ unsupported_os_error target <> arch_mismatch_error c d
  /\ os_mismatch_error a b <> arch_mismatch_error c d.
Proof.
  unfold unsupported_os_error, os_mismatch_error, arch_mismatch_error.
  repeat split; intros H; cbn in H; discriminate H.
Qed.

Section HostFacts.
Variable lower : str -> str.
Variable system machine : str.

Lemma validation_errors_spec target :
  let t_os := target_os target in
  let t_arch := target_arch target in
  let h_os := host_os lower system in
  let h_arch := host_arch lower machine in
  let errors := validation_errors lower system machine target in
  (In (unsupported_os_error target) errors <-> t_os = lit "unknown")
  /\ (In (os_mismatch_error t_os h_os) errors <-> t_os <> h_os)
  /\ (In (arch_mismatch_error t_arch h_arch) errors <-> t_arch <> h_arch)
  /\ (forall e, In e errors ->
        e = unsupported_os_error target
        \/ e = os_mismatch_error t_os h_os
        \/ e = arch_mismatch_error t_arch h_arch)
  /\ (errors = [] <->
        t_os <> lit "unknown" /\ t_os = h_os /\ t_arch = h_arch).
Proof.
  intros t_os t_arch h_os h_arch errors.
  destruct (error_kinds_differ target t_os h_os t_arch h_arch)
    as (H12 & H13 & H23).
  unfold errors, validation_errors.
  fold t_os t_arch h_os h_arch.
  fold (unsupported_os_error target) (os_mismatch_error t_os h_os)
    (arch_mismatch_error t_arch h_arch).
  destruct (str_eqb t_os (lit "unknown")) eqn:E1;
    destruct (str_eqb t_os h_os) eqn:E2;
    destruct (str_eqb t_arch h_arch) eqn:E3;
    rewrite ?str_eqb_eq, ?str_eqb_neq in *; cbn [negb app In];
    repeat split; try tauto; try congruence;
    try (intros [?|?]; congruence || tauto);
    try (intros [?|[?|?]]; congruence || tauto);
    try (intros [?|[?|[?|?]]]; congruence || tauto);
    try (intros e [<-|[]]; tauto);
    try (intros e [<-|[<-|[]]]; tauto);
    try (intros e [<-|[<-|[<-|[]]]]; tauto);
    try discriminate.
Qed.

Lemma main_spec target :
  let errors := validation_errors lower system machine target in
  let result := main lower system machine target in
  (exit_code result = 0%Z <-> errors = [])
  /\ (errors = [] ->
      stdout result
      = [lit "OK: native target validation passed (" ++ target
         ++ lit " on " ++ host_os lower system ++ lit "/"
         ++ host_arch lower machine ++ lit ")"]
      /\ stderr result = [])
  /\ (errors <> [] ->
      exit_code result = 1%Z /\ stdout result = []
      /\ stderr result = map (fun e => lit "ERROR: " ++ e) errors).
Proof.
  intros errors result. unfold result, main. fold errors.
  destruct errors as [|e errors']; cbn [exit_code stdout stderr].
  - repeat split; congruence.
  - repeat split; try discriminate; congruence.
Qed.
End HostFacts.

(** C9. The operating system of a target triple is [windows] when the
    triple contains [windows], else [darwin] when it contains
    [apple-darwin], else [linux] when it contains [linux], else
    [unknown]. Its architecture is the first dash-delimited segment, put
    through the fixed table, where a segment that is not in the table
    stays as it is. The host's system and machine names, in lower case,
    go through the tables as well: the system is what its table gives
    for the name, the architecture what the table of the architectures
    gives. The validator exits with 0 and no error exactly when
    the target's system is not [unknown] and equals the host's and the
    architectures are equal; otherwise it exits with 1 and prints every
    error that applies, and nothing but those. *)
Theorem native_target_validation
    (lower : str -> str) (system machine target : str) :
  let t_os := target_os target in
  let t_arch := target_arch target in
  let h_os := host_os lower system in
  let h_arch := host_arch lower machine in
  let errors := validation_errors lower system machine target in
  let result := main lower system machine target in
  ((substring (lit "windows") target -> t_os = lit "windows")
   /\ (~ substring (lit "windows") target ->
       substring (lit "apple-darwin") target -> t_os = lit "darwin")
   /\ (~ substring (lit "windows") target ->
       ~ substring (lit "apple-darwin") target ->
       substring (lit "linux") target -> t_os = lit "linux")
   /\ (~ substring (lit "windows") target ->
       ~ substring (lit "apple-darwin") target ->
       ~ substring (lit "linux") target -> t_os = lit "unknown"))
  /\ (exists rest,
        target = first_segment target ++ rest
        /\ ~ In DASH (first_segment target)
        /\ (rest = [] \/ head rest = Some DASH))
  /\ t_arch = arch_of_segment (first_segment target)
  /\ h_os = os_of_name (lower system)
  /\ h_arch = arch_of_segment (lower machine)
  /\ (exit_code result = 0%Z <->
        t_os <> lit "unknown" /\ t_os = h_os /\ t_arch = h_arch)
  /\ (exit_code result = 0%Z -> stderr result = [])
  /\ (exit_code result <> 0%Z ->
        exit_code result = 1%Z
        /\ stderr result = map (fun e => lit "ERROR: " ++ e) errors)
  /\ (In (unsupported_os_error target) errors <-> t_os = lit "unknown")
  /\ (In (os_mismatch_error t_os h_os) errors <-> t_os <> h_os)
  /\ (In (arch_mismatch_error t_arch h_arch) errors <-> t_arch <> h_arch)
  /\ (forall e, In e errors ->
        e = unsupported_os_error target
        \/ e = os_mismatch_error t_os h_os
        \/ e = arch_mismatch_error t_arch h_arch).
Proof.
  intros t_os t_arch h_os h_arch errors result.
  destruct (validation_errors_spec lower system machine target)
    as (H1 & H2 & H3 & H4 & H5).
  destruct (main_spec lower system machine target) as (M1 & M2 & M3).
  fold errors result in M1, M2, M3.
  split; [apply target_os_cases|].
  split; [apply first_segment_spec|].
  split; [apply arch_map_table|].
  split; [apply os_map_table|].
  split; [apply arch_map_table|].
  split; [rewrite M1; exact H5|].
  split; [intros H; apply M1 in H; apply M2, H|].
  split.
  { intros H. assert (He : errors <> []) by (intros He; apply H, M1, He).
    destruct (M3 He) as (Hc & _ & Hs). split; assumption. }
  repeat split; try apply H1; try apply H2; try apply H3; exact H4.
Qed.

(** A host that reports [Darwin] and [arm64] builds the target
    [aarch64-apple-darwin]: both names of the host go through the
    tables. A Windows target on a Linux host fails on the system
    alone. *)
Lemma native_target_validation_witness :
  exit_code (main ascii_lower (lit "Darwin") (lit "arm64")
               (lit "aarch64-apple-darwin")) = 0%Z
  /\ host_os ascii_lower (lit "Darwin") = lit "darwin"
  /\ host_arch ascii_lower (lit "arm64") = lit "aarch64"
  /\ stderr (main id (lit "linux") (lit "x86_64")
               (lit "x86_64-pc-windows-msvc"))
     = [lit "ERROR: target OS windows does not match runner OS linux"].
Proof.
  pose proof (native_target_validation ascii_lower (lit "Darwin")
                (lit "arm64") (lit "aarch64-apple-darwin")) as H.
  cbv zeta in H. destruct H as (_ & _ & _ & Hos & Harch & Hexit & _).
  split.
  - apply (proj2 Hexit). vm_compute. repeat split; discriminate.
  - split; [rewrite Hos; vm_compute; reflexivity|].
    split; [rewrite Harch; vm_compute; reflexivity|].
    vm_compute. reflexivity.
Defined.

(** ** Sorting *)

Lemma str_ltb_asym a b : str_ltb a b = true -> str_ltb b a = false.
Proof.
  revert b. induction a as [|x a IH]; intros [|y b]; cbn [str_ltb]; try easy.
  rewrite orb_true_iff, andb_true_iff, orb_false_iff, andb_false_iff.
  rewrite N.ltb_lt, N.eqb_eq, N.ltb_ge, N.eqb_neq.
  intros [H|[-> H]].
  - split; [lia | left; lia].
  - split; [lia | right; apply IH, H].
Qed.

Lemma insert_sorted_perm x l : Permutation (insert_sorted x l) (x :: l).
Proof.
  induction l as [|y l IH]; cbn [insert_sorted]; [reflexivity|].
  destruct (str_ltb y x); [|reflexivity].
  rewrite IH. apply perm_swap.
Qed.

Lemma sorted_perm l : Permutation (sorted l) l.
Proof.
  unfold sorted. induction l as [|x l IH]; cbn [fold_right]; [reflexivity|].
  rewrite insert_sorted_perm. constructor. exact IH.
Qed.

Lemma insert_sorted_Sorted x l :
  Sorted str_le l -> Sorted str_le (insert_sorted x l).
Proof.
  induction 1 as [|y l Hs IH Hd]; cbn [insert_sorted].
  - repeat constructor.
  - destruct (str_ltb y x) eqn:E.
    + constructor; [exact IH|].
      destruct l as [|z l]; cbn [insert_sorted].
      * constructor. unfold str_le. apply str_ltb_asym, E.
      * destruct (str_ltb z x).
        -- constructor. inversion Hd. assumption.
        -- constructor. unfold str_le. apply str_ltb_asym, E.
    + constructor; [constructor; assumption|]. constructor. exact E.
Qed.

Lemma sorted_Sorted l : Sorted str_le (sorted l).
Proof.
  unfold sorted. induction l as [|x l IH]; cbn [fold_right]; [constructor|].
  apply insert_sorted_Sorted, IH.
Qed.

Lemma str_ltb_irrefl a : str_ltb a a = false.
Proof.
  induction a as [|x a IH]; [reflexivity|]. cbn [str_ltb].
  rewrite N.ltb_irrefl, N.eqb_refl, IH. reflexivity.
Qed.

Lemma str_ltb_trans a b c :
  str_ltb a b = true -> str_ltb b c = true -> str_ltb a c = true.
Proof.
  revert b c. induction a as [|x a IH]; intros [|y b] [|z c];
    cbn [str_ltb]; try easy.
  rewrite !orb_true_iff, !andb_true_iff, !N.ltb_lt, !N.eqb_eq.
  intros [H1|[-> H1]] [H2|[-> H2]].
  - left. lia.
  - left. exact H1.
  - left. exact H2.
  - right. split; [reflexivity|]. eapply IH; eassumption.
Qed.

Lemma str_ltb_total a b :
  str_ltb a b = false -> str_ltb b a = false -> a = b.
Proof.
  revert b. induction a as [|x a IH]; intros [|y b]; cbn [str_ltb];
    try easy.
  rewrite !orb_false_iff, !andb_false_iff, !N.ltb_ge, !N.eqb_neq.
  intros [H1 H2] [H3 H4]. assert (x = y) by lia. subst y.
  f_equal. apply IH.
  - destruct H2 as [H2|H2]; [congruence | exact H2].
  - destruct H4 as [H4|H4]; [congruence | exact H4].
Qed.

Lemma str_le_trans a b c : str_le a b -> str_le b c -> str_le a c.
Proof.
  unfold str_le. intros H1 H2.
  destruct (str_ltb c a) eqn:E; [|reflexivity].
  destruct (str_ltb a b) eqn:E'.
  - rewrite (str_ltb_trans c a b E E') in H2. discriminate.
  - rewrite (str_ltb_total a b E' H1) in E. congruence.
Qed.

(** The comparison of the code is the order by code points: a proper
    prefix first, then the first code point that differs. *)
Lemma str_ltb_lex a b : str_ltb a b = true <-> lex_lt a b.
Proof.
  split.
  - revert b. induction a as [|x a IH]; intros [|y b]; cbn [str_ltb];
      try discriminate.
    + intros _. constructor.
    + rewrite orb_true_iff, andb_true_iff, N.ltb_lt, N.eqb_eq.
      intros [H|[-> H]]; [apply lex_lt_first, H | apply lex_lt_rest, IH, H].
  - induction 1 as [c b|x y a b H|x a b _ IH]; cbn [str_ltb].
    + reflexivity.
    + apply N.ltb_lt in H. rewrite H. reflexivity.
    + rewrite IH, N.eqb_refl. apply orb_true_r.
Qed.

Lemma str_le_lex a b : str_le a b <-> lex_le a b.
Proof.
  unfold str_le, lex_le. split.
  - intros H. destruct (str_ltb a b) eqn:E.
    + right. apply str_ltb_lex, E.
    + left. apply str_ltb_total; assumption.
  - intros [->|H]; [apply str_ltb_irrefl|].
    apply str_ltb_asym, str_ltb_lex, H.
Qed.

(** What [sorted] returns is in ascending order: every element is
    before or equal to every later one. *)
Lemma sorted_lex l : StronglySorted lex_le (sorted l).
Proof.
  assert (H : StronglySorted str_le (sorted l)).
  { apply Sorted_StronglySorted; [|apply sorted_Sorted].
    intros a b c. apply str_le_trans. }
  induction H as [|x xs _ IH Hall]; constructor; [exact IH|].
  eapply List.Forall_impl; [|exact Hall]. intros y. apply str_le_lex.
Qed.

(** ** Grouping *)

Lemma files_of_snoc version versions f v :
  files_of version (versions ++ [(f, v)])
  = files_of version versions ++ (if str_eqb v version then [f] else []).
Proof.
  unfold files_of. rewrite List.filter_app, map_app. cbn [List.filter snd].
  destruct (str_eqb v version); reflexivity.
Qed.

Lemma files_of_In version versions f :
  In f (files_of version versions) <-> In (f, version) versions.
Proof.
  unfold files_of. rewrite in_map_iff. split.
  - intros ([f' v'] & <- & H). apply List.filter_In in H as [H E].
    cbn in E. apply str_eqb_eq in E. subst. exact H.
  - intros H. exists (f, version). split; [reflexivity|].
    apply List.filter_In. split; [exact H | apply str_eqb_refl].
Qed.

Lemma dict_get_setdefault grouped v f v' :
  dict_get (setdefault_append grouped v f) v'
  = if str_eqb v v'
    then Some (default [] (dict_get grouped v) ++ [f])
    else dict_get grouped v'.
Proof.
  induction grouped as [|[k fs] grouped IH]; cbn [setdefault_append dict_get].
  - destruct (str_eqb v v'); reflexivity.
  - destruct (str_eqb k v) eqn:E; cbn [dict_get].
    + apply str_eqb_eq in E. subst k.
      destruct (str_eqb v v'); reflexivity.
    + rewrite IH. destruct (str_eqb v v') eqn:E'; [|reflexivity].
      apply str_eqb_eq in E'. subst v'. rewrite E. reflexivity.
Qed.

Lemma keys_setdefault grouped v f :
  map fst (setdefault_append grouped v f)
  = if existsb (str_eqb v) (map fst grouped) then map fst grouped
    else map fst grouped ++ [v].
Proof.
  induction grouped as [|[k fs] grouped IH];
    cbn [setdefault_append map fst existsb]; [reflexivity|].
  rewrite (str_eqb_sym v k).
  destruct (str_eqb k v); cbn [map fst orb]; [reflexivity|].
  rewrite IH. destruct (existsb _ _); reflexivity.
Qed.

Lemma existsb_str_eqb v l : existsb (str_eqb v) l = true <-> In v l.
Proof.
  rewrite existsb_exists. split.
  - intros (x & Hx & E). apply str_eqb_eq in E. subst. exact Hx.
  - intros H. exists v. split; [exact H | apply str_eqb_refl].
Qed.

(** What the grouping loop holds after the items [done]. *)
Lemma grouped_for_step grouped done f v :
  grouped_for grouped done ->
  grouped_for (setdefault_append grouped v f) (done ++ [(f, v)]).
Proof.
  intros (Hnd & Hkeys & Hget). unfold grouped_for.
  rewrite keys_setdefault.
  destruct (existsb (str_eqb v) (map fst grouped)) eqn:E.
  - apply existsb_str_eqb in E. split; [exact Hnd|]. split.
    + intros v'. rewrite Hkeys. split.
      * intros (f' & H). exists f'. apply in_or_app. left. exact H.
      * intros (f' & H). apply in_app_or in H as [H|[[= <- <-]|[]]];
          [eauto | apply Hkeys, E].
    + intros v' Hv'. rewrite dict_get_setdefault, files_of_snoc.
      destruct (str_eqb v v') eqn:E'.
      * apply str_eqb_eq in E'. subst v'. rewrite (Hget v E). reflexivity.
      * rewrite app_nil_r. apply Hget, Hv'.
  - assert (Hnot : ~ In v (map fst grouped)).
    { intros H. apply existsb_str_eqb in H. congruence. }
    split; [|split].
    + eapply Permutation.Permutation_NoDup;
        [apply Permutation.Permutation_cons_append|].
      constructor; assumption.
    + intros v'. rewrite in_app_iff, Hkeys. cbn [In]. split.
      * intros [(f' & H)|[<-|[]]].
        -- exists f'. apply in_or_app. left. exact H.
        -- exists f. apply in_or_app. right. left. reflexivity.
      * intros (f' & H). apply in_app_or in H as [H|[[= <- <-]|[]]];
          [left; eauto | right; left; reflexivity].
    + intros v' Hv'. rewrite dict_get_setdefault, files_of_snoc.
      destruct (str_eqb v v') eqn:E'.
      * apply str_eqb_eq in E'. subst v'.
        assert (Hnone : dict_get grouped v = None).
        { clear -Hnot. induction grouped as [|[k fs] grouped IH];
            [reflexivity|]. cbn [dict_get].
          destruct (str_eqb k v) eqn:Ek.
          - apply str_eqb_eq in Ek. subst. exfalso. apply Hnot. left.
            reflexivity.
          - apply IH. intros H. apply Hnot. right. exact H. }
        rewrite Hnone. cbn [default from_option id app].
        assert (Hempty : files_of v done = []).
        { destruct (files_of v done) as [|f0 fs] eqn:Ef; [reflexivity|].
          exfalso. apply Hnot, Hkeys. exists f0. apply files_of_In.
          rewrite Ef. left. reflexivity. }
        rewrite Hempty. reflexivity.
      * rewrite app_nil_r. apply Hget.
        apply in_app_or in Hv' as [H|[<-|[]]]; [exact H|].
        rewrite str_eqb_refl in E'. discriminate.
Qed.

Lemma group_versions_spec versions :
  grouped_for (group_versions versions) versions.
Proof.
  unfold group_versions.
  assert (H : forall rest grouped done,
            grouped_for grouped done ->
            grouped_for
              (fold_left (fun g item => setdefault_append g (snd item) (fst item))
                 rest grouped)
              (done ++ rest)).
  { induction rest as [|[f v] rest IH]; intros grouped done Hg.
    - rewrite app_nil_r. exact Hg.
    - cbn [fold_left fst snd].
      replace (done ++ (f, v) :: rest) with ((done ++ [(f, v)]) ++ rest)
        by (rewrite <- app_assoc; reflexivity).
      apply IH, grouped_for_step, Hg. }
  apply (H versions [] []). split; [constructor|]. split.
  - intros v. split; [intros [] | intros (f & [])].
  - intros v [].
Qed.

Lemma flat_map_ext_In {A B : Type} (f g : A -> list B) l :
  (forall x, In x l -> f x = g x) -> flat_map f l = flat_map g l.
Proof.
  induction l as [|x l IH]; intros H; [reflexivity|]. cbn [flat_map].
  rewrite (H x) by (left; reflexivity). rewrite IH; [reflexivity|].
  intros y Hy. apply H. right. exact Hy.
Qed.

Lemma report_lines_spec versions :
  report_lines (group_versions versions)
  = lit "Version mismatch detected across files:"
    :: flat_map (fun v => render_group v (sorted (files_of v versions)))
         (sorted (map fst (group_versions versions))).
Proof.
  destruct (group_versions_spec versions) as (_ & _ & Hget).
  unfold report_lines. f_equal. apply flat_map_ext_In. intros v Hv.
  apply (Permutation_in _ (sorted_perm _)) in Hv.
  rewrite (Hget v Hv). reflexivity.
Qed.

(** C5. [ensure_consistent] returns a version exactly when the mapping
    is not empty and every value in it is that version. When two values
    differ it fails, and its report lists, after the heading, every
    distinct version once, in ascending order, each followed by the file
    identifiers that have that version, in ascending order. The order is
    that of the code points: in each list every element is equal to or
    before every later one, a string being before another when it is a
    proper prefix of it or has the smaller code point where they first
    differ. *)
Theorem ensure_consistent_spec (versions : list (str * str)) :
  (forall v,
     ensure_consistent versions = Ok v <->
     versions <> [] /\ forall f v', In (f, v') versions -> v' = v)
  /\ ((exists f1 v1 f2 v2,
         In (f1, v1) versions /\ In (f2, v2) versions /\ v1 <> v2) ->
      exists vs,
        ensure_consistent versions
        = Err (VersionMismatch (join [LF]
            (lit "Version mismatch detected across files:"
             :: flat_map
                  (fun v => render_group v (sorted (files_of v versions)))
                  vs)))
        /\ StronglySorted lex_le vs /\ List.NoDup vs
        /\ (forall v, In v vs <-> exists f, In (f, v) versions)
        /\ forall v,
             StronglySorted lex_le (sorted (files_of v versions))
             /\ Permutation (sorted (files_of v versions))
                  (files_of v versions)
             /\ forall f, In f (files_of v versions) <-> In (f, v) versions).
Proof.
  destruct (group_versions_spec versions) as (Hnd & Hkeys & Hget).
  split.
  - intros v. unfold ensure_consistent. split.
    + destruct (group_versions versions) as [|[k fs] [|? ?]] eqn:E;
        try discriminate.
      intros [= ->]. split.
      * intros ->. discriminate.
      * intros f v' Hin. cbn in Hkeys.
        assert (H : v = v' \/ False) by (apply Hkeys; eauto).
        destruct H as [H|[]]. congruence.
    + intros [Hne Hall].
      destruct versions as [|[f0 v0] versions'] eqn:Ev; [congruence|].
      rewrite <- Ev in *.
      assert (Hv0 : v0 = v) by (apply (Hall f0); rewrite Ev; left; reflexivity).
      assert (Hin : In v (map fst (group_versions versions))).
      { apply Hkeys. exists f0. rewrite Ev, <- Hv0. left. reflexivity. }
      assert (Honly : forall k, In k (map fst (group_versions versions)) ->
                k = v).
      { intros k Hk. apply Hkeys in Hk as (f & Hf). eapply Hall, Hf. }
      destruct (group_versions versions) as [|[k fs] [|[k' fs'] g]];
        cbn [map fst] in *.
      * destruct Hin.
      * rewrite (Honly k) by (left; reflexivity). reflexivity.
      * exfalso. inversion Hnd as [|? ? Hnot _]; subst. apply Hnot.
        rewrite (Honly k) by (left; reflexivity).
        rewrite (Honly k') by (right; left; reflexivity). left. reflexivity.
  - intros (f1 & v1 & f2 & v2 & H1 & H2 & Hne).
    exists (sorted (map fst (group_versions versions))).
    split; [|split; [|split; [|split]]].
    + rewrite <- report_lines_spec. unfold ensure_consistent.
      assert (Hk1 : In v1 (map fst (group_versions versions)))
        by (apply Hkeys; eauto).
      assert (Hk2 : In v2 (map fst (group_versions versions)))
        by (apply Hkeys; eauto).
      destruct (group_versions versions) as [|[k fs] [|? ?]];
        cbn [map fst In] in *; [tauto | | reflexivity].
      exfalso. destruct Hk1 as [<-|[]]. destruct Hk2 as [<-|[]]. congruence.
    + apply sorted_lex.
    + eapply Permutation.Permutation_NoDup; [|exact Hnd].
      symmetry. apply sorted_perm.
    + intros v. rewrite <- Hkeys. split; apply Permutation_in;
        [apply sorted_perm | symmetry; apply sorted_perm].
    + intros v. split; [apply sorted_lex|].
      split; [apply sorted_perm | intros f; apply files_of_In].
Qed.

(** The two cases of the specification. *)
Lemma ensure_consistent_spec_witness :
  ensure_consistent
    [(lit "a", lit "1.2.3"); (lit "b", lit "1.2.3"); (lit "c", lit "1.2.3")]
  = Ok (lit "1.2.3")
  /\ exists report,
       ensure_consistent [(lit "a", lit "1.2.3"); (lit "b", lit "1.2.4")]
       = Err (VersionMismatch report).
Proof.
  split.
  - apply (proj1 (ensure_consistent_spec _)). split; [discriminate|].
    intros f v' [[= <- <-]|[[= <- <-]|[[= <- <-]|[]]]]; reflexivity.
  - destruct (proj2 (ensure_consistent_spec
                       [(lit "a", lit "1.2.3"); (lit "b", lit "1.2.4")]))
      as (vs & H & _).
    + exists (lit "a"), (lit "1.2.3"), (lit "b"), (lit "1.2.4").
      split; [left; reflexivity|]. split; [right; left; reflexivity|].
      discriminate.
    + eexists. exact H.
Defined.

(** ** The package-lock reader *)

(** C6. [read_package_lock_version] returns a version only if both the
    top-level [version] and [packages[''].version] are present, are not
    blank, and are equal once trimmed; it then returns that version.
    When both are present and not blank but differ it fails with the
    internal-mismatch error, which is another error than the two a
    missing or blank field gives. *)
Theorem package_lock_read_spec (repr_container : json -> str) (data : json) :
  (forall v,
     read_package_lock_version repr_container data = Ok v ->
     exists items top packages root rootv,
       data = JDict items
       /\ dict_get items (lit "version") = Some top
       /\ dict_get items (lit "packages") = Some (JDict packages)
       /\ dict_get packages [] = Some (JDict root)
       /\ dict_get root (lit "version") = Some rootv
       /\ strip (py_str repr_container top) = v
       /\ strip (py_str repr_container rootv) = v
       /\ v <> [])
  /\ (forall top rootv,
        top_version_field data = Ok top ->
        root_version_field data = Ok rootv ->
        let top_level := strip (py_str repr_container top) in
        let root_package := strip (py_str repr_container rootv) in
        (top_level = [] ->
         read_package_lock_version repr_container data
         = Err CannotFindTopLevelVersion)
        /\ (top_level <> [] -> root_package = [] ->
            read_package_lock_version repr_container data
            = Err CannotFindRootPackageVersion)
        /\ (top_level <> [] -> root_package <> [] ->
            top_level <> root_package ->
            read_package_lock_version repr_container data
            = Err (PackageLockMismatch top_level root_package))
        /\ (top_level <> [] -> root_package <> [] ->
            top_level = root_package ->
            read_package_lock_version repr_container data = Ok top_level))
  /\ (forall a b,
        PackageLockMismatch a b <> CannotFindTopLevelVersion
        /\ PackageLockMismatch a b <> CannotFindRootPackageVersion).
Proof.
  split; [|split].
  - intros v. unfold read_package_lock_version.
    destruct data as [| | | | | |items]; try discriminate.
    cbn [py_get bind].
    destruct (dict_get items (lit "packages")) as [packages|] eqn:Ep.
    + destruct packages as [| | | | | |packages];
        try (cbn [py_get bind]; discriminate).
      cbn [py_get bind].
      destruct (dict_get packages []) as [root|] eqn:Er.
      * destruct root as [| | | | | |root];
          try (cbn [py_get bind]; discriminate).
        cbn [py_get bind].
        destruct (dict_get items (lit "version")) as [top|] eqn:Et.
        -- destruct (dict_get root (lit "version")) as [rootv|] eqn:Erv.
           ++ destruct (strip (py_str repr_container top)) as [|c t] eqn:E1;
                [discriminate|].
              destruct (strip (py_str repr_container rootv)) as [|c' t'] eqn:E2;
                [discriminate|].
              destruct (str_eqb (c :: t) (c' :: t')) eqn:E; [|discriminate].
              cbn [negb]. intros [= <-]. apply str_eqb_eq in E.
              exists items, top, packages, root, rootv.
              repeat split; try assumption; try congruence.
           ++ cbn [py_str strip lstrip rstrip drop_while].
              destruct (strip (py_str repr_container top)); discriminate.
        -- cbn [py_str strip lstrip rstrip drop_while]. discriminate.
      * cbn [py_get bind dict_get py_str strip lstrip rstrip drop_while].
        destruct (strip (py_str repr_container _)); discriminate.
    + cbn [py_get bind dict_get py_str strip lstrip rstrip drop_while].
      destruct (strip (py_str repr_container _)); discriminate.
  - intros top rootv Htop Hroot top_level root_package.
    unfold read_package_lock_version.
    unfold top_version_field in Htop. unfold root_version_field in Hroot.
    rewrite Htop. cbn [bind].
    destruct (py_get data (lit "packages") (JDict [])) as [packages|];
      [|discriminate]. cbn [bind] in *.
    destruct (py_get packages [] (JDict [])) as [root|]; [|discriminate].
    cbn [bind] in *. rewrite Hroot. cbn [bind].
    fold top_level root_package.
    destruct top_level as [|c t] eqn:E1; destruct root_package as [|c' t'] eqn:E2;
      repeat split; intros; try congruence.
    + apply str_eqb_neq in H1. rewrite H1. reflexivity.
    + rewrite H1, str_eqb_refl. reflexivity.
  - intros a b. split; discriminate.
Qed.

(** The case of the specification: top-level 1.0.0 and nested 1.0.1 fail
    with the internal mismatch; the sample document reads 0.1.0. *)
Lemma package_lock_read_spec_witness :
  read_package_lock_version no_repr mismatched_package_lock
  = Err (PackageLockMismatch (lit "1.0.0") (lit "1.0.1"))
  /\ exists items,
       sample_package_lock = JDict items
       /\ dict_get items (lit "version") = Some (JStr (lit "0.1.0")).
Proof.
  split.
  - apply (proj1 (proj2 (package_lock_read_spec no_repr
                           mismatched_package_lock))
             (JStr (lit "1.0.0")) (JStr (lit "1.0.1")));
      try reflexivity; discriminate.
  - destruct (proj1 (package_lock_read_spec no_repr sample_package_lock)
                (lit "0.1.0") eq_refl)
      as (items & top & packages & root & rootv & H & _).
    exists items. split; [exact H|]. injection H as <-. reflexivity.
Defined.

(** ** Collecting the versions *)

Lemma validate_each_Ok items :
  validate_each items = Ok tt <->
  forall f v, In (f, v) items -> is_semver v = true.
Proof.
  induction items as [|[f v] items IH]; cbn [validate_each].
  - split; [intros _ ? ? [] | reflexivity].
  - destruct (is_semver v) eqn:E; cbn [negb].
    + rewrite IH. split.
      * intros H f' v' [[= <- <-]|Hin]; [exact E | eapply H, Hin].
      * intros H f' v' Hin. eapply H. right. exact Hin.
    + split; [discriminate|]. intros H.
      rewrite (H f v) in E by (left; reflexivity). discriminate.
Qed.

Lemma validate_each_Err items e :
  validate_each items = Err e ->
  exists f v, e = InvalidSemver f v /\ In (f, v) items /\ is_semver v = false.
Proof.
  induction items as [|[f v] items IH]; cbn [validate_each]; [discriminate|].
  destruct (is_semver v) eqn:E; cbn [negb].
  - intros H. destruct (IH H) as (f' & v' & -> & Hin & Hv).
    exists f', v'. split; [reflexivity|]. split; [right; exact Hin | exact Hv].
  - intros [= <-]. exists f, v. split; [reflexivity|].
    split; [left; reflexivity | exact E].
Qed.

Ltac read_next :=
  match goal with
  | |- context [bind ?r _] =>
      lazymatch r with
      | bind _ _ => fail
      | _ => let E := fresh "E" in
             destruct r eqn:E; cbn [bind]; [|discriminate]
      end
  end.

(** What [read_versions] returns has one entry for every registered
    file, with what the handler of the file reads from it. *)
Lemma read_versions_entries repr_container repo versions :
  read_versions repr_container repo = Ok versions ->
  map fst versions = registered_files
  /\ (forall p, In p TOML_PACKAGE_VERSION_FILES ->
        exists v, read_toml_package_version (text_file repo p) = Ok v
                  /\ In (p, v) versions)
  /\ (forall p, In p JSON_VERSION_FILES ->
        exists v, read_json_version repr_container (json_file repo p) = Ok v
                  /\ In (p, v) versions)
  /\ (exists v, read_package_lock_version repr_container
                  (json_file repo PACKAGE_LOCK_FILE) = Ok v
                /\ In (PACKAGE_LOCK_FILE, v) versions)
  /\ (forall p n, In (p, n) LOCK_PACKAGE_VERSION_FILES ->
        exists v, read_lock_package_version (text_file repo p) n = Ok v
                  /\ In (p, v) versions).
Proof.
  unfold read_versions, TOML_PACKAGE_VERSION_FILES, JSON_VERSION_FILES,
    LOCK_PACKAGE_VERSION_FILES.
  cbn [read_each id fst snd].
  do 12 read_next.
  intros [= <-].
  split; [reflexivity|].
  split; [|split; [|split]].
  - intros p Hp. cbn [In] in Hp.
    repeat (destruct Hp as [<-|Hp];
            [eexists; split; [eassumption|]; vm_compute; tauto|]).
    destruct Hp.
  - intros p Hp. cbn [In] in Hp.
    repeat (destruct Hp as [<-|Hp];
            [eexists; split; [eassumption|]; vm_compute; tauto|]).
    destruct Hp.
  - eexists; split; [reflexivity|]. vm_compute. tauto.
  - intros p n Hp. cbn [In] in Hp.
    repeat (destruct Hp as [[= <- <-]|Hp];
            [eexists; split; [eassumption|]; vm_compute; tauto|]).
    destruct Hp.
Qed.

(** C8. [collect_versions] returns a mapping only if every value in it
    is a semantic version; when the handlers read a value that is not
    one, it fails with the invalid-semver error naming a file and its
    value. The mapping has an entry for every registered file, so the
    check covers all of them, whichever handler read the value. *)
Theorem collect_versions_semver (repr_container : json -> str)
    (repo : repository) (versions : list (str * str)) :
  read_versions repr_container repo = Ok versions ->
  map fst versions = registered_files
  /\ (collect_versions repr_container repo = Ok versions <->
      forall f v, In (f, v) versions -> is_semver v = true)
  /\ (forall f v, In (f, v) versions -> is_semver v = false ->
      exists f' v',
        In (f', v') versions /\ is_semver v' = false
        /\ collect_versions repr_container repo
           = Err (InvalidSemver f' v')).
Proof.
  intros Hread. split; [eapply read_versions_entries, Hread|].
  unfold collect_versions. rewrite Hread. cbn [bind]. split.
  - rewrite <- validate_each_Ok.
    destruct (validate_each versions) as [[]|e]; cbn [bind]; split;
      congruence.
  - intros f v Hin Hv.
    destruct (validate_each versions) as [[]|e] eqn:E; cbn [bind].
    + rewrite (proj1 (validate_each_Ok versions) E f v Hin) in Hv.
      discriminate.
    + destruct (validate_each_Err _ _ E) as (f' & v' & -> & Hin' & Hv').
      exists f', v'. auto.
Qed.

(** A manifest with version 1.0 makes the collection fail. *)
Lemma collect_versions_semver_witness :
  exists f' v',
    is_semver v' = false
    /\ collect_versions no_repr short_version_repo
       = Err (InvalidSemver f' v').
Proof.
  destruct (read_versions no_repr short_version_repo) as [versions|e] eqn:E;
    [|vm_compute in E; discriminate].
  destruct (collect_versions_semver no_repr short_version_repo versions E)
    as (_ & _ & H).
  vm_compute in E. injection E as <-.
  destruct (H (lit "desktop/src-tauri/Cargo.toml") (lit "1.0"))
    as (f' & v' & _ & Hv & Hc).
  - vm_compute. tauto.
  - vm_compute. reflexivity.
  - exists f', v'. split; assumption.
Defined.

(** ** The tag check *)

Lemma star_ext {R : Type} p s caps (k k' : str -> captures -> option R) :
  (forall s' c, k s' c = k' s' c) -> star p s caps k = star p s caps k'.
Proof.
  intros Hk. induction s as [|c s IH]; cbn [star]; [apply Hk|].
  rewrite IH, Hk. reflexivity.
Qed.

(** A pattern without [^] matches the same way wherever its subject
    starts. *)
Lemma run_no_bol {R : Type} (n0 n1 : nat) r :
  no_bol r = true ->
  forall s caps (k k' : str -> captures -> option R),
    (forall s' c, k s' c = k' s' c) ->
    run n0 r s caps k = run n1 r s caps k'.
Proof.
  induction r as [| |l|p|p|r1 IH1 r2 IH2|r1 IH1 r2 IH2|r IH|n r IH];
    cbn [no_bol]; intros Hb s caps k k' Hk; cbn [run].
  - discriminate.
  - destruct s as [|c [|? ?]]; rewrite ?Hk; reflexivity.
  - destruct (strip_prefix l s); [apply Hk | reflexivity].
  - destruct s as [|c s]; [reflexivity|]. rewrite Hk. reflexivity.
  - apply star_ext, Hk.
  - apply andb_true_iff in Hb as [H1 H2]. apply IH1; [exact H1|].
    intros s' c. apply IH2; assumption.
  - apply andb_true_iff in Hb as [H1 H2].
    rewrite (IH1 H1 s caps k k' Hk), (IH2 H2 s caps k k' Hk). reflexivity.
  - rewrite (IH Hb s caps k k' Hk), Hk. reflexivity.
  - apply IH; [exact Hb|]. intros s' c. apply Hk.
Qed.

(** [v] followed by a version is a tag exactly when the version is a
    semantic version. *)
Lemma is_tag_v version : is_tag (lit "v" ++ version) = is_semver version.
Proof.
  unfold is_tag, is_semver, re_fullmatch, TAG_RE, SEMVER_RE.
  cbn [run]. rewrite !Nat.eqb_refl.
  change (lit "v" ++ version) with (118 :: version).
  change (lit "v") with [118]. cbn [strip_prefix]. rewrite N.eqb_refl.
  erewrite (run_no_bol (length (118 :: version)) (length version)
              SEMVER_PATTERN eq_refl); [reflexivity|].
  intros s' c. reflexivity.
Qed.

Lemma ensure_consistent_value versions version :
  ensure_consistent versions = Ok version ->
  exists file_path, In (file_path, version) versions.
Proof.
  destruct (group_versions_spec versions) as (_ & Hkeys & _).
  unfold ensure_consistent.
  destruct (group_versions versions) as [|[k fs] [|? ?]]; try discriminate.
  intros [= ->]. apply Hkeys. left. reflexivity.
Qed.

(** C7, as the code has it. With the version [V] the files agree on,
    [run_check] with a tag passes exactly when the tag, with the white
    space around it removed, is [v] followed by [V]. A trimmed tag that
    does not have the form of a tag gives the tag-format error; one that
    has the form but is not [v] followed by [V] gives the tag/version
    mismatch error, which is another error. Without a tag the check
    returns [V]. *)
Theorem tag_check_spec (repr_container : json -> str) (repo : repository)
    (versions : list (str * str)) (V T : str) :
  collect_versions repr_container repo = Ok versions ->
  ensure_consistent versions = Ok V ->
  run_check repr_container repo None = Ok V
  /\ (forall V', run_check repr_container repo (Some T) = Ok V' <->
                 V' = V /\ strip T = lit "v" ++ V)
  /\ (is_tag (strip T) = false ->
      run_check repr_container repo (Some T) = Err (InvalidTag (strip T)))
  /\ (is_tag (strip T) = true -> strip T <> lit "v" ++ V ->
      run_check repr_container repo (Some T)
      = Err (TagVersionMismatch (strip T) V (lit "v" ++ V)))
  /\ (forall a b c d, InvalidTag a <> TagVersionMismatch b c d).
Proof.
  intros Hc He.
  assert (Hsem : is_semver V = true).
  { destruct (ensure_consistent_value _ _ He) as (f & Hin).
    unfold collect_versions in Hc.
    destruct (read_versions repr_container repo) as [vs|]; [|discriminate].
    cbn [bind] in Hc.
    destruct (validate_each vs) as [[]|] eqn:E; [|discriminate].
    cbn [bind] in Hc. injection Hc as ->.
    exact (proj1 (validate_each_Ok versions) E f V Hin). }
  unfold run_check. rewrite Hc. cbn [bind]. rewrite He. cbn [bind].
  unfold check_tag.
  split; [reflexivity|]. split; [|split; [|split]].
  - intros V'. destruct (is_tag (strip T)) eqn:Et; cbn [negb].
    + destruct (str_eqb (strip T) (lit "v" ++ V)) eqn:E; cbn [negb].
      * apply str_eqb_eq in E. split; [intros [= <-]; auto|].
        intros [-> _]. reflexivity.
      * apply str_eqb_neq in E. split; [discriminate|]. intros [_ H].
        contradiction.
    + split; [discriminate|]. intros [_ H].
      rewrite H, is_tag_v, Hsem in Et. discriminate.
  - intros ->. reflexivity.
  - intros -> Hne. cbn [negb]. apply str_eqb_neq in Hne. rewrite Hne.
    reflexivity.
  - intros a b c d. discriminate.
Qed.

(** In the sample repository, whose files all have version 0.1.0, the
    tag v0.1.0 passes. *)
Lemma tag_check_spec_witness :
  run_check no_repr sample_repo (Some (lit "v0.1.0")) = Ok (lit "0.1.0").
Proof.
  destruct (collect_versions no_repr sample_repo) as [versions|e] eqn:E;
    [|vm_compute in E; discriminate].
  apply (proj1 (proj2 (tag_check_spec no_repr sample_repo versions
                         (lit "0.1.0") (lit "v0.1.0") E
                         ltac:(vm_compute in E; injection E as <-;
                               vm_compute; reflexivity)))
           (lit "0.1.0")).
  split; vm_compute; reflexivity.
Defined.

(** A tag with a blank after it is not [v] followed by the version, and
    passes all the same. *)
Lemma trailing_blank_tag_passes :
  run_check no_repr sample_repo (Some (lit "v0.1.0 ")) = Ok (lit "0.1.0")
  /\ lit "v0.1.0 " <> lit "v" ++ lit "0.1.0".
Proof.
  split; [vm_compute; reflexivity|]. vm_compute. discriminate.
Qed.

(** ** The matcher and the language of a pattern *)

Lemma star_sound {R : Type} p s caps (k : str -> captures -> option R) x :
  star p s caps k = Some x ->
  exists s1 s2,
    s = s1 ++ s2 /\ Forall (fun c => p c = true) s1 /\ k s2 caps = Some x.
Proof.
  induction s as [|c s IH]; cbn [star].
  - intros H. exists [], []. auto.
  - destruct (p c) eqn:Ec.
    + destruct (star p s caps k) as [y|] eqn:Es.
      * intros [= <-]. destruct (IH eq_refl) as (s1 & s2 & -> & H1 & H2).
        exists (c :: s1), s2. auto.
      * intros H. exists [], (c :: s). auto.
    + intros H. exists [], (c :: s). auto.
Qed.

Lemma run_sound {R : Type} n0 r :
  forall s caps (k : str -> captures -> option R) x,
    run n0 r s caps k = Some x ->
    exists s1 s2 caps',
      s = s1 ++ s2 /\ lang n0 r s1 s2 /\ k s2 caps' = Some x.
Proof.
  induction r as [| |l|p|p|r1 IH1 r2 IH2|r1 IH1 r2 IH2|r IH|n r IH];
    intros s caps k x; cbn [run lang].
  - destruct (Nat.eqb (length s) n0) eqn:E; [|discriminate].
    apply Nat.eqb_eq in E. intros H. exists [], s, caps. auto.
  - destruct s as [|c [|c' s]]; try discriminate.
    + intros H. exists [], [], caps. auto.
    + destruct (c =? LF) eqn:E; [|discriminate]. apply N.eqb_eq in E.
      subst c. intros H. exists [], [LF], caps. auto.
  - destruct (strip_prefix l s) as [s'|] eqn:E; [|discriminate].
    apply strip_prefix_Some in E. intros H. exists l, s', caps. auto.
  - destruct s as [|c s]; [discriminate|].
    destruct (p c) eqn:E; [|discriminate]. intros H.
    exists [c], s, caps. eauto.
  - intros H. destruct (star_sound _ _ _ _ _ H) as (s1 & s2 & H1 & H2 & H3).
    exists s1, s2, caps. auto.
  - intros H. destruct (IH1 _ _ _ _ H) as (a & s' & c' & -> & Ha & H').
    destruct (IH2 _ _ _ _ H') as (b & s2 & c'' & -> & Hb & Hk).
    exists (a ++ b), s2, c''. rewrite <- app_assoc. eauto 8.
  - destruct (run n0 r1 s caps k) as [y|] eqn:E.
    + intros [= <-]. destruct (IH1 _ _ _ _ E) as (s1 & s2 & c' & H1 & H2 & H3).
      exists s1, s2, c'. auto.
    + intros H. destruct (IH2 _ _ _ _ H) as (s1 & s2 & c' & H1 & H2 & H3).
      exists s1, s2, c'. auto.
  - destruct (run n0 r s caps k) as [y|] eqn:E.
    + intros [= <-]. destruct (IH _ _ _ _ E) as (s1 & s2 & c' & H1 & H2 & H3).
      exists s1, s2, c'. auto.
    + intros H. exists [], s, caps. auto.
  - intros H. destruct (IH _ _ _ _ H) as (s1 & s2 & c' & H1 & H2 & H3).
    exists s1, s2, ((n, take (length s - length s2) s) :: c'). auto.
Qed.

Lemma star_complete {R : Type} p s1 s2 caps
    (k : str -> captures -> option R) :
  Forall (fun c => p c = true) s1 -> k s2 caps <> None ->
  star p (s1 ++ s2) caps k <> None.
Proof.
  intros H Hk. induction H as [|c s1 Hc _ IH]; cbn [app].
  - destruct s2 as [|c s2]; cbn [star]; [exact Hk|].
    destruct (p c); [|exact Hk].
    destruct (star p s2 caps k); [discriminate | exact Hk].
  - cbn [star]. rewrite Hc.
    destruct (star p (s1 ++ s2) caps k); [discriminate | contradiction].
Qed.

Lemma run_complete {R : Type} n0 r :
  forall s1 s2 caps (k : str -> captures -> option R),
    lang n0 r s1 s2 -> (forall c, k s2 c <> None) ->
    run n0 r (s1 ++ s2) caps k <> None.
Proof.
  induction r as [| |l|p|p|r1 IH1 r2 IH2|r1 IH1 r2 IH2|r IH|n r IH];
    intros s1 s2 caps k; cbn [run lang].
  - intros [-> Hn] Hk. cbn [app]. apply Nat.eqb_eq in Hn. rewrite Hn.
    apply Hk.
  - intros [-> [->| ->]] Hk; cbn [app]; [apply Hk|].
    change (LF =? LF) with true. apply Hk.
  - intros -> Hk. rewrite strip_prefix_app. apply Hk.
  - intros (c & -> & Hc) Hk. cbn [app]. rewrite Hc. apply Hk.
  - intros H Hk. apply star_complete; [exact H | apply Hk].
  - intros (a & b & -> & Ha & Hb) Hk. rewrite <- app_assoc.
    apply IH1; [exact Ha|]. intros c. apply IH2; assumption.
  - intros [H|H] Hk.
    + pose proof (IH1 _ _ caps k H Hk) as H1.
      destruct (run n0 r1 (s1 ++ s2) caps k); [discriminate | contradiction].
    + destruct (run n0 r1 (s1 ++ s2) caps k); [discriminate|].
      apply IH2; assumption.
  - intros [->|H] Hk.
    + cbn [app]. destruct (run n0 r s2 caps k); [discriminate | apply Hk].
    + pose proof (IH _ _ caps k H Hk) as H1.
      destruct (run n0 r (s1 ++ s2) caps k); [discriminate | contradiction].
  - intros H Hk. apply IH; [exact H|]. intros c. apply Hk.
Qed.

(** [re.fullmatch] finds a match exactly when the whole subject is in
    the language of the pattern. *)
Lemma fullmatch_lang r s :
  re_fullmatch r s <> None <-> lang (length s) r s [].
Proof.
  unfold re_fullmatch. split.
  - destruct (run _ r s [] _) as [x|] eqn:E; [|congruence]. intros _.
    destruct (run_sound _ _ _ _ _ _ E) as (s1 & s2 & c' & -> & Hl & Hk).
    destruct s2; [|discriminate]. rewrite app_nil_r in *. exact Hl.
  - intros H. rewrite <- (app_nil_r s) at 2.
    apply run_complete; [exact H|]. discriminate.
Qed.

Lemma lang_plus n0 p s s2 :
  lang n0 (Plus p) s s2 <-> s <> [] /\ Forall (fun c => p c = true) s.
Proof.
  unfold Plus. cbn [lang]. split.
  - intros (a & b & -> & (c & -> & Hc) & Hb). split; [discriminate|].
    constructor; assumption.
  - intros [Hne H]. destruct H as [|c s Hc Hs]; [congruence|].
    exists [c], s. eauto.
Qed.

Lemma lang_numeric n0 n s s2 :
  lang n0 (numeric n) s s2 <-> numeric_identifier s.
Proof.
  unfold numeric, numeric_identifier. cbn [lang]. split.
  - intros [H|(a & b & -> & (c & -> & Hc) & Hb)]; [left; exact H|].
    right. exists c, b. auto.
  - intros [H|(c & ds & -> & Hc & Hd)]; [left; exact H|].
    right. exists [c], ds. eauto.
Qed.

Lemma lang_optional_part n0 n sep s s2 :
  lang n0 (Opt (Grp n (Seq (Lit sep) (Plus idchar)))) s s2
  <-> optional_part sep s.
Proof.
  unfold optional_part. cbn [lang]. fold (Plus idchar). split.
  - intros [H|(a & b & -> & -> & Hb)]; [left; exact H|].
    right. exists b. split; [reflexivity|]. eapply lang_plus, Hb.
  - intros [H|(ids & -> & Hi)]; [left; exact H|].
    right. exists sep, ids. split; [reflexivity|]. split; [reflexivity|].
    apply lang_plus, Hi.
Qed.

Lemma lang_semver_pattern n0 s s2 :
  lang n0 SEMVER_PATTERN s s2 <->
  exists major minor patch pre build,
    s = major ++ lit "." ++ minor ++ lit "." ++ patch ++ pre ++ build
    /\ numeric_identifier major /\ numeric_identifier minor
    /\ numeric_identifier patch
    /\ optional_part (lit "-") pre /\ optional_part (lit "+") build.
Proof.
  unfold SEMVER_PATTERN. split.
  - intros (major & s1 & -> & Hmajor & d1 & s3 & -> & -> & minor & s4 & ->
            & Hminor & d2 & s5 & -> & -> & patch & s6 & -> & Hpatch
            & pre & build & -> & Hpre & Hbuild).
    exists major, minor, patch, pre, build.
    split; [reflexivity|].
    repeat split;
      first [ eapply lang_numeric; eassumption
            | eapply lang_optional_part; eassumption ].
  - intros (major & minor & patch & pre & build & -> & H1 & H2 & H3 & H4 & H5).
    exists major, (lit "." ++ minor ++ lit "." ++ patch ++ pre ++ build).
    split; [reflexivity|]. split; [apply lang_numeric, H1|].
    exists (lit "."), (minor ++ lit "." ++ patch ++ pre ++ build).
    split; [reflexivity|]. split; [reflexivity|].
    exists minor, (lit "." ++ patch ++ pre ++ build).
    split; [reflexivity|]. split; [apply lang_numeric, H2|].
    exists (lit "."), (patch ++ pre ++ build).
    split; [reflexivity|]. split; [reflexivity|].
    exists patch, (pre ++ build).
    split; [reflexivity|]. split; [apply lang_numeric, H3|].
    exists pre, build.
    split; [reflexivity|].
    split; apply lang_optional_part; assumption.
Qed.

Lemma is_semver_lang v :
  is_semver v = true <-> lang (length v) SEMVER_RE v [].
Proof.
  rewrite <- fullmatch_lang. unfold is_semver.
  destruct (re_fullmatch SEMVER_RE v); split; congruence.
Qed.

(** X1. The version pattern accepts exactly the strings of the grammar:
    three numbers without leading zeros between dots, then an optional
    dash part and an optional plus part; nothing before, nothing after,
    not even a final newline. *)
Theorem semver_grammar (v : str) : is_semver v = true <-> semver_shape v.
Proof.
  rewrite is_semver_lang. unfold SEMVER_RE, semver_shape.
  rewrite <- (lang_semver_pattern (length v) v []). cbn [lang]. split.
  - intros (a & b & -> & [-> _] & a' & b' & -> & H & -> & _).
    cbn [app] in *. rewrite app_nil_r in *. exact H.
  - intros H. exists [], v. split; [reflexivity|].
    split; [split; [reflexivity | rewrite app_nil_r; reflexivity]|].
    exists v, []. split; [rewrite app_nil_r; reflexivity|].
    split; [exact H | auto].
Qed.

Lemma semver_grammar_witness : semver_shape (lit "1.2.3-rc.1+build.5").
Proof. apply (proj1 (semver_grammar _)). vm_compute. reflexivity. Defined.


(** ** Tags and version arguments *)

Lemma semver_first_digit v :
  is_semver v = true -> exists c s, v = c :: s /\ digit c = true.
Proof.
  intros H. apply is_semver_lang in H. unfold SEMVER_RE in H. cbn [lang] in H.
  destruct H as (a & b & -> & [-> _] & a' & b' & -> & H & _).
  apply lang_semver_pattern in H
    as (major & minor & patch & pre & build & -> & H1 & _).
  destruct H1 as [->|(c & ds & -> & Hc & _)].
  - eexists _, _. split; [reflexivity|]. reflexivity.
  - eexists c, _. split; [reflexivity|]. unfold digit19, digit in *.
    apply andb_true_iff in Hc as [H1 H2]. apply andb_true_iff.
    split; [|exact H2]. apply N.leb_le in H1. apply N.leb_le. lia.
Qed.

Lemma semver_no_v_prefix v :
  is_semver v = true -> strip_prefix (lit "v") v = None.
Proof.
  intros H. destruct (semver_first_digit v H) as (c & s & -> & Hc).
  change (lit "v") with [118]. cbn [strip_prefix].
  destruct (118 =? c) eqn:E; [|reflexivity].
  apply N.eqb_eq in E. subst c. discriminate.
Qed.

(** X2. A tag is the letter [v] followed by a version, and nothing else. *)
Theorem tag_grammar (tag : str) :
  is_tag tag = true <->
  exists version, tag = lit "v" ++ version /\ is_semver version = true.
Proof.
  split.
  - intros H. assert (Hl : lang (length tag) TAG_RE tag []).
    { apply fullmatch_lang. unfold is_tag in H.
      destruct (re_fullmatch TAG_RE tag); congruence. }
    unfold TAG_RE in Hl. cbn [lang] in Hl.
    destruct Hl as (a & b & -> & [-> _] & a' & b' & -> & -> & _).
    cbn [app] in *. exists b'. split; [reflexivity|].
    rewrite <- is_tag_v. exact H.
  - intros (version & -> & H). rewrite is_tag_v. exact H.
Qed.

Lemma tag_grammar_witness : is_tag (lit "v1.2.3") = true.
Proof.
  apply (proj2 (tag_grammar _)). exists (lit "1.2.3").
  split; [reflexivity | vm_compute; reflexivity].
Defined.

(** X3. [normalize_version] returns a version exactly when its argument,
    with the white space around it removed, is a version or the letter
    [v] followed by one; it then returns that version. Otherwise it
    fails with the error that quotes the argument as it was given. What
    it returns it accepts again, with or without a [v] before it. *)
Theorem normalize_version_spec (raw : str) :
  (forall v,
     normalize_version raw = Ok v <->
     is_semver v = true /\ (strip raw = v \/ strip raw = lit "v" ++ v))
  /\ (forall e, normalize_version raw = Err e -> e = InvalidVersion raw)
  /\ (forall v,
        normalize_version raw = Ok v ->
        normalize_version v = Ok v
        /\ normalize_version (lit "v" ++ v) = Ok v).
Proof.
  assert (Hiff : forall raw v,
            normalize_version raw = Ok v <->
            is_semver v = true
            /\ (strip raw = v \/ strip raw = lit "v" ++ v)).
  { clear raw. intros raw v. unfold normalize_version. split.
    - destruct (strip_prefix (lit "v") (strip raw)) as [rest|] eqn:E.
      + apply strip_prefix_Some in E.
        destruct (is_semver rest) eqn:Es; [|discriminate].
        intros [= <-]. auto.
      + destruct (is_semver (strip raw)) eqn:Es; [|discriminate].
        intros [= <-]. auto.
    - intros [Hs [H|H]]; rewrite H.
      + rewrite (semver_no_v_prefix v Hs), Hs. reflexivity.
      + rewrite strip_prefix_app, Hs. reflexivity. }
  split; [apply Hiff|]. split.
  - unfold normalize_version.
    destruct (is_semver _); [discriminate|]. intros e [= <-]. reflexivity.
  - intros v H. apply Hiff in H as [Hs _].
    destruct (semver_chars v Hs) as [_ Hc].
    split; apply Hiff; (split; [exact Hs|]).
    + left. apply (semver_strip v Hs).
    + right. apply strip_no_space. constructor; [reflexivity|].
      eapply Forall_impl; [exact Hc | apply semver_char_nonspace].
Qed.

(** The argument [ v0.1.0 ], with blanks around it, gives 0.1.0. *)
Lemma normalize_version_spec_witness :
  normalize_version (lit " v0.1.0 ") = Ok (lit "0.1.0")
  /\ normalize_version (lit "0.1.0") = Ok (lit "0.1.0").
Proof.
  assert (H : normalize_version (lit " v0.1.0 ") = Ok (lit "0.1.0")).
  { apply (proj1 (normalize_version_spec (lit " v0.1.0 "))).
    split; [vm_compute; reflexivity|]. right. vm_compute. reflexivity. }
  split; [exact H|].
  apply (proj2 (proj2 (normalize_version_spec (lit " v0.1.0 "))) _ H).
Defined.

(** ** Line endings *)

Lemma endswith_spec s p : endswith s p = true <-> exists b, s = b ++ p.
Proof.
  unfold endswith, startswith. split.
  - destruct (strip_prefix (rev p) (rev s)) as [r|] eqn:E; [|discriminate].
    intros _. apply strip_prefix_Some in E. exists (rev r).
    rewrite <- (rev_involutive s), E, rev_app_distr, rev_involutive.
    reflexivity.
  - intros (b & ->). rewrite rev_app_distr, strip_prefix_app. reflexivity.
Qed.

Lemma take_app_suffix (b p : str) n :
  n = length p -> take (length (b ++ p) - n) (b ++ p) = b.
Proof.
  intros ->. rewrite length_app.
  replace (length b + length p - length p)%nat with (length b) by lia.
  apply take_app_length.
Qed.

(** X4. [split_line_ending] loses nothing: the two parts put together are
    the line. The ending is the longest of the three terminators the
    line ends with, and empty only when it ends with none. *)
Theorem split_line_ending_lossless (line : str) :
  let (body, ending) := split_line_ending line in
  body ++ ending = line
  /\ (ending = [CR; LF]
      \/ (ending = [LF] /\ endswith body [CR] = false)
      \/ ending = [CR]
      \/ (ending = [] /\ endswith line [LF] = false
          /\ endswith line [CR] = false)).
Proof.
  unfold split_line_ending.
  destruct (endswith line [CR; LF]) eqn:E2.
  { apply endswith_spec in E2 as (b & ->).
    rewrite take_app_suffix by reflexivity. auto. }
  destruct (endswith line [LF]) eqn:E1.
  { apply endswith_spec in E1 as (b & ->).
    rewrite take_app_suffix by reflexivity. split; [reflexivity|].
    right. left. split; [reflexivity|].
    destruct (endswith b [CR]) eqn:E; [|reflexivity].
    apply endswith_spec in E as (b' & ->).
    rewrite <- app_assoc in E2. cbn [app] in E2.
    assert (H : endswith (b' ++ [CR; LF]) [CR; LF] = true)
      by (apply endswith_spec; eauto).
    congruence. }
  destruct (endswith line [CR]) eqn:E3.
  { apply endswith_spec in E3 as (b & ->).
    rewrite take_app_suffix by reflexivity. auto. }
  split; [apply app_nil_r|]. auto 6.
Qed.


(** ** The reader and the writer of a format agree *)

(** X5. The writer of a key-value manifest succeeds on exactly the files on
    which the reader does, and sees the same value: with no version line
    in the package section both fail, each with its own error; when the
    value read is the new version the writer reports no change and
    leaves the file; otherwise it reports a change. *)
Theorem toml_reader_writer_agree (pf : platform) (raw new_version : str) :
  (read_toml_package_version raw = Err CannotFindPackageVersion
   /\ write_toml_package_version pf raw new_version
      = Err CannotUpdatePackageVersion)
  \/ (read_toml_package_version raw = Ok new_version
      /\ write_toml_package_version pf raw new_version = Ok (false, raw))
  \/ (exists v raw',
        read_toml_package_version raw = Ok v /\ v <> new_version
        /\ write_toml_package_version pf raw new_version = Ok (true, raw')).
Proof.
  rewrite read_toml_spec. unfold write_toml_package_version.
  rewrite write_toml_spec.
  destruct (toml_find _ 0 false) as [[i v]|] eqn:Ef; [|left; auto].
  right.
  destruct (toml_find_lookup _ _ _ _ _ Ef) as (j & l & Hij & Hl & Hv).
  cbn in Hij. subst j.
  destruct (toml_version_line l v (splitlines_ok _ _ _ Hl) Hv)
    as (lead & K & rest & t & e & Hvl).
  rewrite (rewrite_lock_line_spec _ _ _ _ _ _ _ _ _ _ Hl Hvl).
  destruct (str_eqb v new_version) eqn:E; cbn [written].
  - apply str_eqb_eq in E. subst v. left. auto.
  - apply str_eqb_neq in E. right. eauto.
Qed.

(** X6. The same for a named-block lock file, where there are two ways to
    fail: no block to take, and a block without a version line, which
    both the reader and the writer report as a missing version. *)
Theorem lock_reader_writer_agree
    (pf : platform) (raw package_name new_version : str) :
  (read_lock_package_version raw package_name
   = Err (CannotFindLockfilePackage package_name)
   /\ write_lock_package_version pf raw package_name new_version
      = Err (CannotUpdateLockfilePackage package_name))
  \/ (read_lock_package_version raw package_name
      = Err (MissingLockfileVersion package_name)
      /\ write_lock_package_version pf raw package_name new_version
         = Err (MissingLockfileVersion package_name))
  \/ (read_lock_package_version raw package_name = Ok new_version
      /\ write_lock_package_version pf raw package_name new_version
         = Ok (false, raw))
  \/ (exists v raw',
        read_lock_package_version raw package_name = Ok v
        /\ v <> new_version
        /\ write_lock_package_version pf raw package_name new_version
           = Ok (true, raw')).
Proof.
  rewrite read_lock_spec. unfold write_lock_package_version.
  rewrite write_lock_spec.
  destruct (select_block _ _) as [b|] eqn:Eb; [|left; auto].
  right. cbn [read_selected write_selected].
  destruct (block_version_idx b) as [i|] eqn:Ei.
  - right.
    destruct (block_version_line _ _ _ (select_block_in _ _ _ Eb) Ei)
      as (l & v & Hl & Hv & Hbv).
    rewrite Hbv.
    destruct (lock_version_line l v (splitlines_ok _ _ _ Hl) Hv)
      as (lead & K & rest & t & e & Hvl & _).
    rewrite (rewrite_lock_line_spec _ _ _ _ _ _ _ _ _ _ Hl Hvl).
    destruct (str_eqb v new_version) eqn:E; cbn [written].
    + apply str_eqb_eq in E. subst v. left. auto.
    + apply str_eqb_neq in E. right. eauto.
  - left. rewrite (block_version_none _ _ (select_block_in _ _ _ Eb) Ei).
    auto.
Qed.

(** ** Writing the same version again *)

Lemma write_toml_twice pf raw V r :
  is_semver V = true ->
  write_toml_package_version pf raw V = Ok r ->
  write_toml_package_version pf (snd r) V = Ok (false, snd r).
Proof.
  intros HV H. apply read_toml_then_write.
  eapply write_toml_then_read; eassumption.
Qed.

Lemma write_lock_twice pf raw package_name V r :
  is_semver V = true ->
  write_lock_package_version pf raw package_name V = Ok r ->
  write_lock_package_version pf (snd r) package_name V = Ok (false, snd r).
Proof.
  intros HV H. apply read_lock_then_write.
  eapply write_lock_then_read; eassumption.
Qed.

Lemma write_json_twice data V r :
  write_json_version data V = Ok r ->
  write_json_version (default data r) V = Ok None.
Proof.
  unfold write_json_version.
  destruct data as [| | | | | |items]; try discriminate.
  destruct (json_is_str _ V) eqn:E; intros [= <-]; cbn [default from_option id].
  - rewrite E. reflexivity.
  - rewrite dict_get_set. cbn [json_is_str]. rewrite str_eqb_refl.
    reflexivity.
Qed.

Lemma write_package_lock_settled items packages root V :
  dict_get items (lit "version") = Some (JStr V) ->
  dict_get items (lit "packages") = Some (JDict packages) ->
  dict_get packages [] = Some (JDict root) ->
  dict_get root (lit "version") = Some (JStr V) ->
  write_package_lock_version (JDict items) V = Ok None.
Proof.
  intros Hv Hp Hr Hrv. unfold write_package_lock_version.
  rewrite Hv. cbn [json_is_str]. rewrite str_eqb_refl. cbn [negb].
  rewrite Hp, Hr, Hrv. cbn [json_is_str]. rewrite str_eqb_refl. reflexivity.
Qed.

Lemma write_package_lock_twice data V r :
  write_package_lock_version data V = Ok r ->
  write_package_lock_version (default data r) V = Ok None.
Proof.
  unfold write_package_lock_version at 1.
  destruct data as [| | | | | |items]; try discriminate.
  set (items1 := if negb (json_is_str (dict_get items (lit "version")) V)
                 then dict_set items (lit "version") (JStr V) else items).
  assert (H1 : dict_get items1 (lit "version") = Some (JStr V)).
  { unfold items1. destruct (json_is_str _ V) eqn:E; cbn [negb].
    - apply json_is_str_true, E.
    - apply dict_get_set. }
  destruct (dict_get items1 (lit "packages")) as [[| | | | | |packages]|] eqn:Ep;
    try discriminate.
  destruct (dict_get packages []) as [[| | | | | |root]|] eqn:Er;
    try discriminate.
  set (root' := if negb (json_is_str (dict_get root (lit "version")) V)
                then dict_set root (lit "version") (JStr V) else root).
  assert (H2 : dict_get root' (lit "version") = Some (JStr V)).
  { unfold root'. destruct (json_is_str (dict_get root _) V) eqn:E; cbn [negb].
    - apply json_is_str_true, E.
    - apply dict_get_set. }
  destruct (negb (json_is_str (dict_get items _) V)
            || negb (json_is_str (dict_get root _) V)) eqn:Ech;
    intros [= <-]; cbn [default from_option id].
  - apply (write_package_lock_settled _
             (dict_set packages [] (JDict root')) root').
    + rewrite dict_get_set_other by discriminate. exact H1.
    + apply dict_get_set.
    + apply dict_get_set.
    + exact H2.
  - apply orb_false_iff in Ech as [E1 E2].
    unfold items1 in *. rewrite E1 in *. unfold root' in *. rewrite E2 in *.
    apply (write_package_lock_settled _ packages root); assumption.
Qed.

(** X7. Writing is idempotent: after a writer has succeeded with a version,
    the same writer with the same version on the file as it is then
    reports no change and writes nothing. For the two line formats the
    version has to be a semantic version (the rewritten line has to read
    back as that version); for the two JSON formats any string will
    do. *)
Theorem second_write_changes_nothing (pf : platform) (V : str) :
  (is_semver V = true ->
   (forall raw r,
      write_toml_package_version pf raw V = Ok r ->
      write_toml_package_version pf (snd r) V = Ok (false, snd r))
   /\ (forall raw package_name r,
         write_lock_package_version pf raw package_name V = Ok r ->
         write_lock_package_version pf (snd r) package_name V
         = Ok (false, snd r)))
  /\ (forall data r,
        write_json_version data V = Ok r ->
        write_json_version (default data r) V = Ok None)
  /\ (forall data r,
        write_package_lock_version data V = Ok r ->
        write_package_lock_version (default data r) V = Ok None).
Proof.
  split; [|split].
  - intros HV. split.
    + intros raw r. apply write_toml_twice, HV.
    + intros raw package_name r. apply write_lock_twice, HV.
  - intros data r. apply write_json_twice.
  - intros data r. apply write_package_lock_twice.
Qed.

Lemma second_write_changes_nothing_witness :
  write_toml_package_version Posix (manifest "0.2.0" [LF]) (lit "0.2.0")
  = Ok (false, manifest "0.2.0" [LF])
  /\ write_json_version
       (JDict (dict_set [(lit "name", JStr (lit "web"))] (lit "version")
                 (JStr (lit "0.2.0"))))
       (lit "0.2.0")
     = Ok None.
Proof.
  split.
  - apply (proj1 (proj1 (second_write_changes_nothing Posix (lit "0.2.0"))
                    ltac:(vm_compute; reflexivity))
             sample_manifest (true, manifest "0.2.0" [LF])).
    vm_compute. reflexivity.
  - apply (proj1 (proj2 (second_write_changes_nothing Posix (lit "0.2.0")))
             (JDict [(lit "name", JStr (lit "web"))])
             (Some (JDict (dict_set [(lit "name", JStr (lit "web"))]
                             (lit "version") (JStr (lit "0.2.0")))))).
    vm_compute. reflexivity.
Defined.

(** X8. A writer reports a change exactly when the file is different
    afterwards. *)
Theorem change_reported_iff_changed (pf : platform) (V : str) :
  (is_semver V = true ->
   (forall raw changed raw',
      write_toml_package_version pf raw V = Ok (changed, raw') ->
      (changed = true <-> raw' <> raw))
   /\ (forall raw package_name changed raw',
         write_lock_package_version pf raw package_name V
         = Ok (changed, raw') ->
         (changed = true <-> raw' <> raw)))
  /\ (forall data r,
        write_json_version data V = Ok r ->
        forall data', r = Some data' -> data' <> data)
  /\ (forall data r,
        write_package_lock_version data V = Ok r ->
        forall data', r = Some data' -> data' <> data).
Proof.
  split; [|split].
  - intros HV. split.
    + intros raw changed raw' H.
      pose proof (write_toml_twice pf raw V _ HV H) as H2. cbn [snd] in H2.
      destruct changed.
      * split; [|reflexivity]. intros _ ->. congruence.
      * unfold write_toml_package_version, written in H.
        destruct (write_toml_content _ _) as [[c|]|]; try discriminate.
        injection H as <-. split; [discriminate | congruence].
    + intros raw package_name changed raw' H.
      pose proof (write_lock_twice pf raw package_name V _ HV H) as H2.
      cbn [snd] in H2. destruct changed.
      * split; [|reflexivity]. intros _ ->. congruence.
      * unfold write_lock_package_version, written in H.
        destruct (write_lock_content _ _ _) as [[c|]|]; try discriminate.
        injection H as <-. split; [discriminate | congruence].
  - intros data r H data' -> ->.
    pose proof (write_json_twice _ _ _ H) as H2.
    cbn [default from_option id] in H2. congruence.
  - intros data r H data' -> ->.
    pose proof (write_package_lock_twice _ _ _ H) as H2.
    cbn [default from_option id] in H2. congruence.
Qed.

Lemma change_reported_iff_changed_witness :
  manifest "0.2.0" [LF] <> sample_manifest.
Proof.
  apply (proj1 (proj1 (change_reported_iff_changed Posix (lit "0.2.0"))
                  ltac:(vm_compute; reflexivity))
           sample_manifest true (manifest "0.2.0" [LF])
           ltac:(vm_compute; reflexivity)).
  reflexivity.
Defined.


(** ** What a write leaves as it is *)

Lemma read_file_id s : no_cr s -> read_file s = s.
Proof.
  unfold read_file. induction 1 as [|c s Hc _ IH]; [reflexivity|].
  cbn [universal_newlines].
  destruct (N.eqb_spec c CR) as [->|_]; [congruence|]. rewrite IH.
  reflexivity.
Qed.

Lemma write_file_posix s : write_file Posix s = s.
Proof.
  induction s as [|c s IH]; [reflexivity|]. cbn [write_file os_linesep].
  rewrite IH. destruct (N.eqb_spec c LF) as [->|_]; reflexivity.
Qed.

(** X9. On a POSIX platform, on a file without carriage returns, a write of
    either surgical writer changes the bytes between the quotes of one
    version line and no other byte of the file. *)
Theorem posix_write_frame (raw package_name new_version raw' : str) :
  no_cr raw ->
  write_toml_package_version Posix raw new_version = Ok (true, raw')
  \/ write_lock_package_version Posix raw package_name new_version
     = Ok (true, raw') ->
  exists before lead_key old after,
    raw = before ++ lead_key ++ old ++ DQUOTE :: after
    /\ raw' = before ++ lead_key ++ new_version ++ DQUOTE :: after
    /\ last lead_key = Some DQUOTE /\ no_quote old.
Proof.
  intros Hcr H.
  assert (Hw : exists content',
             raw' = content'
             /\ (write_toml_content (read_file raw) new_version
                 = Ok (Some content')
                 \/ write_lock_content (read_file raw) package_name
                      new_version = Ok (Some content'))).
  { unfold write_toml_package_version, write_lock_package_version, written
      in H.
    destruct H as [H|H].
    - destruct (write_toml_content _ _) as [[c|]|]; try discriminate.
      injection H as <-. exists c. rewrite write_file_posix. auto.
    - destruct (write_lock_content _ _ _) as [[c|]|]; try discriminate.
      injection H as <-. exists c. rewrite write_file_posix. auto. }
  destruct Hw as (content' & -> & Hw).
  destruct (surgical_write_text raw package_name new_version content' Hw)
    as (before & lead_key & old & after & H1 & H2 & H3 & H4).
  rewrite (read_file_id raw Hcr) in H1.
  exists before, lead_key, old, after. auto.
Qed.

Lemma posix_write_frame_witness :
  exists before lead_key old after,
    sample_manifest = before ++ lead_key ++ old ++ DQUOTE :: after
    /\ manifest "0.2.0" [LF]
       = before ++ lead_key ++ lit "0.2.0" ++ DQUOTE :: after
    /\ last lead_key = Some DQUOTE /\ no_quote old.
Proof.
  apply (posix_write_frame sample_manifest [] (lit "0.2.0")).
  - vm_compute. repeat constructor; discriminate.
  - left. vm_compute. reflexivity.
Defined.

(** X10. What [write_file] writes, [read_file] reads back as it was, on
    either platform, when the text has no carriage return; and the text
    that [read_file] returns never has one. *)
Theorem file_round_trip (pf : platform) (content raw : str) :
  (no_cr content -> read_file (write_file pf content) = content)
  /\ no_cr (read_file raw).
Proof.
  split; [apply read_write_file | apply read_file_no_cr].
Qed.

Lemma file_round_trip_witness :
  read_file (write_file Windows sample_manifest) = sample_manifest.
Proof.
  apply (proj1 (file_round_trip Windows sample_manifest [])).
  vm_compute. repeat constructor; discriminate.
Defined.

Lemma dict_set_keys {A : Type} (d : list (str * A)) key v :
  map fst (dict_set d key v) = keys_with d key.
Proof.
  unfold keys_with.
  induction d as [|[k x] d IH]; cbn [dict_set dict_get map fst app];
    [reflexivity|].
  destruct (str_eqb k key) eqn:E; cbn [map fst]; [reflexivity|].
  rewrite IH. destruct (dict_get d key); reflexivity.
Qed.

Lemma dict_set_same_except {A : Type} (d : list (str * A)) key v :
  same_except [key] d (dict_set d key v).
Proof.
  intros k Hk. apply dict_get_set_other. intros ->. apply Hk. left.
  reflexivity.
Qed.

(** X11. A write of [write_json_version] sets the version and nothing else:
    the document is an object, every other key keeps its value, and the
    keys keep their order, the version key being added at the end when
    there was none. It writes only when the stored version is not
    already the new one. *)
Theorem json_write_frame (data data' : json) (new_version : str) :
  write_json_version data new_version = Ok (Some data') ->
  exists items items',
    data = JDict items /\ data' = JDict items'
    /\ dict_get items (lit "version") <> Some (JStr new_version)
    /\ dict_get items' (lit "version") = Some (JStr new_version)
    /\ same_except [lit "version"] items items'
    /\ map fst items' = keys_with items (lit "version").
Proof.
  unfold write_json_version.
  destruct data as [| | | | | |items]; try discriminate.
  destruct (json_is_str _ new_version) eqn:E; [discriminate|].
  intros [= <-]. exists items, (dict_set items (lit "version") (JStr new_version)).
  split; [reflexivity|]. split; [reflexivity|]. split.
  - intros H. apply json_is_str_true in H. congruence.
  - split; [apply dict_get_set|].
    split; [apply dict_set_same_except | apply dict_set_keys].
Qed.

Lemma json_write_frame_witness :
  exists items items',
    sample_document = JDict items
    /\ dict_get items' (lit "version") = Some (JStr (lit "0.2.0"))
    /\ same_except [lit "version"] items items'
    /\ map fst items' = map fst items.
Proof.
  destruct (json_write_frame sample_document
              (JDict [ (lit "name", JStr (lit "web"));
                       (lit "version", JStr (lit "0.2.0")) ])
              (lit "0.2.0") ltac:(vm_compute; reflexivity))
    as (items & items' & H1 & H2 & _ & H4 & H5 & H6).
  exists items, items'. injection H1 as <-. auto.
Defined.


Lemma keys_with_present {A : Type} (d : list (str * A)) key x :
  dict_get d key = Some x -> keys_with d key = map fst d.
Proof. unfold keys_with. intros ->. reflexivity. Qed.

Lemma same_except_refl {A : Type} keys (d : list (str * A)) :
  same_except keys d d.
Proof. intros k _. reflexivity. Qed.

Lemma same_except_weaken {A : Type} keys keys' (d d' : list (str * A)) :
  (forall k, In k keys -> In k keys') ->
  same_except keys d d' -> same_except keys' d d'.
Proof. intros Hsub H k Hk. apply H. intros Hin. apply Hk, Hsub, Hin. Qed.

Lemma same_except_trans {A : Type} keys (d d' d'' : list (str * A)) :
  same_except keys d d' -> same_except keys d' d'' -> same_except keys d d''.
Proof. intros H1 H2 k Hk. rewrite (H2 k Hk). apply H1, Hk. Qed.

(** X12. [write_package_lock_version] needs [packages] to be an object with
    an object under the empty key, and fails with its own error
    otherwise, whatever the versions are. A write sets the two versions
    and nothing else: at the top level every key but [version] and
    [packages] keeps its value, in [packages] every key but the empty
    one, in the root package every key but [version]; and the keys keep
    their order. *)
Theorem package_lock_write_spec (items : list (str * json))
    (new_version : str) :
  (forall e,
     write_package_lock_version (JDict items) new_version = Err e ->
     e = CannotFindPackagesObject
     /\ ~ exists packages root,
          dict_get items (lit "packages") = Some (JDict packages)
          /\ dict_get packages [] = Some (JDict root))
  /\ (forall packages root,
        dict_get items (lit "packages") = Some (JDict packages) ->
        dict_get packages [] = Some (JDict root) ->
        exists r, write_package_lock_version (JDict items) new_version = Ok r)
  /\ (forall data',
        write_package_lock_version (JDict items) new_version
        = Ok (Some data') ->
        exists packages root items' packages' root',
          dict_get items (lit "packages") = Some (JDict packages)
          /\ dict_get packages [] = Some (JDict root)
          /\ data' = JDict items'
          /\ dict_get items' (lit "packages") = Some (JDict packages')
          /\ dict_get packages' [] = Some (JDict root')
          /\ dict_get items' (lit "version") = Some (JStr new_version)
          /\ dict_get root' (lit "version") = Some (JStr new_version)
          /\ same_except [lit "version"; lit "packages"] items items'
          /\ same_except [[]] packages packages'
          /\ same_except [lit "version"] root root'
          /\ map fst items' = keys_with items (lit "version")
          /\ map fst packages' = map fst packages
          /\ map fst root' = keys_with root (lit "version")).
Proof.
  unfold write_package_lock_version.
  set (items1 := if negb (json_is_str (dict_get items (lit "version"))
                            new_version)
                 then dict_set items (lit "version") (JStr new_version)
                 else items).
  assert (H1 : dict_get items1 (lit "version") = Some (JStr new_version)).
  { unfold items1. destruct (json_is_str _ new_version) eqn:E; cbn [negb].
    - apply json_is_str_true, E.
    - apply dict_get_set. }
  assert (Hp : dict_get items1 (lit "packages")
               = dict_get items (lit "packages")).
  { unfold items1. destruct (negb _); [|reflexivity].
    apply dict_get_set_other. discriminate. }
  assert (Hs1 : same_except [lit "version"] items items1).
  { unfold items1.
    destruct (negb (json_is_str (dict_get items _) new_version));
      [apply dict_set_same_except | apply same_except_refl]. }
  assert (Hk1 : map fst items1 = keys_with items (lit "version")).
  { unfold items1. destruct (json_is_str _ new_version) eqn:E; cbn [negb].
    - apply json_is_str_true in E. symmetry. eapply keys_with_present, E.
    - apply dict_set_keys. }
  rewrite Hp.
  split; [|split].
  - intros e He.
    destruct (dict_get items (lit "packages")) as [[| | | | | |packages]|];
      try (injection He as <-; split; [reflexivity|];
           intros (p & r & [=] & _)).
    destruct (dict_get packages []) as [[| | | | | |root]|] eqn:Er;
      try (injection He as <-; split; [reflexivity|];
           intros (p & r & [= <-] & Hr); congruence).
    destruct (_ || _); discriminate.
  - intros packages root -> ->. destruct (_ || _); eauto.
  - intros data'.
    destruct (dict_get items (lit "packages")) as [[| | | | | |packages]|]
      eqn:Ep; try discriminate.
    destruct (dict_get packages []) as [[| | | | | |root]|] eqn:Er;
      try discriminate.
    set (root' := if negb (json_is_str (dict_get root (lit "version"))
                             new_version)
                  then dict_set root (lit "version") (JStr new_version)
                  else root).
    assert (H2 : dict_get root' (lit "version") = Some (JStr new_version)).
    { unfold root'.
      destruct (json_is_str (dict_get root _) new_version) eqn:E; cbn [negb].
      - apply json_is_str_true, E.
      - apply dict_get_set. }
    destruct (_ || _); [|discriminate]. intros [= <-].
    exists packages, root,
      (dict_set items1 (lit "packages")
         (JDict (dict_set packages [] (JDict root')))),
      (dict_set packages [] (JDict root')), root'.
    split; [reflexivity|]. split; [exact Er|]. split; [reflexivity|].
    split; [apply dict_get_set|]. split; [apply dict_get_set|].
    split; [rewrite dict_get_set_other by discriminate; exact H1|].
    split; [exact H2|]. split.
    { eapply same_except_trans.
      - eapply same_except_weaken; [|exact Hs1].
        intros k [<-|[]]. left. reflexivity.
      - eapply same_except_weaken; [|apply dict_set_same_except].
        intros k [<-|[]]. right. left. reflexivity. }
    split; [apply dict_set_same_except|]. split.
    { unfold root'.
      destruct (negb (json_is_str (dict_get root _) new_version));
        [apply dict_set_same_except | apply same_except_refl]. }
    split.
    { rewrite dict_set_keys, <- Hk1. eapply keys_with_present, Hp. }
    split.
    { rewrite dict_set_keys. eapply keys_with_present, Er. }
    unfold root'.
    destruct (json_is_str (dict_get root _) new_version) eqn:E; cbn [negb].
    + apply json_is_str_true in E. symmetry. eapply keys_with_present, E.
    + apply dict_set_keys.
Qed.

Lemma package_lock_write_spec_witness :
  exists r,
    write_package_lock_version mismatched_package_lock (lit "1.0.0") = Ok r.
Proof.
  apply (proj1 (proj2 (package_lock_write_spec
                         [ (lit "version", JStr (lit "1.0.0"));
                           (lit "packages",
                            JDict [ ([], JDict [ (lit "version",
                                                  JStr (lit "1.0.1")) ]) ]) ]
                         (lit "1.0.0")))
           [ ([], JDict [ (lit "version", JStr (lit "1.0.1")) ]) ]
           [ (lit "version", JStr (lit "1.0.1")) ]);
    reflexivity.
Defined.


(** ** The order of the entries does not matter *)

Lemma Sorted_least l x :
  Sorted str_le (x :: l) -> forall y, In y l -> str_le x y.
Proof.
  intros H. apply Sorted_StronglySorted in H.
  - inversion H as [|? ? _ Hall]; subst. intros y Hy.
    rewrite List.Forall_forall in Hall. apply Hall, Hy.
  - intros a b c. apply str_le_trans.
Qed.

Lemma Sorted_unique l l' :
  Sorted str_le l -> Sorted str_le l' -> Permutation l l' -> l = l'.
Proof.
  revert l'. induction l as [|x l IH]; intros l' Hs Hs' Hp.
  - apply Permutation_nil in Hp. congruence.
  - destruct l' as [|y l'];
      [apply Permutation_sym, Permutation_nil in Hp; discriminate|].
    assert (Hxy : x = y).
    { assert (Hx : In x (y :: l'))
        by (eapply Permutation_in; [exact Hp | left; reflexivity]).
      assert (Hy : In y (x :: l))
        by (eapply Permutation_in;
            [symmetry; exact Hp | left; reflexivity]).
      destruct Hx as [Hx|Hx]; [congruence|].
      destruct Hy as [Hy|Hy]; [congruence|].
      apply str_ltb_total.
      - apply (Sorted_least _ _ Hs' x Hx).
      - apply (Sorted_least _ _ Hs y Hy). }
    subst y. f_equal. apply IH.
    + inversion Hs; assumption.
    + inversion Hs'; assumption.
    + eapply Permutation_cons_inv, Hp.
Qed.

Lemma sorted_Permutation l l' : Permutation l l' -> sorted l = sorted l'.
Proof.
  intros H. apply Sorted_unique; try apply sorted_Sorted.
  rewrite (sorted_perm l), (sorted_perm l'). exact H.
Qed.

Lemma files_of_Permutation version versions versions' :
  Permutation versions versions' ->
  Permutation (files_of version versions) (files_of version versions').
Proof.
  unfold files_of. intros H. apply Permutation_map.
  induction H as [|x l l' _ IH|x y l|l l' l'' _ IH1 _ IH2];
    cbn [List.filter].
  - constructor.
  - destruct (str_eqb (snd x) version); [constructor|]; exact IH.
  - destruct (str_eqb (snd x) version), (str_eqb (snd y) version);
      try reflexivity. constructor.
  - etransitivity; eassumption.
Qed.

Lemma group_keys_Permutation versions versions' :
  Permutation versions versions' ->
  Permutation (map fst (group_versions versions))
    (map fst (group_versions versions')).
Proof.
  intros H.
  destruct (group_versions_spec versions) as (Hnd & Hkeys & _).
  destruct (group_versions_spec versions') as (Hnd' & Hkeys' & _).
  apply Permutation.NoDup_Permutation; try assumption.
  intros v. rewrite Hkeys, Hkeys'.
  split; intros (f & Hf); exists f.
  - eapply Permutation_in; [exact H | exact Hf].
  - eapply Permutation_in; [symmetry; exact H | exact Hf].
Qed.

(** X13. [ensure_consistent] does not depend on the order of the entries of
    the mapping: the version it returns, or the report it fails with, is
    the same for every order in which the files were read. *)
Theorem ensure_consistent_order_independent
    (versions versions' : list (str * str)) :
  Permutation versions versions' ->
  ensure_consistent versions = ensure_consistent versions'.
Proof.
  intros H. pose proof (group_keys_Permutation _ _ H) as Hk.
  assert (Hr : report_lines (group_versions versions)
               = report_lines (group_versions versions')).
  { rewrite !report_lines_spec, (sorted_Permutation _ _ Hk). f_equal.
    apply flat_map_ext_In. intros v _. f_equal.
    apply sorted_Permutation, files_of_Permutation, H. }
  unfold ensure_consistent. rewrite Hr.
  destruct (group_versions versions) as [|[k fs] [|? ?]],
           (group_versions versions') as [|[k' fs'] [|? ?]];
    cbn [map fst] in Hk; try reflexivity;
    try (apply Permutation_length in Hk; discriminate).
  apply Permutation_length_1 in Hk. congruence.
Qed.

Lemma ensure_consistent_order_independent_witness :
  ensure_consistent [(lit "a", lit "1.2.3"); (lit "b", lit "1.2.4")]
  = ensure_consistent [(lit "b", lit "1.2.4"); (lit "a", lit "1.2.3")].
Proof.
  apply ensure_consistent_order_independent. constructor.
Defined.


(** ** Runs of the writers *)

Lemma quiet_text path f repo :
  quiet (update_text path f) repo <->
  exists raw', f (text_file repo path) = Ok (false, raw').
Proof.
  unfold quiet, update_text. split.
  - destruct (f (text_file repo path)) as [[[|] raw']|e]; try discriminate.
    eauto.
  - intros (raw' & ->). reflexivity.
Qed.

Lemma quiet_json path f repo :
  quiet (update_json path f) repo <-> f (json_file repo path) = Ok None.
Proof.
  unfold quiet, update_json. split.
  - destruct (f (json_file repo path)) as [[d|]|e]; try discriminate.
    reflexivity.
  - intros ->. reflexivity.
Qed.

Lemma update_text_settles path f :
  (forall raw r, f raw = Ok r -> f (snd r) = Ok (false, snd r)) ->
  settles (update_text path f).
Proof.
  intros Hf repo repo' c H. apply quiet_text. unfold update_text in H.
  destruct (f (text_file repo path)) as [[ch raw']|e] eqn:E; [|discriminate].
  injection H as <- <-. destruct ch.
  - cbn [text_file set_text]. rewrite str_eqb_refl.
    exists raw'. apply (Hf _ _ E).
  - eauto.
Qed.

Lemma update_json_settles path f :
  (forall data r, f data = Ok r -> f (default data r) = Ok None) ->
  settles (update_json path f).
Proof.
  intros Hf repo repo' c H. apply quiet_json. unfold update_json in H.
  destruct (f (json_file repo path)) as [[d|]|e] eqn:E; try discriminate;
    injection H as <- <-.
  - cbn [json_file set_json]. rewrite str_eqb_refl. apply (Hf _ _ E).
  - exact E.
Qed.

Lemma update_text_touches path f : touches_only (update_text path f) path.
Proof.
  intros repo repo' r H. unfold update_text in H.
  destruct (f (text_file repo path)) as [[ch raw']|e]; injection H as <- <-.
  - destruct ch; split; try congruence; try (intros; split; reflexivity).
    intros q Hq. split; [|reflexivity]. cbn [text_file set_text].
    apply str_eqb_neq in Hq. rewrite Hq. reflexivity.
  - split; [intros; split; reflexivity | reflexivity].
Qed.

Lemma update_json_touches path f : touches_only (update_json path f) path.
Proof.
  intros repo repo' r H. unfold update_json in H.
  destruct (f (json_file repo path)) as [[d|]|e]; injection H as <- <-.
  - split; [|congruence]. intros q Hq. split; [reflexivity|].
    cbn [json_file set_json]. apply str_eqb_neq in Hq. rewrite Hq.
    reflexivity.
  - split; [intros; split; reflexivity | reflexivity].
  - split; [intros; split; reflexivity | reflexivity].
Qed.

Lemma update_text_depends path f : depends_only (update_text path f) path.
Proof.
  intros repo repo' [Ht _]. rewrite !quiet_text, Ht. auto.
Qed.

Lemma update_json_depends path f : depends_only (update_json path f) path.
Proof.
  intros repo repo' [_ Hj]. rewrite !quiet_json, Hj. auto.
Qed.

(** After a loop of writers on distinct files has succeeded, every one
    of them has nothing to do, and so has every writer that had nothing
    to do before and is on another file. *)
Lemma write_each_quiet {P : Type} (write : P -> action bool)
    (key : P -> str) entries :
  forall (others : list (str * action bool)) changed repo repo' changed',
    write_each write key entries changed repo = (repo', Ok changed') ->
    (forall e, In e entries ->
       touches_only (write e) (key e) /\ depends_only (write e) (key e)
       /\ settles (write e)) ->
    List.NoDup (map key entries) ->
    (forall q w, In (q, w) others ->
       depends_only w q /\ ~ In q (map key entries)) ->
    (forall q w, In (q, w) others -> quiet w repo) ->
    forall q w,
      In (q, w) (others ++ map (fun e => (key e, write e)) entries) ->
      quiet w repo'.
Proof.
  induction entries as [|e entries IH];
    intros others changed repo repo' changed' H Hw Hnd Ho Hq q w Hin.
  - injection H as <- <-. rewrite app_nil_r in Hin. eapply Hq, Hin.
  - cbn [write_each] in H. unfold bind_action in H.
    destruct (write e repo) as [repo1 [c|err]] eqn:E; [|discriminate].
    destruct (Hw e (or_introl eq_refl)) as (Ht & Hd & Hs).
    inversion Hnd as [|? ? Hnotin Hnd']; subst.
    apply (IH (others ++ [(key e, write e)]) _ _ _ _ H) with (q := q).
    + intros e' He'. apply Hw. right. exact He'.
    + exact Hnd'.
    + intros q' w' Hin'. apply in_app_or in Hin' as [Hin'|[[= <- <-]|[]]].
      * destruct (Ho _ _ Hin') as [H1 H2]. split; [exact H1|].
        intros H3. apply H2. right. exact H3.
      * split; assumption.
    + intros q' w' Hin'. apply in_app_or in Hin' as [Hin'|[[= <- <-]|[]]].
      * destruct (Ho _ _ Hin') as [H1 H2].
        apply (H1 repo repo1); [|eapply Hq, Hin'].
        apply (proj1 (Ht _ _ _ E)). intros ->. apply H2. left. reflexivity.
      * eapply Hs, E.
    + rewrite <- app_assoc. exact Hin.
Qed.

(** A loop of writers that have nothing to do changes nothing. *)
Lemma write_each_all_quiet {P : Type} (write : P -> action bool)
    (key : P -> str) entries changed repo :
  (forall e, In e entries -> quiet (write e) repo) ->
  write_each write key entries changed repo = (repo, Ok changed).
Proof.
  revert changed. induction entries as [|e entries IH]; intros changed H;
    [reflexivity|].
  cbn [write_each]. unfold bind_action.
  rewrite (H e (or_introl eq_refl)). apply IH.
  intros e' He'. apply H. right. exact He'.
Qed.

(** What a loop of writers changes: no file outside its entries, and of
    those only the ones it adds to [changed_files], which it adds in the
    order of the entries. *)
Lemma write_each_frame {P : Type} (write : P -> action bool)
    (key : P -> str) entries :
  forall changed repo repo' r,
    write_each write key entries changed repo = (repo', r) ->
    (forall e, In e entries -> touches_only (write e) (key e)) ->
    (forall q, ~ In q (map key entries) -> same_file repo repo' q)
    /\ forall changed',
         r = Ok changed' ->
         exists added,
           changed' = changed ++ added
           /\ sublist added (map key entries)
           /\ forall q, ~ In q added -> same_file repo repo' q.
Proof.
  induction entries as [|e entries IH]; intros changed repo repo' r H Hw.
  - injection H as <- <-. split; [intros; split; reflexivity|].
    intros changed' [= <-]. exists []. rewrite app_nil_r.
    split; [reflexivity|]. split; [constructor|]. intros; split; reflexivity.
  - cbn [write_each] in H. unfold bind_action in H.
    destruct (write e repo) as [repo1 [c|err]] eqn:E.
    + destruct (Hw e (or_introl eq_refl) _ _ _ E) as [Hother Hsame].
      destruct (IH _ _ _ _ H (fun e' He' => Hw e' (or_intror He')))
        as [Hout Hin].
      split.
      * intros q Hq. cbn [map] in Hq.
        destruct (Hother q) as [H1 H2];
          [intros ->; apply Hq; left; reflexivity|].
        destruct (Hout q) as [H3 H4];
          [intros Hq'; apply Hq; right; exact Hq'|].
        split; congruence.
      * intros changed' Hr. destruct (Hin _ Hr) as (added & -> & Hsub & Hfr).
        destruct c.
        -- exists (key e :: added). rewrite <- app_assoc.
           split; [reflexivity|]. split; [constructor; exact Hsub|].
           intros q Hq. destruct (Hother q) as [H1 H2];
             [intros ->; apply Hq; left; reflexivity|].
           destruct (Hfr q) as [H3 H4];
             [intros Hq'; apply Hq; right; exact Hq'|].
           split; congruence.
        -- exists added. split; [reflexivity|].
           split; [apply sublist_cons; exact Hsub|].
           intros q Hq. rewrite <- (Hsame ltac:(discriminate)).
           apply Hfr, Hq.
    + injection H as <- <-.
      destruct (Hw e (or_introl eq_refl) _ _ _ E) as [_ Hsame].
      rewrite (Hsame ltac:(discriminate)).
      split; [intros; split; reflexivity | discriminate].
Qed.


Lemma write_each_map {P : Type} (write : P -> action bool) (key : P -> str)
    entries changed repo :
  write_each snd fst (map (fun e => (key e, write e)) entries) changed repo
  = write_each write key entries changed repo.
Proof.
  revert changed repo. induction entries as [|e entries IH];
    intros changed repo; [reflexivity|].
  cbn [map write_each fst snd]. unfold bind_action.
  destruct (write e repo) as [repo1 [c|err]]; [apply IH | reflexivity].
Qed.

Lemma write_each_app {P : Type} (write : P -> action bool) (key : P -> str)
    l1 l2 changed repo :
  write_each write key (l1 ++ l2) changed repo
  = bind_action (write_each write key l1 changed)
      (fun changed' => write_each write key l2 changed') repo.
Proof.
  revert changed repo. induction l1 as [|e l1 IH]; intros changed repo;
    [reflexivity|].
  cbn [app write_each]. unfold bind_action at 1 2 3.
  destruct (write e repo) as [repo1 [c|err]]; [|reflexivity].
  rewrite IH. reflexivity.
Qed.

(** The four loops of [run_set] are one loop over the twelve writers. *)
Lemma write_all_loop pf V repo :
  write_all pf V repo = write_each snd fst (registry_writers pf V) [] repo.
Proof.
  unfold write_all, registry_writers.
  rewrite write_each_app. unfold bind_action.
  rewrite (write_each_map
             (fun p => update_text p
                         (fun raw => write_toml_package_version pf raw V)) id).
  destruct (write_each _ id TOML_PACKAGE_VERSION_FILES [] repo)
    as [repo1 [ch1|e]]; [|reflexivity].
  rewrite write_each_app. unfold bind_action.
  rewrite (write_each_map
             (fun p => update_json p
                         (fun data => write_json_version data V)) id).
  destruct (write_each _ id JSON_VERSION_FILES ch1 repo1)
    as [repo2 [ch2|e]]; [|reflexivity].
  cbn [app write_each fst snd]. unfold bind_action.
  destruct (update_json PACKAGE_LOCK_FILE _ repo2) as [repo3 [c|e]];
    [|reflexivity].
  rewrite (write_each_map
             (fun e => update_text (fst e)
                         (fun raw => write_lock_package_version pf raw (snd e)
                                       V)) fst).
  reflexivity.
Qed.

Lemma distinct_NoDup l : distinct l = true -> List.NoDup l.
Proof.
  induction l as [|x l IH]; cbn [distinct]; [constructor|].
  rewrite andb_true_iff, negb_true_iff. intros [Hx Hl].
  constructor; [|apply IH, Hl]. intros Hin.
  assert (H : existsb (str_eqb x) l = true).
  { apply existsb_exists. exists x. split; [exact Hin | apply str_eqb_refl]. }
  congruence.
Qed.

Lemma registry_writers_paths pf V :
  map fst (registry_writers pf V) = registered_files.
Proof. reflexivity. Qed.

Lemma registered_files_NoDup : List.NoDup registered_files.
Proof. apply distinct_NoDup. vm_compute. reflexivity. Qed.

Lemma registry_writers_spec pf V e :
  In e (registry_writers pf V) ->
  (exists p, In p TOML_PACKAGE_VERSION_FILES
     /\ e = (p, update_text p
                  (fun raw => write_toml_package_version pf raw V)))
  \/ (exists p, In p JSON_VERSION_FILES
        /\ e = (p, update_json p (fun data => write_json_version data V)))
  \/ e = (PACKAGE_LOCK_FILE,
          update_json PACKAGE_LOCK_FILE
            (fun data => write_package_lock_version data V))
  \/ (exists p n, In (p, n) LOCK_PACKAGE_VERSION_FILES
        /\ e = (p, update_text p
                     (fun raw => write_lock_package_version pf raw n V))).
Proof.
  unfold registry_writers. intros H.
  apply in_app_or in H as [H|H].
  { apply in_map_iff in H as (p & <- & Hp). left. eauto. }
  apply in_app_or in H as [H|H].
  { apply in_map_iff in H as (p & <- & Hp). right. left. eauto. }
  apply in_app_or in H as [[<-|[]]|H].
  { right. right. left. reflexivity. }
  apply in_map_iff in H as ([p n] & <- & Hp). right. right. right. eauto.
Qed.

Lemma registry_writers_ok pf V e :
  is_semver V = true -> In e (registry_writers pf V) ->
  touches_only (snd e) (fst e) /\ depends_only (snd e) (fst e)
  /\ settles (snd e).
Proof.
  intros HV H.
  destruct (registry_writers_spec _ _ _ H)
    as [(p & _ & ->)|[(p & _ & ->)|[->|(p & n & _ & ->)]]]; cbn [fst snd].
  - split; [apply update_text_touches|].
    split; [apply update_text_depends|]. apply update_text_settles.
    intros raw r. apply write_toml_twice, HV.
  - split; [apply update_json_touches|].
    split; [apply update_json_depends|]. apply update_json_settles.
    intros data r. apply write_json_twice.
  - split; [apply update_json_touches|].
    split; [apply update_json_depends|]. apply update_json_settles.
    intros data r. apply write_package_lock_twice.
  - split; [apply update_text_touches|].
    split; [apply update_text_depends|]. apply update_text_settles.
    intros raw r. apply write_lock_twice, HV.
Qed.

(** After the writes of [run_set] have all succeeded, every one of the
    twelve writers has nothing to do. *)
Lemma write_all_quiet pf V repo repo' changed :
  is_semver V = true ->
  write_all pf V repo = (repo', Ok changed) ->
  forall e, In e (registry_writers pf V) -> quiet (snd e) repo'.
Proof.
  intros HV H [q w] Hin. rewrite write_all_loop in H. cbn [snd].
  apply (write_each_quiet snd fst (registry_writers pf V) [] _ _ _ _ H)
    with (q := q).
  - intros e He. apply (registry_writers_ok pf V); assumption.
  - rewrite registry_writers_paths. apply registered_files_NoDup.
  - intros q' w' [].
  - intros q' w' [].
  - cbn [app]. apply in_map_iff. exists (q, w). auto.
Qed.

Lemma quiet_toml_read pf V p repo :
  is_semver V = true ->
  quiet (update_text p (fun raw => write_toml_package_version pf raw V)) repo ->
  read_toml_package_version (text_file repo p) = Ok V.
Proof.
  intros HV H. apply quiet_text in H as (raw' & H).
  pose proof (write_toml_then_read _ _ _ _ HV H) as Hr. cbn [snd] in Hr.
  unfold write_toml_package_version, written in H.
  destruct (write_toml_content _ _) as [[c|]|]; try discriminate.
  injection H as <-. exact Hr.
Qed.

Lemma quiet_lock_read pf V p n repo :
  is_semver V = true ->
  quiet (update_text p
           (fun raw => write_lock_package_version pf raw n V)) repo ->
  read_lock_package_version (text_file repo p) n = Ok V.
Proof.
  intros HV H. apply quiet_text in H as (raw' & H).
  pose proof (write_lock_then_read _ _ _ _ _ HV H) as Hr. cbn [snd] in Hr.
  unfold write_lock_package_version, written in H.
  destruct (write_lock_content _ _ _) as [[c|]|]; try discriminate.
  injection H as <-. exact Hr.
Qed.

Lemma quiet_json_read repr_container V p repo :
  is_semver V = true ->
  quiet (update_json p (fun data => write_json_version data V)) repo ->
  read_json_version repr_container (json_file repo p) = Ok V.
Proof.
  intros HV H. apply quiet_json in H.
  apply (write_json_then_read repr_container _ _ _ HV H).
Qed.

Lemma quiet_package_lock_read repr_container V p repo :
  is_semver V = true ->
  quiet (update_json p (fun data => write_package_lock_version data V)) repo ->
  read_package_lock_version repr_container (json_file repo p) = Ok V.
Proof.
  intros HV H. apply quiet_json in H.
  apply (write_package_lock_then_read repr_container _ _ _ HV H).
Qed.

Lemma read_each_const {P : Type} (read : P -> result str) (key : P -> str)
    V entries versions :
  (forall e, In e entries -> read e = Ok V) ->
  read_each read key entries versions
  = Ok (fold_left (fun vs e => dict_set vs (key e) V) entries versions).
Proof.
  revert versions. induction entries as [|e entries IH]; intros versions H;
    [reflexivity|].
  cbn [read_each fold_left]. rewrite (H e (or_introl eq_refl)). cbn [bind].
  apply IH. intros e' He'. apply H. right. exact He'.
Qed.

(** When none of the twelve writers has anything to do, every
    registered file reads the version. *)
Lemma all_quiet_read_versions pf repr_container V repo :
  is_semver V = true ->
  (forall e, In e (registry_writers pf V) -> quiet (snd e) repo) ->
  read_versions repr_container repo
  = Ok (map (fun f => (f, V)) registered_files).
Proof.
  intros HV H.
  assert (HT : forall p, In p TOML_PACKAGE_VERSION_FILES ->
             read_toml_package_version (text_file repo p) = Ok V).
  { intros p Hp. apply (quiet_toml_read pf V p repo HV).
    apply (H (p, update_text p
                   (fun raw => write_toml_package_version pf raw V))).
    unfold registry_writers. apply in_or_app. left.
    apply (in_map
             (fun p => (p, update_text p
                             (fun raw => write_toml_package_version pf raw V)))),
      Hp. }
  assert (HJ : forall p, In p JSON_VERSION_FILES ->
             read_json_version repr_container (json_file repo p) = Ok V).
  { intros p Hp. apply (quiet_json_read repr_container V p repo HV).
    apply (H (p, update_json p (fun data => write_json_version data V))).
    unfold registry_writers. apply in_or_app. right. apply in_or_app. left.
    apply (in_map
             (fun p => (p, update_json p
                             (fun data => write_json_version data V)))),
      Hp. }
  assert (HP : read_package_lock_version repr_container
                 (json_file repo PACKAGE_LOCK_FILE) = Ok V).
  { apply (quiet_package_lock_read repr_container V _ repo HV).
    apply (H (PACKAGE_LOCK_FILE,
              update_json PACKAGE_LOCK_FILE
                (fun data => write_package_lock_version data V))).
    unfold registry_writers. apply in_or_app. right. apply in_or_app. right.
    left. reflexivity. }
  assert (HL : forall e, In e LOCK_PACKAGE_VERSION_FILES ->
             read_lock_package_version (text_file repo (fst e)) (snd e)
             = Ok V).
  { intros e He. apply (quiet_lock_read pf V (fst e) (snd e) repo HV).
    apply (H (fst e,
              update_text (fst e)
                (fun raw => write_lock_package_version pf raw (snd e) V))).
    unfold registry_writers. apply in_or_app. right. apply in_or_app. right.
    right.
    apply (in_map
             (fun e => (fst e,
                        update_text (fst e)
                          (fun raw => write_lock_package_version pf raw
                                        (snd e) V)))),
      He. }
  unfold read_versions.
  rewrite (read_each_const _ _ V _ _ HT). cbn [bind].
  rewrite (read_each_const _ _ V _ _ HJ). cbn [bind].
  rewrite HP. cbn [bind].
  rewrite (read_each_const _ _ V _ _ HL).
  reflexivity.
Qed.

Lemma ensure_consistent_const versions V :
  versions <> [] -> (forall f v, In (f, v) versions -> v = V) ->
  ensure_consistent versions = Ok V.
Proof.
  intros Hne Hall.
  destruct (group_versions_spec versions) as (Hnd & Hkeys & _).
  unfold ensure_consistent.
  destruct versions as [|[f0 v0] versions'] eqn:Ev; [congruence|].
  rewrite <- Ev in *.
  assert (Hv0 : v0 = V) by (apply (Hall f0); rewrite Ev; left; reflexivity).
  assert (Hin : In V (map fst (group_versions versions))).
  { apply Hkeys. exists f0. rewrite Ev, <- Hv0. left. reflexivity. }
  assert (Honly : forall k, In k (map fst (group_versions versions)) ->
            k = V).
  { intros k Hk. apply Hkeys in Hk as (f & Hf). eapply Hall, Hf. }
  destruct (group_versions versions) as [|[k fs] [|[k' fs'] g]];
    cbn [map fst] in *.
  - destruct Hin.
  - rewrite (Honly k) by (left; reflexivity). reflexivity.
  - exfalso. inversion Hnd as [|? ? Hnot _]; subst. apply Hnot.
    rewrite (Honly k) by (left; reflexivity).
    rewrite (Honly k') by (right; left; reflexivity). left. reflexivity.
Qed.

(** When none of the twelve writers has anything to do, the check
    passes, and fails on the tag only. *)
Lemma all_quiet_run_check pf repr_container V repo tag :
  is_semver V = true ->
  (forall e, In e (registry_writers pf V) -> quiet (snd e) repo) ->
  run_check repr_container repo tag = check_tag V tag.
Proof.
  intros HV H. unfold run_check, collect_versions.
  rewrite (all_quiet_read_versions pf _ V _ HV H). cbn [bind].
  assert (Hall : forall f v,
            In (f, v) (map (fun f => (f, V)) registered_files) -> v = V).
  { intros f v Hin. apply in_map_iff in Hin as (f' & [= _ <-] & _).
    reflexivity. }
  rewrite (proj2 (validate_each_Ok _)).
  2:{ intros f v Hin. rewrite (Hall f v Hin). exact HV. }
  cbn [bind]. rewrite (ensure_consistent_const _ V); [reflexivity| |exact Hall].
  discriminate.
Qed.

Lemma normalize_version_semver raw V :
  normalize_version raw = Ok V -> is_semver V = true.
Proof.
  unfold normalize_version. destruct (strip_prefix _ _) as [rest|].
  - destruct (is_semver rest) eqn:E; [|discriminate]. congruence.
  - destruct (is_semver (strip raw)) eqn:E; [|discriminate]. congruence.
Qed.

Lemma run_set_inv pf repr_container input tag repo repo' v changed :
  run_set pf repr_container input tag repo = (repo', Ok (v, changed)) ->
  exists V,
    normalize_version input = Ok V
    /\ write_all pf V repo = (repo', Ok changed)
    /\ run_check repr_container repo' tag = Ok v.
Proof.
  unfold run_set, bind_action, lift, ret.
  destruct (normalize_version input) as [V|e]; [|discriminate].
  destruct (write_all pf V repo) as [repo1 [ch|e]] eqn:Ew; [|discriminate].
  destruct (run_check repr_container repo1 tag) as [v'|e] eqn:E;
    [|discriminate].
  intros [= <- <- <-]. exists V. auto.
Qed.


(** X14. [run_set] fails on an argument that is no version before it writes
    anything. When a writer fails, the run stops with its error, and
    what was written before stays written. When all the writers have
    succeeded, every registered file reads the new version and the check
    without a tag passes: the check that ends [run_set] can fail on the
    tag only, and the files have been rewritten by then. *)
Theorem run_set_spec (pf : platform) (repr_container : json -> str)
    (version_input : str) (expected_tag : option str) (repo : repository) :
  (forall e,
     normalize_version version_input = Err e ->
     run_set pf repr_container version_input expected_tag repo
     = (repo, Err e))
  /\ (forall V repo' e,
        normalize_version version_input = Ok V ->
        write_all pf V repo = (repo', Err e) ->
        run_set pf repr_container version_input expected_tag repo
        = (repo', Err e))
  /\ (forall V repo' changed_files,
        normalize_version version_input = Ok V ->
        write_all pf V repo = (repo', Ok changed_files) ->
        read_versions repr_container repo'
        = Ok (map (fun f => (f, V)) registered_files)
        /\ run_check repr_container repo' None = Ok V
        /\ run_set pf repr_container version_input expected_tag repo
           = (repo',
              match check_tag V expected_tag with
              | Ok verified => Ok (verified, changed_files)
              | Err e => Err e
              end)).
Proof.
  split; [|split].
  - intros e He. unfold run_set, bind_action, lift. rewrite He. reflexivity.
  - intros V repo' e HV Hw. unfold run_set, bind_action, lift.
    rewrite HV, Hw. reflexivity.
  - intros V repo' changed_files HV Hw.
    pose proof (normalize_version_semver _ _ HV) as Hs.
    pose proof (write_all_quiet _ _ _ _ _ Hs Hw) as Hq.
    split; [apply (all_quiet_read_versions pf), Hq; exact Hs|].
    split; [apply (all_quiet_run_check pf _ V _ None Hs Hq)|].
    unfold run_set, bind_action, lift, ret. rewrite HV, Hw.
    rewrite (all_quiet_run_check pf _ V _ expected_tag Hs Hq).
    destruct (check_tag V expected_tag); reflexivity.
Qed.

(** Version 0.2.0 set in the sample repository with a tag for another
    version: the run fails on the tag, and the manifests have the new
    version. *)
Lemma run_set_spec_witness :
  snd (run_set Posix no_repr (lit "0.2.0") (Some (lit "v0.3.0")) sample_repo)
  = Err (TagVersionMismatch (lit "v0.3.0") (lit "0.2.0") (lit "v0.2.0"))
  /\ read_toml_package_version
       (text_file
          (fst (run_set Posix no_repr (lit "0.2.0") (Some (lit "v0.3.0"))
                  sample_repo))
          (lit "server/Cargo.toml"))
     = Ok (lit "0.2.0").
Proof.
  destruct (write_all Posix (lit "0.2.0") sample_repo) as [repo' r] eqn:Ew.
  assert (Hr : exists changed_files, r = Ok changed_files).
  { assert (H : snd (write_all Posix (lit "0.2.0") sample_repo) = r)
      by (rewrite Ew; reflexivity).
    vm_compute in H. subst r. eauto. }
  destruct Hr as (changed_files & ->).
  destruct (proj2 (proj2 (run_set_spec Posix no_repr (lit "0.2.0")
                            (Some (lit "v0.3.0")) sample_repo))
              (lit "0.2.0") repo' changed_files
              ltac:(vm_compute; reflexivity) Ew)
    as (_ & _ & H).
  rewrite H. cbn [fst snd]. split; [vm_compute; reflexivity|].
  assert (Ht : text_file
                 (fst (write_all Posix (lit "0.2.0") sample_repo))
                 (lit "server/Cargo.toml")
               = manifest "0.2.0" [LF]) by (vm_compute; reflexivity).
  rewrite Ew in Ht. cbn [fst] in Ht. rewrite Ht. vm_compute. reflexivity.
Defined.

(** X15. [run_set] is idempotent: after a run that has succeeded, the same
    run succeeds again, returns the same version, changes no file and
    lists none. The version it returns is the normalised argument. *)
Theorem run_set_idempotent (pf : platform) (repr_container : json -> str)
    (version_input : str) (expected_tag : option str)
    (repo repo' : repository) (verified : str) (changed_files : list str) :
  run_set pf repr_container version_input expected_tag repo
  = (repo', Ok (verified, changed_files)) ->
  normalize_version version_input = Ok verified
  /\ run_set pf repr_container version_input expected_tag repo'
     = (repo', Ok (verified, [])).
Proof.
  intros H. apply run_set_inv in H as (V & HV & Hw & Hc).
  pose proof (normalize_version_semver _ _ HV) as Hs.
  pose proof (write_all_quiet _ _ _ _ _ Hs Hw) as Hq.
  assert (Hv : verified = V).
  { rewrite (all_quiet_run_check pf _ V _ expected_tag Hs Hq) in Hc.
    unfold check_tag in Hc. destruct expected_tag as [tag|]; [|congruence].
    destruct (negb (is_tag _)); [discriminate|].
    destruct (negb (str_eqb _ _)); [discriminate|]. congruence. }
  subst verified. split; [exact HV|].
  unfold run_set, bind_action, lift, ret. rewrite HV, write_all_loop.
  rewrite (write_each_all_quiet snd fst _ [] repo' Hq), Hc. reflexivity.
Qed.

Lemma run_set_idempotent_witness :
  exists repo' changed_files,
    run_set Posix no_repr (lit "v0.2.0") None sample_repo
    = (repo', Ok (lit "0.2.0", changed_files))
    /\ run_set Posix no_repr (lit "v0.2.0") None repo'
       = (repo', Ok (lit "0.2.0", [])).
Proof.
  destruct (run_set Posix no_repr (lit "v0.2.0") None sample_repo)
    as [repo' r] eqn:E.
  assert (Hr : exists changed_files, r = Ok (lit "0.2.0", changed_files)).
  { assert (H : snd (run_set Posix no_repr (lit "v0.2.0") None sample_repo)
                = r) by (rewrite E; reflexivity).
    vm_compute in H. subst r. eauto. }
  destruct Hr as (changed_files & ->).
  exists repo', changed_files. split; [reflexivity|].
  apply (run_set_idempotent _ _ _ _ _ _ _ _ E).
Defined.

(** X16. [run_set] changes registered files only, whether it succeeds or
    fails; and when it succeeds, the files it lists as changed are
    registered files, in the order of the registry, and no other file
    is changed. *)
Theorem run_set_frame (pf : platform) (repr_container : json -> str)
    (version_input : str) (expected_tag : option str)
    (repo repo' : repository) (r : result (str * list str)) :
  run_set pf repr_container version_input expected_tag repo = (repo', r) ->
  (forall q, ~ In q registered_files -> same_file repo repo' q)
  /\ forall verified changed_files,
       r = Ok (verified, changed_files) ->
       sublist changed_files registered_files
       /\ forall q, ~ In q changed_files -> same_file repo repo' q.
Proof.
  unfold run_set, bind_action, lift, ret.
  destruct (normalize_version version_input) as [V|e].
  2:{ intros [= <- <-]. split; [intros; split; reflexivity | discriminate]. }
  destruct (write_all pf V repo) as [repo1 rw] eqn:Ew.
  rewrite write_all_loop in Ew.
  destruct (write_each_frame snd fst _ _ _ _ _ Ew) as [Hout Hin].
  { intros e He.
    destruct (registry_writers_spec _ _ _ He)
      as [(p & _ & ->)|[(p & _ & ->)|[->|(p & n & _ & ->)]]]; cbn [fst snd];
      first [apply update_text_touches | apply update_json_touches]. }
  rewrite registry_writers_paths in *.
  destruct rw as [ch|e].
  - destruct (Hin ch eq_refl) as (added & -> & Hsub & Hfr). cbn [app] in *.
    destruct (run_check repr_container repo1 expected_tag);
      intros [= <- <-]; (split; [exact Hout|]); [|discriminate].
    intros verified changed_files [= <- <-]. auto.
  - intros [= <- <-]. split; [exact Hout | discriminate].
Qed.

Lemma run_set_frame_witness :
  same_file sample_repo
    (fst (run_set Posix no_repr (lit "0.2.0") None sample_repo))
    (lit "README.md").
Proof.
  destruct (run_set Posix no_repr (lit "0.2.0") None sample_repo)
    as [repo' r] eqn:E.
  apply (proj1 (run_set_frame _ _ _ _ _ _ _ E)).
  vm_compute. intuition discriminate.
Defined.


(** ** The check, from the files *)

Lemma ensure_consistent_all versions V :
  ensure_consistent versions = Ok V ->
  forall f v, In (f, v) versions -> v = V.
Proof.
  destruct (group_versions_spec versions) as (_ & Hkeys & _).
  unfold ensure_consistent.
  destruct (group_versions versions) as [|[k fs] [|? ?]]; try discriminate.
  intros [= ->] f v Hin. cbn in Hkeys.
  assert (H : V = v \/ False) by (apply Hkeys; eauto).
  destruct H as [H|[]]. congruence.
Qed.

Lemma constant_mapping (l : list (str * str)) keys V :
  map fst l = keys -> (forall f v, In (f, v) l -> v = V) ->
  l = map (fun f => (f, V)) keys.
Proof.
  intros <- H. induction l as [|[f v] l IH]; [reflexivity|].
  cbn [map fst]. rewrite (H f v) by (left; reflexivity). f_equal.
  apply IH. intros f' v' Hin. eapply H. right. exact Hin.
Qed.

Lemma check_tag_version V tag v : check_tag V tag = Ok v -> v = V.
Proof.
  unfold check_tag. destruct tag as [tag|]; [|congruence].
  destruct (negb (is_tag _)); [discriminate|].
  destruct (negb (str_eqb _ _)); [discriminate|]. congruence.
Qed.

(** What the check asks of the files. *)
Lemma run_check_iff (repr_container : json -> str) (repo : repository)
    (expected_tag : option str) (V : str) :
  run_check repr_container repo expected_tag = Ok V <->
  read_versions repr_container repo
  = Ok (map (fun f => (f, V)) registered_files)
  /\ is_semver V = true
  /\ check_tag V expected_tag = Ok V.
Proof.
  unfold run_check, collect_versions. split.
  - destruct (read_versions repr_container repo) as [versions|] eqn:Er;
      [|discriminate]. cbn [bind].
    destruct (validate_each versions) as [[]|] eqn:Ev; [|discriminate].
    cbn [bind].
    destruct (ensure_consistent versions) as [V'|] eqn:Ec; [|discriminate].
    cbn [bind]. intros Ht.
    pose proof (check_tag_version _ _ _ Ht) as ->.
    pose proof (ensure_consistent_all _ _ Ec) as Hall.
    destruct (read_versions_entries _ _ _ Er) as (Hk & _).
    pose proof (constant_mapping _ _ _ Hk Hall) as ->.
    split; [reflexivity|]. split; [|exact Ht].
    apply (proj1 (validate_each_Ok _) Ev (lit "server/Cargo.toml")).
    left. reflexivity.
  - intros (-> & HV & Ht). cbn [bind].
    assert (Hall : forall f v,
              In (f, v) (map (fun f => (f, V)) registered_files) -> v = V).
    { intros f v Hin. apply in_map_iff in Hin as (f' & [= _ <-] & _).
      reflexivity. }
    rewrite (proj2 (validate_each_Ok _)).
    2:{ intros f v Hin. rewrite (Hall f v Hin). exact HV. }
    cbn [bind]. rewrite (ensure_consistent_const _ V); [exact Ht| |exact Hall].
    discriminate.
Qed.

(** X17. [run_check] returns a version exactly when each of the twelve
    registered files reads that version with its handler, the version
    is a semantic version, and the tag, if there is one, passes. *)
Theorem run_check_spec (repr_container : json -> str) (repo : repository)
    (expected_tag : option str) (V : str) :
  run_check repr_container repo expected_tag = Ok V <->
  read_versions repr_container repo
  = Ok (map (fun f => (f, V)) registered_files)
  /\ is_semver V = true
  /\ check_tag V expected_tag = Ok V.
Proof. apply run_check_iff. Qed.

Lemma run_check_spec_witness :
  read_versions no_repr sample_repo
  = Ok (map (fun f => (f, lit "0.1.0")) registered_files).
Proof.
  apply (proj1 (run_check_spec no_repr sample_repo (Some (lit "v0.1.0"))
                  (lit "0.1.0"))).
  vm_compute. reflexivity.
Defined.

(** ** Errors of the collection *)

Lemma read_each_Err {P : Type} (read : P -> result str) (key : P -> str)
    entries versions e :
  read_each read key entries versions = Err e ->
  exists x, In x entries /\ read x = Err e.
Proof.
  revert versions. induction entries as [|x entries IH]; intros versions;
    [discriminate|].
  cbn [read_each]. destruct (read x) as [v|e'] eqn:E; cbn [bind].
  - intros H. destruct (IH _ H) as (x' & Hx & Hr). exists x'.
    split; [right; exact Hx | exact Hr].
  - intros [= <-]. exists x. split; [left; reflexivity | exact E].
Qed.

Lemma read_toml_error raw e :
  read_toml_package_version raw = Err e -> is_read_error e.
Proof.
  rewrite read_toml_spec. destruct (toml_find _ _ _) as [[i v]|];
    [discriminate|]. intros [= <-]. exact I.
Qed.

Lemma read_lock_error raw package_name e :
  read_lock_package_version raw package_name = Err e -> is_read_error e.
Proof.
  rewrite read_lock_spec. destruct (select_block _ _) as [b|];
    cbn [read_selected].
  - destruct (block_version (snd b)); [discriminate|]. intros [= <-]. exact I.
  - intros [= <-]. exact I.
Qed.

Lemma py_get_error obj key d e :
  py_get obj key d = Err e -> e = AttributeError.
Proof. destruct obj; cbn [py_get]; congruence. Qed.

Lemma read_json_error repr_container data e :
  read_json_version repr_container data = Err e -> is_read_error e.
Proof.
  unfold read_json_version.
  destruct (py_get data _ _) as [v|e'] eqn:E; cbn [bind].
  - destruct (strip _); [|discriminate]. intros [= <-]. exact I.
  - intros [= <-]. rewrite (py_get_error _ _ _ _ E). exact I.
Qed.

Lemma read_package_lock_error repr_container data e :
  read_package_lock_version repr_container data = Err e -> is_read_error e.
Proof.
  unfold read_package_lock_version.
  destruct (py_get data (lit "version") _) as [v|e1] eqn:E1; cbn [bind];
    [|intros [= <-]; rewrite (py_get_error _ _ _ _ E1); exact I].
  destruct (py_get data (lit "packages") _) as [p|e2] eqn:E2; cbn [bind];
    [|intros [= <-]; rewrite (py_get_error _ _ _ _ E2); exact I].
  destruct (py_get p [] _) as [r|e3] eqn:E3; cbn [bind];
    [|intros [= <-]; rewrite (py_get_error _ _ _ _ E3); exact I].
  destruct (py_get r (lit "version") _) as [rv|e4] eqn:E4; cbn [bind];
    [|intros [= <-]; rewrite (py_get_error _ _ _ _ E4); exact I].
  destruct (strip (py_str repr_container v));
    [intros [= <-]; exact I|].
  destruct (strip (py_str repr_container rv));
    [intros [= <-]; exact I|].
  destruct (negb _); [|discriminate]. intros [= <-]. exact I.
Qed.

Lemma read_versions_error repr_container repo e :
  read_versions repr_container repo = Err e -> is_read_error e.
Proof.
  unfold read_versions.
  destruct (read_each _ id TOML_PACKAGE_VERSION_FILES []) as [v1|e1] eqn:E1;
    cbn [bind].
  2:{ intros [= <-]. apply read_each_Err in E1 as (x & _ & H).
      eapply read_toml_error, H. }
  destruct (read_each _ id JSON_VERSION_FILES v1) as [v2|e2] eqn:E2;
    cbn [bind].
  2:{ intros [= <-]. apply read_each_Err in E2 as (x & _ & H).
      eapply read_json_error, H. }
  destruct (read_package_lock_version _ _) as [v3|e3] eqn:E3; cbn [bind].
  2:{ intros [= <-]. eapply read_package_lock_error, E3. }
  intros H. apply read_each_Err in H as (x & _ & H).
  eapply read_lock_error, H.
Qed.

Lemma validate_each_first items f v :
  validate_each items = Err (InvalidSemver f v) ->
  exists before after,
    items = before ++ (f, v) :: after
    /\ (forall f' v', In (f', v') before -> is_semver v' = true)
    /\ is_semver v = false.
Proof.
  induction items as [|[f0 v0] items IH]; cbn [validate_each];
    [discriminate|].
  destruct (is_semver v0) eqn:E; cbn [negb].
  - intros H. destruct (IH H) as (before & after & -> & Hb & Hv).
    exists ((f0, v0) :: before), after. split; [reflexivity|].
    split; [|exact Hv].
    intros f' v' [[= <- <-]|Hin]; [exact E | eapply Hb, Hin].
  - intros [= <- <-]. exists [], items. split; [reflexivity|].
    split; [intros f' v' [] | exact E].
Qed.

(** X18. How [collect_versions] fails. A file that cannot be read makes it
    fail with the error of the reader, before any value is validated.
    When every file has been read, it fails on a value that is not a
    semantic version with the invalid-semver error for the first such
    entry in the order of the registry. *)
Theorem collect_versions_errors (repr_container : json -> str)
    (repo : repository) (e : error) :
  collect_versions repr_container repo = Err e ->
  (read_versions repr_container repo = Err e /\ is_read_error e)
  \/ exists versions before f v after,
       read_versions repr_container repo = Ok versions
       /\ versions = before ++ (f, v) :: after
       /\ (forall f' v', In (f', v') before -> is_semver v' = true)
       /\ is_semver v = false
       /\ e = InvalidSemver f v.
Proof.
  unfold collect_versions.
  destruct (read_versions repr_container repo) as [versions|e'] eqn:Er;
    cbn [bind].
  - destruct (validate_each versions) as [[]|e'] eqn:Ev; cbn [bind];
      [discriminate|].
    intros [= <-]. right.
    destruct (validate_each_Err _ _ Ev) as (f & v & -> & _).
    destruct (validate_each_first _ _ _ Ev) as (before & after & H1 & H2 & H3).
    exists versions, before, f, v, after. auto.
  - intros [= <-]. left. split; [reflexivity|].
    eapply read_versions_error, Er.
Qed.

Lemma collect_versions_errors_witness :
  exists versions before after,
    read_versions no_repr short_version_repo = Ok versions
    /\ versions
       = before ++ (lit "desktop/src-tauri/Cargo.toml", lit "1.0") :: after.
Proof.
  destruct (collect_versions_errors no_repr short_version_repo
              (InvalidSemver (lit "desktop/src-tauri/Cargo.toml") (lit "1.0"))
              ltac:(vm_compute; reflexivity))
    as [[H _]|(versions & before & f & v & after & H1 & H2 & _ & _ & H5)].
  - vm_compute in H. discriminate.
  - injection H5 as <- <-. exists versions, before, after. auto.
Defined.

(** ** The tables of the target validator *)

(** X19. The table of the operating systems maps every name it has to
    itself, so the host's system is its lower-cased name, whatever it
    is. The table of the architectures maps its results to themselves:
    normalising twice is normalising once. *)
Theorem normalisation_tables (lower : str -> str) (system s : str) :
  host_os lower system = lower system
  /\ map_through ARCH_MAP (map_through ARCH_MAP s) = map_through ARCH_MAP s.
Proof.
  split.
  - unfold host_os, map_through, OS_MAP. cbn [dict_get].
    repeat match goal with
           | |- context [str_eqb ?a (lower system)] =>
               let E := fresh "E" in
               destruct (str_eqb a (lower system)) eqn:E;
               [apply str_eqb_eq in E; rewrite <- E; reflexivity|]
           end.
    reflexivity.
  - rewrite !arch_map_table.
    destruct (str_eqb s (lit "x86_64") || str_eqb s (lit "amd64")) eqn:E1.
    { assert (Hs : arch_of_segment s = lit "x86_64")
        by (unfold arch_of_segment; rewrite E1; reflexivity).
      rewrite Hs. reflexivity. }
    destruct (str_eqb s (lit "aarch64") || str_eqb s (lit "arm64")) eqn:E2.
    { assert (Hs : arch_of_segment s = lit "aarch64")
        by (unfold arch_of_segment; rewrite E1, E2; reflexivity).
      rewrite Hs. reflexivity. }
    destruct (str_eqb s (lit "armv7l") || str_eqb s (lit "armv7")) eqn:E3.
    { assert (Hs : arch_of_segment s = lit "armv7")
        by (unfold arch_of_segment; rewrite E1, E2, E3; reflexivity).
      rewrite Hs. reflexivity. }
    assert (Hs : arch_of_segment s = s)
      by (unfold arch_of_segment; rewrite E1, E2, E3; reflexivity).
    rewrite Hs. exact Hs.
Qed.


(** ** The package section of a manifest *)

Lemma reaches_zero line lines in_package :
  reaches (line :: lines) in_package 0
  <-> in_package = true /\ is_section_header (strip line) = false.
Proof.
  unfold reaches. split.
  - intros [[Hp H]|(i & Hi & _)]; [|lia].
    split; [exact Hp|]. apply (H 0%nat line); [lia | reflexivity].
  - intros [Hp Hh]. left. split; [exact Hp|].
    intros k l Hk Hl. assert (k = 0%nat) by lia. subst k.
    injection Hl as <-. exact Hh.
Qed.

Lemma reaches_succ line lines in_package j :
  reaches (line :: lines) in_package (S j)
  <-> reaches lines
        (if is_section_header (strip line)
         then str_eqb (strip line) (lit "[package]") else in_package) j.
Proof.
  unfold reaches, in_package_section. split.
  - intros [[Hp H]|(i & Hi & (header & Hh & Hs) & H)].
    + rewrite (H 0%nat line) by (lia || reflexivity). left.
      split; [exact Hp|]. intros k l Hk Hl. apply (H (S k)); [lia | exact Hl].
    + destruct i as [|i].
      * injection Hh as <-. rewrite Hs. left. split; [reflexivity|].
        intros k l Hk Hl. apply (H (S k)); [lia | exact Hl].
      * right. exists i. split; [lia|]. split; [exists header; auto|].
        intros k l Hk Hl. apply (H (S k)); [lia | exact Hl].
  - intros [[Hp H]|(i & Hi & (header & Hh & Hs) & H)].
    + destruct (is_section_header (strip line)) eqn:E.
      * right. exists 0%nat. split; [lia|]. split.
        -- exists line. split; [reflexivity|]. apply str_eqb_eq, Hp.
        -- intros k l Hk Hl. destruct k as [|k]; [lia|].
           apply (H k); [lia | exact Hl].
      * left. split; [exact Hp|]. intros k l Hk Hl.
        destruct k as [|k]; [injection Hl as <-; exact E|].
        apply (H k); [lia | exact Hl].
    + right. exists (S i). split; [lia|]. split; [exists header; auto|].
      intros k l Hk Hl. destruct k as [|k]; [lia|].
      apply (H k); [lia | exact Hl].
Qed.

Lemma first_version_hit line lines in_package m v :
  reaches (line :: lines) in_package 0 ->
  re_match TOML_VERSION_RE line = Some m ->
  first_version (line :: lines) in_package v <-> group_text m 1 = v.
Proof.
  intros Hr Hm. unfold first_version. split.
  - intros (j & l & m' & _ & Hl & Hm' & Hv & Hfirst).
    destruct j as [|j].
    + injection Hl as <-. congruence.
    + rewrite (Hfirst 0%nat line) in Hm by (lia || assumption || reflexivity).
      discriminate.
  - intros Hv. exists 0%nat, line, m.
    split; [exact Hr|]. split; [reflexivity|]. split; [exact Hm|].
    split; [exact Hv|]. intros k l Hk. lia.
Qed.

Lemma first_version_skip line lines in_package v :
  (reaches (line :: lines) in_package 0 ->
   re_match TOML_VERSION_RE line = None) ->
  first_version (line :: lines) in_package v
  <-> first_version lines
        (if is_section_header (strip line)
         then str_eqb (strip line) (lit "[package]") else in_package) v.
Proof.
  intros Hskip. unfold first_version. split.
  - intros (j & l & m & Hr & Hl & Hm & Hv & Hfirst).
    destruct j as [|j].
    + injection Hl as <-. rewrite (Hskip Hr) in Hm. discriminate.
    + exists j, l, m. split; [apply reaches_succ, Hr|].
      split; [exact Hl|]. split; [exact Hm|]. split; [exact Hv|].
      intros k l' Hk Hr' Hl'. apply (Hfirst (S k)); [lia | | exact Hl'].
      apply reaches_succ, Hr'.
  - intros (j & l & m & Hr & Hl & Hm & Hv & Hfirst).
    exists (S j), l, m. split; [apply reaches_succ, Hr|].
    split; [exact Hl|]. split; [exact Hm|]. split; [exact Hv|].
    intros k l' Hk Hr' Hl'. destruct k as [|k].
    + injection Hl' as <-. apply Hskip, Hr'.
    + apply (Hfirst k); [lia | | exact Hl']. apply reaches_succ, Hr'.
Qed.

Lemma read_toml_loop_first lines in_package v :
  read_toml_loop lines in_package = Ok v
  <-> first_version lines in_package v.
Proof.
  revert in_package. induction lines as [|line lines IH]; intros in_package.
  - split; [discriminate|]. intros (j & l & m & _ & Hl & _). discriminate.
  - cbn [read_toml_loop].
    destruct (is_section_header (strip line)) eqn:Eh.
    + rewrite IH, first_version_skip, Eh; [reflexivity|].
      intros Hr. apply reaches_zero in Hr as [_ Hr]. congruence.
    + destruct in_package; cbn [negb].
      * destruct (re_match TOML_VERSION_RE line) as [m|] eqn:Em.
        -- rewrite (first_version_hit _ _ _ m); [|apply reaches_zero; auto|
                                                  exact Em].
           split; congruence.
        -- rewrite IH, first_version_skip, Eh; [reflexivity|].
           intros _. exact Em.
      * rewrite IH, first_version_skip, Eh; [reflexivity|].
        intros Hr. apply reaches_zero in Hr as [Hr _]. discriminate.
Qed.

(** X20. [read_toml_package_version] returns the value of the first
    line that is inside a package section and has the form of a version
    line, and fails when there is none: a line before the first section
    header or in a section of another name is never used, whatever it
    holds. *)
Theorem toml_version_scope (raw v : str) :
  let lines := splitlines false (read_file raw) in
  read_toml_package_version raw = Ok v <->
  exists i j line m,
    in_package_section lines i j
    /\ lines !! j = Some line
    /\ re_match TOML_VERSION_RE line = Some m /\ group_text m 1 = v
    /\ forall i' k l,
         (k < j)%nat -> in_package_section lines i' k ->
         lines !! k = Some l -> re_match TOML_VERSION_RE l = None.
Proof.
  intros lines. unfold read_toml_package_version. fold lines.
  rewrite read_toml_loop_first. unfold first_version, reaches. split.
  - intros (j & line & m & [[Hp _]|(i & Hi)] & Hl & Hm & Hv & Hfirst);
      [discriminate|].
    exists i, j, line, m. split; [exact Hi|]. split; [exact Hl|].
    split; [exact Hm|]. split; [exact Hv|].
    intros i' k l Hk Hi' Hl'. apply (Hfirst k); eauto.
  - intros (i & j & line & m & Hi & Hl & Hm & Hv & Hfirst).
    exists j, line, m. split; [eauto|]. split; [exact Hl|].
    split; [exact Hm|]. split; [exact Hv|].
    intros k l Hk [[Hp _]|(i' & Hi')] Hl'; [discriminate|].
    apply (Hfirst i' k); assumption.
Qed.

Lemma toml_version_scope_witness :
  exists i j line m,
    in_package_section (splitlines false (read_file sample_manifest)) i j
    /\ splitlines false (read_file sample_manifest) !! j = Some line
    /\ re_match TOML_VERSION_RE line = Some m
    /\ group_text m 1 = lit "0.1.0".
Proof.
  destruct (proj1 (toml_version_scope sample_manifest (lit "0.1.0"))
              ltac:(vm_compute; reflexivity))
    as (i & j & line & m & H1 & H2 & H3 & H4 & _).
  exists i, j, line, m. auto.
Defined.


(** ** The entry point of version_sync.py *)

Lemma check_tag_supplied V t v : check_tag V (Some t) = Ok v -> t <> [].
Proof.
  intros H ->. unfold check_tag in H.
  change (is_tag (strip [])) with false in H. discriminate.
Qed.

Lemma tag_line_supplied args t :
  arg_tag args = Some t -> t <> [] ->
  tag_line args = [lit "Tag check OK: " ++ t].
Proof.
  unfold tag_line. intros -> Ht. destruct t; [congruence | reflexivity].
Qed.

Lemma failed_outcome message e out :
  failed message e = Ok out ->
  exit_code out = 1%Z /\ stdout out = []
  /\ stderr out = [lit "Version sync failed: " ++ message e].
Proof.
  unfold failed. destruct (is_version_sync_error e); [|discriminate].
  intros [= <-]. auto.
Qed.

Lemma run_set_iff pf repr_container input tag repo repo' :
  (exists v changed,
     run_set pf repr_container input tag repo = (repo', Ok (v, changed)))
  <-> exists V changed,
        normalize_version input = Ok V
        /\ write_all pf V repo = (repo', Ok changed)
        /\ check_tag V tag = Ok V.
Proof.
  split.
  - intros (v & changed & H).
    apply run_set_inv in H as (V & HV & Hw & Hc).
    pose proof (normalize_version_semver _ _ HV) as Hs.
    pose proof (write_all_quiet _ _ _ _ _ Hs Hw) as Hq.
    rewrite (all_quiet_run_check pf _ V _ tag Hs Hq) in Hc.
    pose proof (check_tag_version _ _ _ Hc) as ->. eauto.
  - intros (V & changed & HV & Hw & Hc).
    pose proof (normalize_version_semver _ _ HV) as Hs.
    pose proof (write_all_quiet _ _ _ _ _ Hs Hw) as Hq.
    exists V, changed. unfold run_set, bind_action, lift, ret.
    rewrite HV, Hw, (all_quiet_run_check pf _ V _ tag Hs Hq), Hc.
    reflexivity.
Qed.

(** X21. What [main] of [version_sync.py] returns, when it returns. The
    exit code is 0, 1 or 2, and 2 only for a sub-command that is neither
    [check] nor [set]. [check] changes no file, and exits with 0 exactly
    when every registered file reads one and the same semantic version
    and the tag, if any, passes. [set] exits with 0 exactly when the
    argument normalises to a version, every writer succeeds with it, and
    the tag, if any, passes. With exit code 0 nothing is printed to
    standard error, and a tag that was given is always reported; with
    exit code 1 nothing is printed to standard output and one line to
    standard error. *)
Theorem version_sync_main_spec (pf : platform)
    (repr_container : json -> str) (message : error -> str)
    (help : list str) (args : arguments) (repo repo' : repository)
    (out : outcome) :
  version_sync_main pf repr_container message help args repo
  = (repo', Ok out) ->
  (exit_code out = 0%Z \/ exit_code out = 1%Z \/ exit_code out = 2%Z)
  /\ (exit_code out = 2%Z <->
      arg_command args <> lit "check" /\ arg_command args <> lit "set")
  /\ (arg_command args = lit "check" ->
      repo' = repo
      /\ (exit_code out = 0%Z <->
          exists V,
            read_versions repr_container repo
            = Ok (map (fun f => (f, V)) registered_files)
            /\ is_semver V = true
            /\ check_tag V (arg_tag args) = Ok V))
  /\ (arg_command args = lit "set" ->
      (exit_code out = 0%Z <->
       exists V changed_files,
         normalize_version (arg_version args) = Ok V
         /\ write_all pf V repo = (repo', Ok changed_files)
         /\ check_tag V (arg_tag args) = Ok V))
  /\ (exit_code out = 0%Z ->
      stderr out = []
      /\ forall t, arg_tag args = Some t ->
           In (lit "Tag check OK: " ++ t) (stdout out))
  /\ (exit_code out = 1%Z ->
      stdout out = []
      /\ exists e, stderr out = [lit "Version sync failed: " ++ message e]).
Proof.
  unfold version_sync_main.
  destruct (str_eqb (arg_command args) (lit "check")) eqn:Ec.
  { apply str_eqb_eq in Ec.
    destruct (run_check repr_container repo (arg_tag args)) as [V|e] eqn:Er.
    - intros [= <- <-]. cbn [exit_code stdout stderr].
      split; [auto|]. split; [split; [discriminate | intros [H _]; congruence]|].
      split.
      { intros _. split; [reflexivity|]. split; [|reflexivity].
        intros _. exists V. apply run_check_iff, Er. }
      split; [rewrite Ec; discriminate|].
      split; [|discriminate]. intros _. split; [reflexivity|].
      intros t Ht. right. rewrite Ht in Er.
      apply run_check_iff in Er as (_ & _ & Hc).
      rewrite (tag_line_supplied _ _ Ht (check_tag_supplied _ _ _ Hc)).
      left. reflexivity.
    - intros [= <- H]. destruct (failed_outcome _ _ _ H) as (H1 & H2 & H3).
      rewrite H1. split; [auto|].
      split; [split; [discriminate | intros [H0 _]; congruence]|].
      split.
      { intros _. split; [reflexivity|]. split; [discriminate|].
        intros (V & HV). apply run_check_iff in HV. congruence. }
      split; [rewrite Ec; discriminate|].
      split; [discriminate|]. intros _. eauto. }
  destruct (str_eqb (arg_command args) (lit "set")) eqn:Es.
  { apply str_eqb_eq in Es. apply str_eqb_neq in Ec.
    destruct (run_set pf repr_container (arg_version args) (arg_tag args) repo)
      as [repo1 [[V changed]|e]] eqn:Er.
    - intros [= <- <-]. cbn [exit_code stdout stderr].
      split; [auto|]. split; [split; [discriminate | intros [_ H]; congruence]|].
      split; [intros H; congruence|].
      split.
      { intros _. split; [|reflexivity]. intros _.
        apply (run_set_iff pf repr_container). eauto. }
      split; [|discriminate]. intros _. split; [reflexivity|].
      intros t Ht. right. apply in_or_app. right.
      assert (Hc : exists V', check_tag V' (Some t) = Ok V').
      { destruct (proj1 (run_set_iff pf repr_container _ _ _ _)
                    (ex_intro _ V (ex_intro _ changed Er)))
          as (V' & ch & _ & _ & Hc).
        rewrite Ht in Hc. eauto. }
      destruct Hc as (V' & Hc).
      rewrite (tag_line_supplied _ _ Ht (check_tag_supplied _ _ _ Hc)).
      left. reflexivity.
    - intros [= <- H]. destruct (failed_outcome _ _ _ H) as (H1 & H2 & H3).
      rewrite H1. split; [auto|].
      split; [split; [discriminate | intros [_ H0]; congruence]|].
      split; [intros H0; congruence|].
      split.
      { intros _. split; [discriminate|]. intros Hex.
        apply (run_set_iff pf repr_container) in Hex as (v & ch & Hex).
        congruence. }
      split; [discriminate|]. intros _. eauto. }
  apply str_eqb_neq in Ec, Es.
  intros [= <- <-]. cbn [exit_code stdout stderr].
  split; [auto|]. split; [split; auto|].
  split; [intros H; congruence|]. split; [intros H; congruence|].
  split; discriminate.
Qed.

Lemma version_sync_main_spec_witness :
  exists out,
    snd (version_sync_main Posix no_repr (fun _ => []) []
           {| arg_command := lit "check"; arg_version := [];
              arg_tag := Some (lit "v0.1.0") |} sample_repo)
    = Ok out
    /\ exit_code out = 0%Z
    /\ In (lit "Tag check OK: v0.1.0") (stdout out).
Proof.
  destruct (version_sync_main Posix no_repr (fun _ => []) []
              {| arg_command := lit "check"; arg_version := [];
                 arg_tag := Some (lit "v0.1.0") |} sample_repo)
    as [repo' r] eqn:E.
  assert (Hr : exists out, r = Ok out /\ exit_code out = 0%Z).
  { assert (H : snd (version_sync_main Posix no_repr (fun _ => []) []
                       {| arg_command := lit "check"; arg_version := [];
                          arg_tag := Some (lit "v0.1.0") |} sample_repo)
                = r) by (rewrite E; reflexivity).
    vm_compute in H. subst r. eexists. split; reflexivity. }
  destruct Hr as (out & -> & H0). exists out. cbn [snd].
  split; [reflexivity|]. split; [exact H0|].
  destruct (version_sync_main_spec _ _ _ _ _ _ _ _ E)
    as (_ & _ & _ & _ & H & _).
  apply (proj2 (H H0) (lit "v0.1.0")). reflexivity.
Defined.
